(** * Pratincole: recipe calculator and knowledge graph

    A shallow embedding of the two Node.js servers of the repository:
    the production calculator (findRecipeForItem, calculateRequirements,
    calculateFullRequirements, generateSankeyData, generateRecipeTree,
    generateRecipeTable) and the knowledge-graph server
    (generateCompleteGraph, generateItemSubgraph, the multi-item merge).

    JavaScript numbers are IEEE-754 binary64 values and are modelled by
    Rocq's primitive floats; objects used as dictionaries are association
    lists in property (insertion) order; Map/Set locals are lists. *)

From Stdlib Require Import Floats List String Ascii Bool ZArith Lia.
From Stdlib Require Import Permutation Sorted FinFun.
Import ListNotations.

Set Warnings "-inexact-float,-register-all".
#[local] Open Scope string_scope.
#[local] Open Scope list_scope.
#[local] Open Scope float_scope.

(* ================================================================== *)
(** ** JavaScript values and built-ins *)
(* ================================================================== *)

Module JS.

Definition number : Set := float.

(** Every binary64 value of magnitude at least 2^52 is an integer. *)
Definition two52 : number := 4503599627370496.

(** [Math.ceil]: below 2^52 the sum [|x| + 2^52 - 2^52] is the integer
    nearest to [|x|]; it is then moved to the right side of [x].
    The sign of a zero result follows [x], as in ECMAScript. *)
Definition Math_ceil (x : number) : number :=
  if is_nan x then x
  else if PrimFloat.leb two52 (abs x) then x
  else
    let t := (abs x + two52) - two52 in
    if PrimFloat.ltb x 0 then - (if PrimFloat.ltb (abs x) t then t - 1 else t)
    else if PrimFloat.eqb x 0 then x
    else if PrimFloat.ltb t x then t + 1 else t.

Definition Math_floor (x : number) : number := - Math_ceil (- x).

(** [Math.round]: the nearest integer, ties towards +infinity; a zero
    result keeps the sign of a negative argument. *)
Definition Math_round (x : number) : number :=
  if is_nan x then x
  else if PrimFloat.leb two52 (abs x) then x
  else
    let f := Math_floor x in
    let r := if PrimFloat.leb 0.5 (x - f) then f + 1 else f in
    if PrimFloat.eqb r 0
    then (if PrimFloat.ltb x 0 then (-0) else if PrimFloat.eqb x 0 then x else 0)
    else r.

(** [Math.max(a, b)] for two arguments: NaN is contagious, otherwise
    the larger one. (Used only with a non-zero first argument, so the
    ordering of signed zeros does not matter.) *)
Definition Math_max (a b : number) : number :=
  if PrimFloat.leb a b then b
  else if is_nan a || is_nan b then nan
  else a.

(** Truthiness of a number: [0], [-0] and [NaN] are falsy. *)
Definition truthy (x : number) : bool :=
  negb (PrimFloat.eqb x 0 || is_nan x).

(** [v || d] where [v] is a possibly undefined number. *)
Definition or_default (v : option number) (d : number) : number :=
  match v with
  | Some x => if truthy x then x else d
  | None => d
  end.

(** [ToNumber(v)] for a possibly undefined number ([undefined] is NaN). *)
Definition to_number (v : option number) : number :=
  match v with Some x => x | None => nan end.

(** Rounding to two decimals as the servers write it. *)
Definition round2 (x : number) : number := Math_round (x * 100) / 100.
Definition ceil2 (x : number) : number := Math_ceil (x * 100) / 100.

(** A plain object used as a dictionary: own string keys in insertion
    order. This is what a [{}] is for the keys called plain below
    ([plainName]): a key that names a property inherited from
    Object.prototype reads as present before it is written (and
    [__proto__] is never stored), and integer-like keys are enumerated
    before the others. The objects the calculator builds
    ([requirements], [table.recipes], [table.items],
    [table.rawMaterials], [consumedBy]) are keyed by the item names and
    recipe keys of the dataset, so the statements whose content depends
    on how these objects treat a key carry the hypothesis [plainNames]
    (or [plainName] for the names concerned). *)
Definition object (V : Type) := list (string * V).

Fixpoint get {V} (o : object V) (k : string) : option V :=
  match o with
  | [] => None
  | (k', v) :: o' => if String.eqb k' k then Some v else get o' k
  end.

Fixpoint set {V} (o : object V) (k : string) (v : V) : object V :=
  match o with
  | [] => [(k, v)]
  | (k', v') :: o' =>
      if String.eqb k' k then (k', v) :: o' else (k', v') :: set o' k v
  end.

Definition has {V} (o : object V) (k : string) : bool :=
  match get o k with Some _ => true | None => false end.

Definition keys {V} (o : object V) : list string := map fst o.
Definition values {V} (o : object V) : list V := map snd o.

(** A [Set] of strings: membership is all the servers ask of it. *)
Definition Set_has (s : list string) (k : string) : bool :=
  existsb (String.eqb k) s.
Definition Set_add (s : list string) (k : string) : list string :=
  if Set_has s k then s else s ++ [k].

(** [Array.prototype.sort(cmp)]: a stable sort; [a] is placed after [b]
    exactly when [cmp a b > 0]. *)
Fixpoint insert_sorted {A} (after : A -> A -> bool) (x : A) (l : list A)
  : list A :=
  match l with
  | [] => [x]
  | y :: l' => if after x y then y :: insert_sorted after x l' else x :: l
  end.

Definition Array_sort {A} (cmp : A -> A -> number) (l : list A) : list A :=
  fold_right (insert_sorted (fun a b => PrimFloat.ltb 0 (cmp a b))) [] l.

(** Abrupt completion: the only exception the modelled code can raise
    is a [TypeError] (a property read on [undefined]). [OutOfFuel] is
    not a JavaScript outcome: it marks a recursion budget of this
    embedding that was too small, and is shown never to occur. *)
Inductive error := TypeError | OutOfFuel.

Inductive completion (A : Type) : Type :=
| Normal (a : A)
| Throw (e : error).
Arguments Normal {A} a.
Arguments Throw {A} e.

Definition bind {A B} (c : completion A) (k : A -> completion B)
  : completion B :=
  match c with
  | Normal a => k a
  | Throw e => Throw e
  end.

(** [xs.forEach(x => body)] over a mutable state [S]. *)
Fixpoint forEach {A S} (xs : list A) (body : A -> S -> completion S) (s : S)
  : completion S :=
  match xs with
  | [] => Normal s
  | x :: xs' => bind (body x s) (forEach xs' body)
  end.

End JS.

Import JS.
Notation "x <- c ;; k" := (JS.bind c (fun x => k))
  (at level 61, c at next level, right associativity).

(* ================================================================== *)
(** ** The dataset (factorioData) *)
(* ================================================================== *)

(** An ingredient or a result: [{name, amount}]; [amount] may be absent. *)
Record entry := { name : string; amount : option number }.

Record recipe := {
  category : option string;
  energy_required : option number;
  ingredients : option (list entry);
  results : option (list entry)
}.

Record itemProperties := {
  group : option string;
  subgroup : option string
}.

(** [factorioData.recipes] and [factorioData.items], in [for ... in]
    order. *)
Record factorioData := {
  recipes : object recipe;
  items : object itemProperties
}.

(** [{ key: recipeKey, ...recipe }] *)
Record keyedRecipe := { key : string; def : recipe }.

Definition produces (r : recipe) (itemName : string) : bool :=
  match results r with
  | Some rs => existsb (fun e => String.eqb (name e) itemName) rs
  | None => false
  end.

Definition consumes (r : recipe) (itemName : string) : bool :=
  match ingredients r with
  | Some ins => existsb (fun e => String.eqb (name e) itemName) ins
  | None => false
  end.

(** [recipe.results[0]]: reading it on a recipe without results throws. *)
Definition primaryOutput (r : recipe) : completion entry :=
  match results r with
  | Some (e :: _) => Normal e
  | _ => Throw TypeError
  end.

(** [recipe.ingredients.forEach] / [.map] throw when the field is absent. *)
Definition ingredientList (r : recipe) : completion (list entry) :=
  match ingredients r with
  | Some ins => Normal ins
  | None => Throw TypeError
  end.

(* ================================================================== *)
(** ** The calculator server *)
(* ================================================================== *)

(** [findRecipeForItem]: the first recipe, in iteration order, one of whose
    results is [itemName]. *)
Fixpoint findRecipeIn (rs : object recipe) (itemName : string)
  : option keyedRecipe :=
  match rs with
  | [] => None
  | (recipeKey, r) :: rest =>
      if produces r itemName then Some {| key := recipeKey; def := r |}
      else findRecipeIn rest itemName
  end.

Definition findRecipeForItem (data : factorioData) (itemName : string)
  : option keyedRecipe :=
  findRecipeIn (recipes data) itemName.

(** Speed of assembling-machine-3, the constant of every machine count. *)
Definition craftingSpeed : number := 1.25.

(** [(ingredient.amount * rate) / outputAmount] *)
Definition ingredientRateOf (ingredient : entry) (rate outputAmount : number)
  : number :=
  (to_number (amount ingredient) * rate) / outputAmount.

(** [requirements[name] = (requirements[name] || 0) + amountNeeded] *)
Definition addRequirement (requirements : object number) (ingredientName : string)
  (amountNeeded : number) : object number :=
  set requirements ingredientName
    (or_default (get requirements ingredientName) 0 + amountNeeded).

(** The body of [recipe.ingredients.forEach] in
    [calculateFullRequirements], with the recursive call passed in. *)
Definition requirementStep (data : factorioData)
  (recur : keyedRecipe -> number -> object number -> list string ->
           completion (object number))
  (targetRate outputAmount : number) (seen : list string)
  (ingredient : entry) (requirements : object number)
  : completion (object number) :=
  let ingredientName := name ingredient in
  let amountNeeded := ingredientRateOf ingredient targetRate outputAmount in
  let requirements :=
    addRequirement requirements ingredientName amountNeeded in
  match findRecipeForItem data ingredientName with
  | Some ingredientRecipe =>
      recur ingredientRecipe amountNeeded requirements seen
  | None => Normal requirements
  end.

(** [calculateFullRequirements(recipe, targetRate, requirements, seen)].
    The callers pass a recipe that was found, so [recipe] is not null
    here. [requirements] is the object the JavaScript mutates, threaded
    through; [seen] is a value, so every recursive call receives its own
    copy ([new Set(seen)]). The recursion of the source is not structural:
    [fuel] bounds its depth. *)
Fixpoint calculateFullRequirements (data : factorioData) (fuel : nat)
  (recipe : keyedRecipe) (targetRate : number)
  (requirements : object number) (seen : list string)
  : completion (object number) :=
  match fuel with
  | O => Throw OutOfFuel
  | S fuel' =>
      match ingredients (def recipe) with
      | None => Normal requirements
      | Some ins =>
          out <- primaryOutput (def recipe) ;;
          let outputAmount := or_default (amount out) 1 in
          let recipeKey := key recipe in
          if Set_has seen recipeKey then Normal requirements
          else
            let seen := Set_add seen recipeKey in
            forEach ins
              (requirementStep data (calculateFullRequirements data fuel')
                 targetRate outputAmount seen)
              requirements
      end
  end.

(** A recursion budget that always suffices: the visited set grows by one
    recipe key of the dataset at every level. *)
Definition enoughFuel (data : factorioData) : nat := S (List.length (recipes data)).

Record ingredientRequirement := {
  ir_name : string;
  ir_amountPerSecond : number;
  ir_recipe : option string
}.

Record requirementsResult := {
  rq_item : string;
  rq_targetRate : number;
  rq_machinesNeeded : number;
  rq_ingredients : list ingredientRequirement;
  rq_craftingTime : number;
  rq_recipe : string;
  rq_fullRequirements : list (string * number)
}.

(** The tail of [calculateRequirements]:
    [Object.entries(fullRequirements).map(round).sort((a, b) => b.rate - a.rate)] *)
Definition byDescendingRate (a b : string * number) : number := snd b - snd a.

Definition finalRequirements (fullRequirements : object number)
  : list (string * number) :=
  Array_sort byDescendingRate
    (map (fun e => (fst e, round2 (snd e))) fullRequirements).

Definition calculateRequirements (data : factorioData) (recipe : keyedRecipe)
  (targetRate : number) : completion requirementsResult :=
  let craftingTime := or_default (energy_required (def recipe)) 0.5 in
  out <- primaryOutput (def recipe) ;;
  let outputItem := name out in
  let outputAmount := or_default (amount out) 1 in
  let machinesNeeded :=
    (targetRate * craftingTime) / (outputAmount * craftingSpeed) in
  ins <- ingredientList (def recipe) ;;
  let ingredients :=
    map (fun ingredient =>
           {| ir_name := name ingredient;
              ir_amountPerSecond :=
                ingredientRateOf ingredient targetRate outputAmount;
              ir_recipe :=
                option_map key (findRecipeForItem data (name ingredient)) |})
        ins in
  fullRequirements <-
    calculateFullRequirements data (enoughFuel data) recipe targetRate [] [] ;;
  Normal
    {| rq_item := outputItem;
       rq_targetRate := targetRate;
       rq_machinesNeeded := ceil2 machinesNeeded;
       rq_ingredients := ingredients;
       rq_craftingTime := craftingTime;
       rq_recipe := key recipe;
       rq_fullRequirements := finalRequirements fullRequirements |}.

(** *** generateRecipeTree *)

(** A node of the tree: the root and every ingredient that has a recipe
    carry [recipe], [machines], [time] and [children]; an ingredient
    without a recipe carries [type: 'raw']. *)
Inductive treeNode :=
| Crafted (item recipeKey : string) (rate machines time : number)
    (children : list treeNode)
| Raw (item : string) (rate : number).

(** [Object.assign(childNode, {recipe, machines, time, children})] on
    [childNode = {item, rate}] *)
Definition assignSubTree (item : string) (rate : number) (subTree : treeNode)
  : treeNode :=
  match subTree with
  | Crafted _ recipeKey _ machines time children =>
      Crafted item recipeKey rate machines time children
  | Raw _ _ => Raw item rate
  end.

(** [generateRecipeTree(recipe, targetRate, depth)], by recursion on
    [depth] (a count, 5 when the caller gives none). *)
Fixpoint generateRecipeTree (data : factorioData) (depth : nat)
  (recipe : keyedRecipe) (targetRate : number) : completion treeNode :=
  out <- primaryOutput (def recipe) ;;
  let outputItem := name out in
  let outputAmount := or_default (amount out) 1 in
  let craftingTime := or_default (energy_required (def recipe)) 0.5 in
  let machinesNeeded :=
    (targetRate * craftingTime) / (outputAmount * craftingSpeed) in
  let result :=
    Crafted outputItem (key recipe) targetRate (ceil2 machinesNeeded)
      craftingTime in
  match depth with
  | O => Normal (result [])
  | S depth' =>
      ins <- ingredientList (def recipe) ;;
      children <-
        forEach ins
          (fun ingredient children =>
             let ingredientName := name ingredient in
             let ingredientRate :=
               ingredientRateOf ingredient targetRate outputAmount in
             match findRecipeForItem data ingredientName with
             | Some ingredientRecipe =>
                 subTree <-
                   generateRecipeTree data depth' ingredientRecipe
                     ingredientRate ;;
                 Normal
                   (children ++
                    [assignSubTree ingredientName (round2 ingredientRate)
                       subTree])
             | None =>
                 Normal (children ++ [Raw ingredientName (round2 ingredientRate)])
             end)
          [] ;;
      Normal (result children)
  end.

Definition defaultTreeDepth : nat := 5.

(** *** generateSankeyData *)

Module Sankey.

(** ['recipe'], ['item'] or ['raw'] *)
Inductive nodeType := recipeType | itemType | rawType.

Record node := { node_name : string; node_id : nat; node_type : nodeType }.

Record link := { source : nat; target : nat; value : number }.

(** The three locals of [generateSankeyData] that its closures mutate. *)
Record state := {
  nodes : list node;
  links : list link;
  nodeMap : object nat
}.

Definition empty : state := {| nodes := []; links := []; nodeMap := [] |}.

Definition addNode (nodeName : string) (type : nodeType) (st : state)
  : nat * state :=
  match get (nodeMap st) nodeName with
  | Some index => (index, st)
  | None =>
      let index := List.length (nodes st) in
      (index,
       {| nodes := nodes st ++
                   [{| node_name := nodeName; node_id := index;
                       node_type := type |}];
          links := links st;
          nodeMap := set (nodeMap st) nodeName index |})
  end.

Definition addLink (src tgt : nat) (v : number) (st : state) : state :=
  {| nodes := nodes st;
     links := links st ++
              [{| source := src; target := tgt; value := Math_max 0.01 v |}];
     nodeMap := nodeMap st |}.

(** [nodes[index].type = 'raw']; a missing element would be a TypeError. *)
Fixpoint setRaw (index : nat) (ns : list node) : completion (list node) :=
  match ns, index with
  | [], _ => Throw TypeError
  | n :: ns', O =>
      Normal ({| node_name := node_name n; node_id := node_id n;
                 node_type := rawType |} :: ns')
  | n :: ns', S index' => ns'' <- setRaw index' ns' ;; Normal (n :: ns'')
  end.

Definition markRaw (index : nat) (st : state) : completion state :=
  ns <- setRaw index (nodes st) ;;
  Normal {| nodes := ns; links := links st; nodeMap := nodeMap st |}.

Definition recipeLabel (recipeKey : string) : string :=
  String.append "Recipe: " recipeKey.

(** The body of [recipe.ingredients.forEach] in [buildSankeyData], with
    the recursive call passed in. *)
Definition ingredientStep (data : factorioData) (depth : nat)
  (recur : keyedRecipe -> number -> nat -> list string -> state ->
           completion state)
  (recipeNodeId : nat) (rate outputAmount : number) (currentDepth : nat)
  (visited : list string) (ingredient : entry) (st : state)
  : completion state :=
  let ingredientName := name ingredient in
  let ingredientRate := ingredientRateOf ingredient rate outputAmount in
  let '(ingredientNodeId, st) := addNode ingredientName itemType st in
  let st := addLink ingredientNodeId recipeNodeId ingredientRate st in
  if Nat.ltb currentDepth depth then
    match findRecipeForItem data ingredientName with
    | Some ingredientRecipe =>
        recur ingredientRecipe ingredientRate (S currentDepth) visited st
    | None => markRaw ingredientNodeId st
    end
  else Normal st.

(** [buildSankeyData(recipe, rate, currentDepth, visited)] *)
Fixpoint buildSankeyData (data : factorioData) (depth : nat) (fuel : nat)
  (recipe : keyedRecipe) (rate : number) (currentDepth : nat)
  (visited : list string) (st : state) : completion state :=
  match fuel with
  | O => Throw OutOfFuel
  | S fuel' =>
      if Nat.ltb depth currentDepth then Normal st
      else
        let recipeKey := key recipe in
        let recipeName := recipeLabel (key recipe) in
        out <- primaryOutput (def recipe) ;;
        let outputItem := name out in
        let outputAmount := or_default (amount out) 1 in
        if Set_has visited recipeKey then Normal st
        else
          let visited := Set_add visited recipeKey in
          let '(recipeNodeId, st) := addNode recipeName recipeType st in
          let '(outputNodeId, st) := addNode outputItem itemType st in
          let st := addLink recipeNodeId outputNodeId rate st in
          ins <- ingredientList (def recipe) ;;
          forEach ins
            (ingredientStep data depth (buildSankeyData data depth fuel')
               recipeNodeId rate outputAmount currentDepth visited)
            st
  end.

Definition defaultDepth : nat := 3.

Record graph := { graph_nodes : list node; graph_links : list link }.

End Sankey.

(** [generateSankeyData(recipe, targetRate, depth)] *)
Definition generateSankeyData (data : factorioData) (depth : nat)
  (recipe : keyedRecipe) (targetRate : number) : completion Sankey.graph :=
  st <- Sankey.buildSankeyData data depth (S depth) recipe targetRate 0
          [] Sankey.empty ;;
  Normal {| Sankey.graph_nodes := Sankey.nodes st;
            Sankey.graph_links := Sankey.links st |}.

(** *** generateRecipeTable *)

Module Table.

Record recipeRow := {
  r_name : string;
  r_time : number;
  r_machines : number;
  r_outputRate : number;
  r_produces : string;
  r_ingredients : list (string * number)
}.

Record itemRow := {
  i_name : string;
  i_producedBy : option string;
  i_producedRate : number;
  i_consumedBy : object number;
  i_consumedRate : number
}.

(** The local [table] while [processRecipe] runs: three objects. *)
Record state := {
  recipes : object recipeRow;
  items : object itemRow;
  rawMaterials : object number
}.

Definition empty : state :=
  {| recipes := []; items := []; rawMaterials := [] |}.

(** "Add to recipe table" *)
Definition addRecipe (recipeKey outputItem : string)
  (craftingTime machinesNeeded rate : number) (t : state) : state :=
  let rows :=
    match get (recipes t) recipeKey with
    | None =>
        set (recipes t) recipeKey
          {| r_name := recipeKey; r_time := craftingTime;
             r_machines := ceil2 machinesNeeded; r_outputRate := rate;
             r_produces := outputItem; r_ingredients := [] |}
    | Some row =>
        set (recipes t) recipeKey
          {| r_name := r_name row; r_time := r_time row;
             r_machines := ceil2 (r_machines row + machinesNeeded);
             r_outputRate := r_outputRate row + rate;
             r_produces := r_produces row;
             r_ingredients := r_ingredients row |}
    end in
  {| recipes := rows; items := items t; rawMaterials := rawMaterials t |}.

(** "Add to items table" *)
Definition addProduced (recipeKey outputItem : string) (rate : number)
  (t : state) : state :=
  let rows :=
    match get (items t) outputItem with
    | None =>
        set (items t) outputItem
          {| i_name := outputItem; i_producedBy := Some recipeKey;
             i_producedRate := rate; i_consumedBy := [];
             i_consumedRate := 0 |}
    | Some row =>
        set (items t) outputItem
          {| i_name := i_name row; i_producedBy := i_producedBy row;
             i_producedRate := i_producedRate row + rate;
             i_consumedBy := i_consumedBy row;
             i_consumedRate := i_consumedRate row |}
    end in
  {| recipes := recipes t; items := rows; rawMaterials := rawMaterials t |}.

(** [table.recipes[recipeKey].ingredients.push({name, rate})] *)
Definition pushIngredient (recipeKey ingredientName : string)
  (rounded : number) (t : state) : completion state :=
  match get (recipes t) recipeKey with
  | None => Throw TypeError
  | Some row =>
      Normal
        {| recipes :=
             set (recipes t) recipeKey
               {| r_name := r_name row; r_time := r_time row;
                  r_machines := r_machines row;
                  r_outputRate := r_outputRate row;
                  r_produces := r_produces row;
                  r_ingredients :=
                    r_ingredients row ++ [(ingredientName, rounded)] |};
           items := items t; rawMaterials := rawMaterials t |}
  end.

(** "Update item consumption" *)
Definition addConsumed (recipeKey ingredientName : string)
  (ingredientRate : number) (t : state) : state :=
  let rows :=
    match get (items t) ingredientName with
    | None =>
        set (items t) ingredientName
          {| i_name := ingredientName; i_producedBy := None;
             i_producedRate := 0;
             i_consumedBy := [(recipeKey, round2 ingredientRate)];
             i_consumedRate := ingredientRate |}
    | Some row =>
        set (items t) ingredientName
          {| i_name := i_name row; i_producedBy := i_producedBy row;
             i_producedRate := i_producedRate row;
             i_consumedBy :=
               set (i_consumedBy row) recipeKey
                 (or_default (get (i_consumedBy row) recipeKey) 0
                  + round2 ingredientRate);
             i_consumedRate := i_consumedRate row + ingredientRate |}
    end in
  {| recipes := recipes t; items := rows; rawMaterials := rawMaterials t |}.

(** "Add to raw materials": [!table.rawMaterials[name]] is also true of a
    stored [0] or [NaN]. *)
Definition addRawMaterial (ingredientName : string) (ingredientRate : number)
  (t : state) : state :=
  let total :=
    match get (rawMaterials t) ingredientName with
    | Some v =>
        if truthy v then v + round2 ingredientRate else round2 ingredientRate
    | None => round2 ingredientRate
    end in
  {| recipes := recipes t; items := items t;
     rawMaterials := set (rawMaterials t) ingredientName total |}.

(** The body of [recipe.ingredients.forEach] in [processRecipe], with the
    recursive call passed in. *)
Definition ingredientStep (data : factorioData)
  (recur : keyedRecipe -> number -> list string -> state -> completion state)
  (recipeKey : string) (rate outputAmount : number) (seen : list string)
  (ingredient : entry) (t : state) : completion state :=
  let ingredientName := name ingredient in
  let ingredientRate := ingredientRateOf ingredient rate outputAmount in
  t <- pushIngredient recipeKey ingredientName (round2 ingredientRate) t ;;
  let t := addConsumed recipeKey ingredientName ingredientRate t in
  match findRecipeForItem data ingredientName with
  | Some ingredientRecipe => recur ingredientRecipe ingredientRate seen t
  | None => Normal (addRawMaterial ingredientName ingredientRate t)
  end.

(** [processRecipe(recipe, rate, seen)] *)
Fixpoint processRecipe (data : factorioData) (fuel : nat)
  (recipe : keyedRecipe) (rate : number) (seen : list string) (t : state)
  : completion state :=
  match fuel with
  | O => Throw OutOfFuel
  | S fuel' =>
      let recipeKey := key recipe in
      out <- primaryOutput (def recipe) ;;
      let outputItem := name out in
      let outputAmount := or_default (amount out) 1 in
      let craftingTime := or_default (energy_required (def recipe)) 0.5 in
      if Set_has seen recipeKey then Normal t
      else
        let seen := Set_add seen recipeKey in
        let machinesNeeded :=
          (rate * craftingTime) / (outputAmount * craftingSpeed) in
        let t := addRecipe recipeKey outputItem craftingTime machinesNeeded
                   rate t in
        let t := addProduced recipeKey outputItem rate t in
        ins <- ingredientList (def recipe) ;;
        forEach ins
          (ingredientStep data (processRecipe data fuel') recipeKey rate
             outputAmount seen)
          t
  end.

Record table := {
  table_recipes : list recipeRow;
  table_items : list itemRow;
  table_rawMaterials : list (string * number)
}.

End Table.

(** [generateRecipeTable(recipe, targetRate)] *)
Definition generateRecipeTable (data : factorioData) (recipe : keyedRecipe)
  (targetRate : number) : completion Table.table :=
  t <- Table.processRecipe data (enoughFuel data) recipe targetRate []
         Table.empty ;;
  Normal
    {| Table.table_recipes := values (Table.recipes t);
       Table.table_items := values (Table.items t);
       Table.table_rawMaterials :=
         Array_sort byDescendingRate (Table.rawMaterials t) |}.

(** *** The route handlers, for a body with a string [itemName] and a
    number [rate] *)

(** What a handler answers: a JSON body, 400 when the request misses a
    field, 404 when the item has no recipe, 500 when the [try] block
    caught an exception. *)
Inductive response (A : Type) : Type :=
| Json (body : A)
| BadRequest
| NotFound
| ServerError.
Arguments Json {A} body.
Arguments BadRequest {A}.
Arguments NotFound {A}.
Arguments ServerError {A}.

(** [!(!itemName || !rate)]: the empty name and the rates [0], [-0] and
    [NaN] are falsy. *)
Definition validRequest (itemName : string) (rate : number) : bool :=
  negb (String.eqb itemName "") && truthy rate.

Definition respond {A} (c : completion A) : response A :=
  match c with
  | Normal a => Json a
  | Throw _ => ServerError
  end.

Inductive format := formatSankey | formatTree | formatTable | formatOther.

Record calculateBody := {
  body_result : requirementsResult;
  body_sankey : option Sankey.graph;
  body_tree : option treeNode;
  body_table : option Table.table
}.

(** [app.post('/calculate')] *)
Definition post_calculate (data : factorioData) (itemName : string)
  (rate : number) (fmt : format) : response calculateBody :=
  if negb (validRequest itemName rate) then BadRequest else
  match findRecipeForItem data itemName with
  | None => NotFound
  | Some recipe =>
      respond
        (result <- calculateRequirements data recipe rate ;;
         match fmt with
         | formatSankey =>
             g <- generateSankeyData data Sankey.defaultDepth recipe rate ;;
             Normal {| body_result := result; body_sankey := Some g;
                       body_tree := None; body_table := None |}
         | formatTree =>
             t <- generateRecipeTree data defaultTreeDepth recipe rate ;;
             Normal {| body_result := result; body_sankey := None;
                       body_tree := Some t; body_table := None |}
         | formatTable =>
             t <- generateRecipeTable data recipe rate ;;
             Normal {| body_result := result; body_sankey := None;
                       body_tree := None; body_table := Some t |}
         | formatOther =>
             Normal {| body_result := result; body_sankey := None;
                       body_tree := None; body_table := None |}
         end)
  end.

(** [app.post('/sankey')], [app.post('/tree')], [app.post('/table')] *)
Definition post_sankey (data : factorioData) (itemName : string)
  (rate : number) : response Sankey.graph :=
  if negb (validRequest itemName rate) then BadRequest else
  match findRecipeForItem data itemName with
  | None => NotFound
  | Some recipe =>
      respond (generateSankeyData data Sankey.defaultDepth recipe rate)
  end.

Definition post_tree (data : factorioData) (itemName : string)
  (rate : number) : response treeNode :=
  if negb (validRequest itemName rate) then BadRequest else
  match findRecipeForItem data itemName with
  | None => NotFound
  | Some recipe =>
      respond (generateRecipeTree data defaultTreeDepth recipe rate)
  end.

Definition post_table (data : factorioData) (itemName : string)
  (rate : number) : response Table.table :=
  if negb (validRequest itemName rate) then BadRequest else
  match findRecipeForItem data itemName with
  | None => NotFound
  | Some recipe => respond (generateRecipeTable data recipe rate)
  end.

(* ================================================================== *)
(** ** The knowledge-graph server *)
(* ================================================================== *)

Module Graph.

(** ['recipe'] or ['item'] *)
Inductive nodeType := recipeType | itemType.

(** ['produces'] or ['consumedBy'] *)
Inductive relationship := Produces | ConsumedBy.

Definition relationshipName (r : relationship) : string :=
  match r with
  | Produces => "produces"
  | ConsumedBy => "consumedBy"
  end.

Definition relationship_eqb (a b : relationship) : bool :=
  match a, b with
  | Produces, Produces | ConsumedBy, ConsumedBy => true
  | _, _ => false
  end.

(** The extra properties spread into a node. *)
Inductive properties :=
| NoProperties
| RecipeProperties (category : option string) (time : number)
| ItemProperties (group subgroup : option string).

(** A node; its position in [nodes] is the [index] the source stores and
    blanks again on output. *)
Record node := {
  node_id : string;
  node_type : nodeType;
  node_name : string;
  node_props : properties
}.

(** A link while the graph is built: endpoints are node indices. *)
Record indexedLink := {
  sourceIndex : nat;
  targetIndex : nat;
  rel : relationship;
  amt : option number
}.

(** A link of the answer: endpoints are node ids. *)
Record link := {
  source : string;
  target : string;
  link_rel : relationship;
  link_amount : option number
}.

Record state := {
  nodes : list node;
  links : list indexedLink;
  nodeMap : object nat
}.

Definition empty : state := {| nodes := []; links := []; nodeMap := [] |}.

Record graph := { graph_nodes : list node; graph_links : list link }.

Definition recipeId (recipeKey : string) : string :=
  String.append "recipe:" recipeKey.
Definition itemId (itemName : string) : string :=
  String.append "item:" itemName.

(** [addNode(id, type, name, properties)], the same in both generators;
    [name || id] falls back on the id for an empty name. *)
Definition addNode (nodeId : string) (t : nodeType) (nodeName : string)
  (p : properties) (st : state) : state :=
  if has (nodeMap st) nodeId then st
  else
    let index := List.length (nodes st) in
    {| nodes := nodes st ++
                [{| node_id := nodeId; node_type := t;
                    node_name :=
                      if String.eqb nodeName "" then nodeId else nodeName;
                    node_props := p |}];
       links := links st;
       nodeMap := set (nodeMap st) nodeId index |}.

Definition pushLink (s t : nat) (r : relationship) (a : option number)
  (st : state) : state :=
  {| nodes := nodes st;
     links := links st ++
              [{| sourceIndex := s; targetIndex := t; rel := r; amt := a |}];
     nodeMap := nodeMap st |}.

(** [nodes[index].id] *)
Definition idAt (ns : list node) (index : nat) : completion string :=
  match nth_error ns index with
  | Some n => Normal (node_id n)
  | None => Throw TypeError
  end.

(** [links.map(link => ({source: nodes[link.source].id, ...}))] *)
Fixpoint resolveLinks (ns : list node) (amountOf : option number -> option number)
  (ls : list indexedLink) : completion (list link) :=
  match ls with
  | [] => Normal []
  | l :: ls' =>
      s <- idAt ns (sourceIndex l) ;;
      t <- idAt ns (targetIndex l) ;;
      rest <- resolveLinks ns amountOf ls' ;;
      Normal ({| source := s; target := t; link_rel := rel l;
                 link_amount := amountOf (amt l) |} :: rest)
  end.

(** [recipe.energy_required || 0.5] *)
Definition recipeProperties (r : recipe) : properties :=
  RecipeProperties (category r) (or_default (energy_required r) 0.5).

(** [factorioData.items[itemName] || {}], read for group and subgroup *)
Definition itemPropertiesOf (data : factorioData) (itemName : string)
  : properties :=
  match get (items data) itemName with
  | Some p => ItemProperties (group p) (subgroup p)
  | None => ItemProperties None None
  end.

(** [list.find(e => e.name === itemName)?.amount || 1] *)
Definition amountFor (es : list entry) (itemName : string) : number :=
  or_default
    (match find (fun e => String.eqb (name e) itemName) es with
     | Some e => amount e
     | None => None
     end) 1.

End Graph.

(** *** generateCompleteGraph *)

Module CompleteGraph.
Import Graph.

(** [addLink]: pushed when both endpoints are known nodes. *)
Definition addLink (src tgt : string) (r : relationship) (a : option number)
  (st : state) : state :=
  match get (nodeMap st) src, get (nodeMap st) tgt with
  | Some s, Some t => pushLink s t r a st
  | _, _ => st
  end.

Definition addOutput (rid : string) (st : state) (result : entry) : state :=
  let iid := itemId (name result) in
  let st := addNode iid itemType (name result) NoProperties st in
  addLink rid iid Produces (Some (or_default (amount result) 1)) st.

Definition addInput (rid : string) (st : state) (ingredient : entry) : state :=
  let iid := itemId (name ingredient) in
  let st := addNode iid itemType (name ingredient) NoProperties st in
  addLink iid rid ConsumedBy (amount ingredient) st.

(** The body of [for (const recipeKey in factorioData.recipes)] *)
Definition addRecipe (st : state) (kr : string * recipe) : state :=
  let '(recipeKey, r) := kr in
  let rid := recipeId recipeKey in
  let st := addNode rid recipeType recipeKey (recipeProperties r) st in
  let st :=
    match results r with
    | Some rs => fold_left (addOutput rid) rs st
    | None => st
    end in
  match ingredients r with
  | Some ins => fold_left (addInput rid) ins st
  | None => st
  end.

Definition build (data : factorioData) : state :=
  fold_left addRecipe (recipes data) empty.

End CompleteGraph.

Definition generateCompleteGraph (data : factorioData)
  : completion Graph.graph :=
  let st := CompleteGraph.build data in
  ls <- Graph.resolveLinks (Graph.nodes st) (fun a => a) (Graph.links st) ;;
  Normal {| Graph.graph_nodes := Graph.nodes st; Graph.graph_links := ls |}.

(** *** generateItemSubgraph *)

Module ItemSubgraph.
Import Graph.

(** [addLink]: pushed when both endpoints are known nodes and no link
    with the same endpoints and relationship exists yet. *)
Definition linkExists (s t : nat) (r : relationship) (ls : list indexedLink)
  : bool :=
  existsb
    (fun l => Nat.eqb (sourceIndex l) s && Nat.eqb (targetIndex l) t
              && relationship_eqb (rel l) r)
    ls.

Definition addLink (src tgt : string) (r : relationship) (a : option number)
  (st : state) : state :=
  match get (nodeMap st) src, get (nodeMap st) tgt with
  | Some s, Some t => if linkExists s t r (links st) then st else pushLink s t r a st
  | _, _ => st
  end.

Section Explore.
Variable data : factorioData.
Variable maxDepth : Z.
(** The recursive call of [exploreItem], on a copy of [visited]. *)
Variable recur : string -> Z -> list string -> state -> completion state.

(** "Add ingredients": the body of [recipe.ingredients.forEach] *)
Definition exploreIngredient (rid : string) (currentDepth : Z)
  (visited : list string) (ingredient : entry) (st : state)
  : completion state :=
  let ingredientId := itemId (name ingredient) in
  let st := addNode ingredientId itemType (name ingredient)
              (itemPropertiesOf data (name ingredient)) st in
  let st := addLink ingredientId rid ConsumedBy (amount ingredient) st in
  if Z.ltb currentDepth maxDepth
  then recur (name ingredient) (currentDepth + 1)%Z visited st
  else Normal st.

(** "Add products": the body of [recipe.results.forEach] *)
Definition exploreProduct (rid : string) (currentDepth : Z)
  (visited : list string) (result : entry) (st : state) : completion state :=
  let productId := itemId (name result) in
  let st := addNode productId itemType (name result)
              (itemPropertiesOf data (name result)) st in
  let st := addLink rid productId Produces
              (Some (or_default (amount result) 1)) st in
  if Z.ltb currentDepth maxDepth
  then recur (name result) (currentDepth + 1)%Z visited st
  else Normal st.

(** The body of [for (const recipeKey in factorioData.recipes)] *)
Definition exploreRecipe (itemName : string) (currentDepth : Z)
  (visited : list string) (kr : string * recipe) (st : state)
  : completion state :=
  let '(recipeKey, r) := kr in
  let iid := itemId itemName in
  let rid := recipeId recipeKey in
  st <-
    (if produces r itemName then
       let st := addNode rid recipeType recipeKey (recipeProperties r) st in
       let outputAmount :=
         amountFor (match results r with Some rs => rs | None => [] end)
           itemName in
       let st := addLink rid iid Produces (Some outputAmount) st in
       match ingredients r with
       | Some ins =>
           forEach ins (exploreIngredient rid currentDepth visited) st
       | None => Normal st
       end
     else Normal st) ;;
  if consumes r itemName then
    let st := addNode rid recipeType recipeKey (recipeProperties r) st in
    let inputAmount :=
      amountFor (match ingredients r with Some ins => ins | None => [] end)
        itemName in
    let st := addLink iid rid ConsumedBy (Some inputAmount) st in
    match results r with
    | Some rs => forEach rs (exploreProduct rid currentDepth visited) st
    | None => Normal st
    end
  else Normal st.

End Explore.

(** [exploreItem(itemName, currentDepth, visited)] *)
Fixpoint exploreItem (data : factorioData) (maxDepth : Z) (fuel : nat)
  (itemName : string) (currentDepth : Z) (visited : list string) (st : state)
  : completion state :=
  match fuel with
  | O => Throw OutOfFuel
  | S fuel' =>
      if Z.ltb maxDepth currentDepth then Normal st
      else if Set_has visited itemName then Normal st
      else
        let visited := Set_add visited itemName in
        let st := addNode (itemId itemName) itemType itemName
                    (itemPropertiesOf data itemName) st in
        forEach (recipes data)
          (exploreRecipe data maxDepth (exploreItem data maxDepth fuel')
             itemName currentDepth visited)
          st
  end.

Definition defaultDepth : Z := 2.

End ItemSubgraph.

(** [generateItemSubgraph(itemName, maxDepth)]: at most [maxDepth] nested
    calls follow the first one. *)
Definition generateItemSubgraph (data : factorioData) (itemName : string)
  (maxDepth : Z) : completion Graph.graph :=
  st <- ItemSubgraph.exploreItem data maxDepth (S (Z.to_nat maxDepth))
          itemName 0%Z [] Graph.empty ;;
  ls <- Graph.resolveLinks (Graph.nodes st)
          (fun a => Some (or_default a 1)) (Graph.links st) ;;
  Normal {| Graph.graph_nodes := Graph.nodes st; Graph.graph_links := ls |}.

(** *** app.post('/multi-item-graph') *)

Module MultiItemGraph.
Import Graph.

(** [`${link.source}|${link.target}|${link.relationship}`] *)
Definition linkId (l : link) : string :=
  String.append (source l)
    (String.append "|"
       (String.append (target l)
          (String.append "|" (relationshipName (link_rel l))))).

(** The handler's locals [nodes], [links], [allNodes], [allLinks]. (Its
    [nodeMap] is written and never read.) *)
Record state := {
  nodes : list node;
  links : list link;
  allNodes : list string;
  allLinks : list string
}.

Definition empty : state :=
  {| nodes := []; links := []; allNodes := []; allLinks := [] |}.

Definition mergeNode (st : state) (n : node) : state :=
  if Set_has (allNodes st) (node_id n) then st
  else {| nodes := nodes st ++ [n]; links := links st;
          allNodes := Set_add (allNodes st) (node_id n);
          allLinks := allLinks st |}.

Definition mergeLink (st : state) (l : link) : state :=
  if Set_has (allLinks st) (linkId l) then st
  else {| nodes := nodes st;
          links := links st ++
                   [{| source := source l; target := target l;
                       link_rel := link_rel l;
                       link_amount := link_amount l |}];
          allNodes := allNodes st;
          allLinks := Set_add (allLinks st) (linkId l) |}.

(** The body of [items.forEach(itemName => ...)] *)
Definition mergeItem (data : factorioData) (depth : Z) (itemName : string)
  (st : state) : completion state :=
  subgraph <- generateItemSubgraph data itemName depth ;;
  let st := fold_left mergeNode (graph_nodes subgraph) st in
  Normal (fold_left mergeLink (graph_links subgraph) st).

End MultiItemGraph.

(** The [try] block of the handler, for a non-empty array of item names. *)
Definition multiItemGraph (data : factorioData) (items : list string)
  (depth : Z) : completion Graph.graph :=
  st <- forEach items (MultiItemGraph.mergeItem data depth)
          MultiItemGraph.empty ;;
  Normal {| Graph.graph_nodes := MultiItemGraph.nodes st;
            Graph.graph_links := MultiItemGraph.links st |}.

(* ================================================================== *)
(** ** Both servers: app.get('/items') *)
(* ================================================================== *)

(** [items[name] = true] on the handler's [{}]: the assignment makes an
    own property for every name but [__proto__], where it runs the
    inherited setter, which ignores a value that is no object. *)
Definition markItem (items : object bool) (itemName : string) : object bool :=
  if String.eqb itemName "__proto__" then items else set items itemName true.

(** [items[result.name] = true] for every result of every recipe that has
    a non-empty [results] array. *)
Definition markResults (items : object bool) (kr : string * recipe)
  : object bool :=
  match results (snd kr) with
  | Some (result :: rest) =>
      fold_left (fun items result => markItem items (name result))
        (result :: rest) items
  | _ => items
  end.

Definition collectItems (data : factorioData) : object bool :=
  fold_left markResults (recipes data) [].

(** [Array.prototype.sort()] without a comparator, on strings: [a] is
    placed after [b] exactly when [b < a], code unit by code unit. The
    comparison here goes byte by byte, which is the same on names of
    ASCII characters ([asciiName]); only the order of the answer depends
    on it. *)
Definition Array_sort_strings (l : list string) : list string :=
  fold_right (insert_sorted (fun a b => String.ltb b a)) [] l.

(** [res.json(Object.keys(items).sort())] *)
Definition get_items (data : factorioData) : list string :=
  Array_sort_strings (keys (collectItems data)).

(* ================================================================== *)
(** ** Measures and predicates used by the proofs *)
(* ================================================================== *)

(** Every recipe of the dataset lists its ingredients (possibly none):
    the field the tree, table and flow builders read without a guard. *)
Definition hasIngredients (r : recipe) : bool :=
  match ingredients r with Some _ => true | None => false end.

Definition wellFormed (data : factorioData) : bool :=
  forallb (fun kr => hasIngredients (snd kr)) (recipes data).

(** Recipe keys of the dataset that a visited set does not hold yet. *)
Definition unseen (data : factorioData) (seen : list string) : nat :=
  List.length (filter (fun k => negb (Set_has seen k)) (keys (recipes data))).

(** A recipe as [findRecipeForItem] hands it out: one of the dataset. *)
Definition fromDataset (data : factorioData) (r : keyedRecipe) : Prop :=
  In (key r, def r) (recipes data) /\
  exists e rest, results (def r) = Some (e :: rest).

(** The demand contributions of [calculateFullRequirements], one
    [(item, amount)] pair per ingredient visit, in the order of the
    visits. *)
Fixpoint contributions (data : factorioData) (fuel : nat)
  (recipe : keyedRecipe) (targetRate : number) (seen : list string)
  : list (string * number) :=
  match fuel with
  | O => []
  | S fuel' =>
      match ingredients (def recipe), primaryOutput (def recipe) with
      | Some ins, Normal out =>
          if Set_has seen (key recipe) then []
          else
            flat_map
              (fun ingredient =>
                 let amountNeeded :=
                   ingredientRateOf ingredient targetRate
                     (or_default (amount out) 1) in
                 (name ingredient, amountNeeded) ::
                 match findRecipeForItem data (name ingredient) with
                 | Some ingredientRecipe =>
                     contributions data fuel' ingredientRecipe amountNeeded
                       (Set_add seen (key recipe))
                 | None => []
                 end)
              ins
      | _, _ => []
      end
  end.

(** Number of nested levels of a tree. *)
Fixpoint height (t : treeNode) : nat :=
  match t with
  | Crafted _ _ _ _ _ children =>
      S (fold_right (fun c h => Nat.max (height c) h) O children)
  | Raw _ _ => 1
  end.

Definition rootRate (t : treeNode) : number :=
  match t with
  | Crafted _ _ rate _ _ _ => rate
  | Raw _ rate => rate
  end.

(** A recipe is expanded again below itself: some node that has children
    carries a recipe key that one of its ancestors carries too. Cycle
    truncation along the descent path would make this [false]. *)
Fixpoint expandedAgain (ancestors : list string) (t : treeNode) : bool :=
  match t with
  | Crafted _ recipeKey _ _ _ children =>
      (Set_has ancestors recipeKey &&
       match children with [] => false | _ :: _ => true end)
      || existsb (expandedAgain (recipeKey :: ancestors)) children
  | Raw _ _ => false
  end.

(** Invariants of the table under construction: every row of
    [table.recipes] sits under its own name, and keys are not repeated. *)
Definition rowsNamed (t : Table.state) : Prop :=
  NoDup (keys (Table.recipes t)) /\
  forall k row, In (k, row) (Table.recipes t) -> Table.r_name row = k.

(** Only items without a producing recipe are keys of [rawMaterials]. *)
Definition rawOnly (data : factorioData) (t : Table.state) : Prop :=
  forall k, has (Table.rawMaterials t) k = true ->
            findRecipeForItem data k = None.

(** What a call of [processRecipe] whose visited set is [seen] may do to
    the table: rows of visited recipes are left alone, nothing is removed. *)
Record extends (data : factorioData) (seen : list string)
  (t0 t1 : Table.state) : Prop := {
  ext_named : rowsNamed t0 -> rowsNamed t1;
  ext_seen : forall k, Set_has seen k = true ->
               get (Table.recipes t1) k = get (Table.recipes t0) k;
  ext_rows : forall k, has (Table.recipes t0) k = true ->
               has (Table.recipes t1) k = true;
  ext_raw : forall k, has (Table.rawMaterials t0) k = true ->
              has (Table.rawMaterials t1) k = true;
  ext_rawOnly : rawOnly data t0 -> rawOnly data t1
}.

(** Position of the first occurrence of a name in a list of names. *)
Fixpoint indexOf (n : string) (l : list string) : option nat :=
  match l with
  | [] => None
  | x :: l' =>
      if String.eqb x n then Some O else option_map S (indexOf n l')
  end.

(** The node map of the flow builder mirrors its node list. *)
Definition coherent (st : Sankey.state) : Prop :=
  forall n, get (Sankey.nodeMap st) n
            = indexOf n (map Sankey.node_name (Sankey.nodes st)).

(** The type of the node called [n], if there is one. *)
Definition typeOf (ns : list Sankey.node) (n : string)
  : option Sankey.nodeType :=
  option_map Sankey.node_type
    (find (fun nd => String.eqb (Sankey.node_name nd) n) ns).

Definition isRaw (ns : list Sankey.node) (n : string) : Prop :=
  typeOf ns n = Some Sankey.rawType.

(** The ingredient visits of [buildSankeyData], each with the depth of the
    recipe that lists the ingredient, in the order of the visits. *)
Fixpoint visits (data : factorioData) (depth fuel : nat) (recipe : keyedRecipe)
  (currentDepth : nat) (visited : list string) : list (string * nat) :=
  match fuel with
  | O => []
  | S fuel' =>
      if Nat.ltb depth currentDepth then []
      else
        match primaryOutput (def recipe), ingredients (def recipe) with
        | Normal _, Some ins =>
            if Set_has visited (key recipe) then []
            else
              flat_map
                (fun ingredient =>
                   (name ingredient, currentDepth) ::
                   if Nat.ltb currentDepth depth then
                     match findRecipeForItem data (name ingredient) with
                     | Some ingredientRecipe =>
                         visits data depth fuel' ingredientRecipe
                           (S currentDepth) (Set_add visited (key recipe))
                     | None => []
                     end
                   else [])
                ins
        | _, _ => []
        end
  end.

(** [n] has no recipe and is met as an ingredient strictly below the
    depth limit. *)
Definition rawVisit (data : factorioData) (depth : nat)
  (vs : list (string * nat)) (n : string) : Prop :=
  findRecipeForItem data n = None /\
  exists d, In (n, d) vs /\ (d < depth)%nat.

(** What a completed call of [buildSankeyData] with budget [fuel] does. *)
Definition flowSpec (data : factorioData) (depth fuel : nat) : Prop :=
  forall r rate currentDepth visited st,
    fromDataset data r -> coherent st ->
    (depth - currentDepth < fuel)%nat ->
    exists st',
      Sankey.buildSankeyData data depth fuel r rate currentDepth visited st
        = Normal st' /\
      coherent st' /\
      (exists more, Sankey.links st' = Sankey.links st ++ more) /\
      forall n, isRaw (Sankey.nodes st') n <->
                isRaw (Sankey.nodes st) n \/
                rawVisit data depth
                  (visits data depth fuel r currentDepth visited) n.

(** Results and ingredients of a recipe, an absent field counting as none. *)
Definition resultEntries (r : recipe) : list entry :=
  match results r with Some rs => rs | None => [] end.

Definition ingredientEntries (r : recipe) : list entry :=
  match ingredients r with Some ins => ins | None => [] end.

(** Every item name that appears as a result or as an ingredient, with
    repetitions, in the order the complete graph meets them. *)
Definition referencedItems (data : factorioData) : list string :=
  flat_map
    (fun kr => map name (resultEntries (snd kr)) ++
               map name (ingredientEntries (snd kr)))
    (recipes data).

(** Total number of result entries and ingredient entries. *)
Definition entryCount (data : factorioData) : nat :=
  list_sum
    (map (fun kr => (List.length (resultEntries (snd kr)) +
                     List.length (ingredientEntries (snd kr)))%nat)
         (recipes data)).

(** Invariant of the three locals of a graph generator: the node map
    gives each id the position of its node, ids are not repeated, and
    every link points at existing nodes. *)
Record graphInvariant (st : Graph.state) : Prop := {
  inv_map : forall i, get (Graph.nodeMap st) i
                      = indexOf i (map Graph.node_id (Graph.nodes st));
  inv_ids : NoDup (map Graph.node_id (Graph.nodes st));
  inv_links : forall l, In l (Graph.links st) ->
                (Graph.sourceIndex l < List.length (Graph.nodes st))%nat /\
                (Graph.targetIndex l < List.length (Graph.nodes st))%nat
}.

(** No recipe produces or consumes the item. *)
Definition isolated (data : factorioData) (itemName : string) : bool :=
  forallb
    (fun kr => negb (produces (snd kr) itemName) &&
               negb (consumes (snd kr) itemName))
    (recipes data).

(** The node [exploreItem] adds for an item. *)
Definition itemNode (data : factorioData) (itemName : string) : Graph.node :=
  {| Graph.node_id := Graph.itemId itemName;
     Graph.node_type := Graph.itemType;
     Graph.node_name :=
       if String.eqb itemName "" then Graph.itemId itemName else itemName;
     Graph.node_props := Graph.itemPropertiesOf data itemName |}.

(** A link as the multi-item merge is meant to tell links apart. *)
Definition triple (l : Graph.link) : string * string * Graph.relationship :=
  (Graph.source l, Graph.target l, Graph.link_rel l).

(** [st'] is [st] with the ids [new] made known and [n] more links. *)
Definition grows (st st' : Graph.state) (new : list string) (n : nat) : Prop :=
  graphInvariant st' /\
  (forall x, In x (map Graph.node_id (Graph.nodes st')) <->
             In x (map Graph.node_id (Graph.nodes st)) \/ In x new) /\
  List.length (Graph.links st') = (List.length (Graph.links st) + n)%nat.

(** Invariant of the merge: [allNodes] holds the ids of [nodes], and
    [allLinks] the keys, source|target|relationship, of [links]. *)
Definition merged (st : MultiItemGraph.state) : Prop :=
  (forall x, Set_has (MultiItemGraph.allNodes st) x = true <->
             In x (map Graph.node_id (MultiItemGraph.nodes st))) /\
  (forall x, Set_has (MultiItemGraph.allLinks st) x = true <->
             In x (map MultiItemGraph.linkId (MultiItemGraph.links st))).

(** Every node id of [g] is among the merged nodes, and the key of every
    link of [g] among the keys of the merged links. *)
Definition covers (st : MultiItemGraph.state) (g : Graph.graph) : Prop :=
  (forall n, In n (Graph.graph_nodes g) ->
             In (Graph.node_id n) (map Graph.node_id (MultiItemGraph.nodes st))) /\
  (forall l, In l (Graph.graph_links g) ->
             In (MultiItemGraph.linkId l)
                (map MultiItemGraph.linkId (MultiItemGraph.links st))).

(** Merging never removes a node id or a link key. *)
Definition keeps (st st' : MultiItemGraph.state) : Prop :=
  (forall x, In x (map Graph.node_id (MultiItemGraph.nodes st)) ->
             In x (map Graph.node_id (MultiItemGraph.nodes st'))) /\
  (forall x, In x (map MultiItemGraph.linkId (MultiItemGraph.links st)) ->
             In x (map MultiItemGraph.linkId (MultiItemGraph.links st'))).

(** Every row of [table.recipes] sits under the key of a recipe of the
    dataset and names the primary output of that recipe. *)
Definition rowsFromDataset (data : factorioData) (t : Table.state) : Prop :=
  forall k row,
    In (k, row) (Table.recipes t) ->
    exists r out,
      In (k, r) (recipes data) /\ primaryOutput r = Normal out /\
      Table.r_produces row = name out.

(** The flow graph under construction is well formed: the node map
    mirrors the node list, node names are not repeated, every node
    carries its position as id, every link joins two existing nodes and
    carries a value of at least 0.01, or NaN. *)
Record flowInvariant (st : Sankey.state) : Prop := {
  flow_map : coherent st;
  flow_names : NoDup (map Sankey.node_name (Sankey.nodes st));
  flow_ids : map Sankey.node_id (Sankey.nodes st)
             = seq 0 (List.length (Sankey.nodes st));
  flow_links : forall l, In l (Sankey.links st) ->
                 (Sankey.source l < List.length (Sankey.nodes st))%nat /\
                 (Sankey.target l < List.length (Sankey.nodes st))%nat;
  flow_values : forall l, In l (Sankey.links st) ->
                  PrimFloat.leb 0.01 (Sankey.value l) = true \/
                  is_nan (Sankey.value l) = true
}.

(** The item a node of the tree names. *)
Definition itemOf (t : treeNode) : string :=
  match t with
  | Crafted item _ _ _ _ _ => item
  | Raw item _ => item
  end.

(** A node below the root is labelled from the dataset: a raw node names
    an item without a producing recipe, any other node carries the key of
    the first recipe that produces its item, and the same holds of all
    nodes below it. *)
Fixpoint labelled (data : factorioData) (t : treeNode) : bool :=
  match t with
  | Raw item _ =>
      match findRecipeForItem data item with
      | None => true
      | Some _ => false
      end
  | Crafted item recipeKey _ _ _ children =>
      match findRecipeForItem data item with
      | Some r => String.eqb (key r) recipeKey
      | None => false
      end && forallb (labelled data) children
  end.

(** The links a recipe stands for in the complete graph: one from the
    recipe to each result, with [amount || 1], then one from each
    ingredient to the recipe, with the amount as the dataset has it. *)
Definition producesLink (recipeKey : string) (result : entry) : Graph.link :=
  {| Graph.source := Graph.recipeId recipeKey;
     Graph.target := Graph.itemId (name result);
     Graph.link_rel := Graph.Produces;
     Graph.link_amount := Some (or_default (amount result) 1) |}.

Definition consumedByLink (recipeKey : string) (ingredient : entry)
  : Graph.link :=
  {| Graph.source := Graph.itemId (name ingredient);
     Graph.target := Graph.recipeId recipeKey;
     Graph.link_rel := Graph.ConsumedBy;
     Graph.link_amount := amount ingredient |}.

Definition recipeLinks (kr : string * recipe) : list Graph.link :=
  map (producesLink (fst kr)) (resultEntries (snd kr)) ++
  map (consumedByLink (fst kr)) (ingredientEntries (snd kr)).

(** The index links of a state resolve to the id links [out]. *)
Definition resolves (amountOf : option number -> option number)
  (st : Graph.state) (out : list Graph.link) : Prop :=
  Graph.resolveLinks (Graph.nodes st) amountOf (Graph.links st) = Normal out.

(** A link while the graph is built, as [addLink] compares links. *)
Definition indexTriple (l : Graph.indexedLink)
  : nat * nat * Graph.relationship :=
  (Graph.sourceIndex l, Graph.targetIndex l, Graph.rel l).

(** The link joins a recipe of the dataset and an item it produces, or
    an item and a recipe of the dataset that consumes it; [ids] are the
    node ids by position. *)
Definition joins (data : factorioData) (ids : list string)
  (l : Graph.indexedLink) : Prop :=
  exists k r i,
    In (k, r) (recipes data) /\
    match Graph.rel l with
    | Graph.Produces =>
        nth_error ids (Graph.sourceIndex l) = Some (Graph.recipeId k) /\
        nth_error ids (Graph.targetIndex l) = Some (Graph.itemId i) /\
        produces r i = true
    | Graph.ConsumedBy =>
        nth_error ids (Graph.sourceIndex l) = Some (Graph.itemId i) /\
        nth_error ids (Graph.targetIndex l) = Some (Graph.recipeId k) /\
        consumes r i = true
    end.

(** A node for an item, or for a recipe of the dataset. *)
Definition nodeOfDataset (data : factorioData) (n : Graph.node) : Prop :=
  (exists i, Graph.node_id n = Graph.itemId i /\
             Graph.node_type n = Graph.itemType) \/
  (exists k r, In (k, r) (recipes data) /\
               Graph.node_id n = Graph.recipeId k /\
               Graph.node_type n = Graph.recipeType).

(** Invariant of the item subgraph under construction. *)
Record subgraphInvariant (data : factorioData) (st : Graph.state) : Prop := {
  sub_graph : graphInvariant st;
  sub_distinct : NoDup (map indexTriple (Graph.links st));
  sub_joins : forall l, In l (Graph.links st) ->
                joins data (map Graph.node_id (Graph.nodes st)) l;
  sub_nodes : forall n, In n (Graph.nodes st) -> nodeOfDataset data n
}.

(** How an index link and the id link it resolves to are related. *)
Definition resolved (ids : list string)
  (amountOf : option number -> option number)
  (l : Graph.indexedLink) (o : Graph.link) : Prop :=
  nth_error ids (Graph.sourceIndex l) = Some (Graph.source o) /\
  nth_error ids (Graph.targetIndex l) = Some (Graph.target o) /\
  Graph.link_rel o = Graph.rel l /\
  Graph.link_amount o = amountOf (Graph.amt l).

(** The merge so far is sound: node ids and link keys are not repeated,
    and every node and every link has the given origin. *)
Definition soundMerge (Qn : Graph.node -> Prop) (Ql : Graph.link -> Prop)
  (st : MultiItemGraph.state) : Prop :=
  merged st /\
  NoDup (map Graph.node_id (MultiItemGraph.nodes st)) /\
  NoDup (map MultiItemGraph.linkId (MultiItemGraph.links st)) /\
  (forall n, In n (MultiItemGraph.nodes st) -> Qn n) /\
  (forall l, In l (MultiItemGraph.links st) -> Ql l).

(** Every item with a recipe is the first result of the recipe that
    [findRecipeForItem] finds for it. *)
Definition foundByFirstResult (data : factorioData) : bool :=
  forallb
    (fun kr =>
       forallb
         (fun e =>
            match findRecipeForItem data (name e) with
            | Some r =>
                match primaryOutput (def r) with
                | Normal out => String.eqb (name out) (name e)
                | Throw _ => false
                end
            | None => false
            end)
         (resultEntries (snd kr)))
    (recipes data).

(** Invariant of [table.items]: names are not repeated, every row sits
    under its own name, the row of [root] exists, and it alone names a
    producer, [rootKey]. *)
Definition producerOnlyAtRoot (root rootKey : string) (t : Table.state)
  : Prop :=
  NoDup (keys (Table.items t)) /\
  has (Table.items t) root = true /\
  forall i row,
    get (Table.items t) i = Some row ->
    Table.i_name row = i /\
    Table.i_producedBy row
    = if String.eqb i root then Some rootKey else None.

(** The recipe keys and the raw items that a tree shows. *)
Fixpoint recipeKeys (t : treeNode) : list string :=
  match t with
  | Crafted _ recipeKey _ _ _ children =>
      recipeKey :: flat_map recipeKeys children
  | Raw _ _ => []
  end.

Fixpoint rawItems (t : treeNode) : list string :=
  match t with
  | Crafted _ _ _ _ _ children => flat_map rawItems children
  | Raw item _ => [item]
  end.

(** The table serves an ingredient: the recipe found for it has a row, or
    it is listed as a raw material. A recipe is served when all its
    ingredients are. *)
Definition servedEntry (data : factorioData) (t : Table.state) (e : entry)
  : Prop :=
  match findRecipeForItem data (name e) with
  | Some ir => has (Table.recipes t) (key ir) = true
  | None => has (Table.rawMaterials t) (name e) = true
  end.

Definition served (data : factorioData) (t : Table.state) (rc : recipe)
  : Prop :=
  forall e, In e (ingredientEntries rc) -> servedEntry data t e.

(** Every dataset recipe whose row is in [t'] and not in [t] is served
    by [t']. *)
Definition newRowsServed (data : factorioData) (t t' : Table.state) : Prop :=
  forall k rc,
    In (k, rc) (recipes data) ->
    has (Table.recipes t') k = true -> has (Table.recipes t) k = false ->
    served data t' rc.

(** The two objects [table.recipes] and [table.items] refer to each
    other consistently: item names are not repeated and every item row
    sits under its own name; a producer named by an item row has a recipe
    row and is a recipe of the dataset whose first result is the item; an
    item row without producer has a consumer; every consumer named by an
    item row has a recipe row that lists the item as an ingredient; the
    product of every recipe row has an item row; and every ingredient of
    a recipe row has an item row that names the recipe as a consumer. *)
Record crossReferenced (data : factorioData) (t : Table.state) : Prop := {
  cr_items : NoDup (keys (Table.items t));
  cr_name : forall i row,
    get (Table.items t) i = Some row -> Table.i_name row = i;
  cr_produced : forall i row k,
    get (Table.items t) i = Some row -> Table.i_producedBy row = Some k ->
    has (Table.recipes t) k = true /\
    exists rc out,
      In (k, rc) (recipes data) /\ primaryOutput rc = Normal out /\
      name out = i;
  cr_created : forall i row,
    get (Table.items t) i = Some row -> Table.i_producedBy row = None ->
    Table.i_consumedBy row <> [];
  cr_consumed : forall i row k,
    get (Table.items t) i = Some row ->
    has (Table.i_consumedBy row) k = true ->
    exists rr, get (Table.recipes t) k = Some rr /\
               In i (map fst (Table.r_ingredients rr));
  cr_product : forall k rr,
    get (Table.recipes t) k = Some rr ->
    has (Table.items t) (Table.r_produces rr) = true;
  cr_ingredient : forall k rr i,
    get (Table.recipes t) k = Some rr ->
    In i (map fst (Table.r_ingredients rr)) ->
    exists row, get (Table.items t) i = Some row /\
                has (Table.i_consumedBy row) k = true
}.

(** What the item subgraph under construction holds: a node id, a link
    between two node ids, a first node. *)
Definition hasNode (i : string) (st : Graph.state) : Prop :=
  In i (map Graph.node_id (Graph.nodes st)).

Definition hasLink (s t : string) (r : Graph.relationship) (st : Graph.state)
  : Prop :=
  exists l,
    In l (Graph.links st) /\ Graph.rel l = r /\
    nth_error (map Graph.node_id (Graph.nodes st)) (Graph.sourceIndex l)
    = Some s /\
    nth_error (map Graph.node_id (Graph.nodes st)) (Graph.targetIndex l)
    = Some t.

Definition firstNode (n : Graph.node) (st : Graph.state) : Prop :=
  exists rest, Graph.nodes st = n :: rest.

(** A property of the state that neither [addNode] nor the subgraph's
    [addLink] can undo. *)
Definition stable (Q : Graph.state -> Prop) : Prop :=
  (forall i t n p st, Q st -> Q (Graph.addNode i t n p st)) /\
  (forall s t r a st, Q st -> Q (ItemSubgraph.addLink s t r a st)).

(** The names a plain object does not treat as ordinary own keys: the
    properties every object inherits from Object.prototype (read as
    present before they are written; [__proto__] is never stored), and
    integer-like names (enumerated before the other keys; all strings of
    digits are left out here, which is more than the canonical array
    indices). *)
Definition inheritedNames : list string :=
  ["constructor"; "__proto__"; "hasOwnProperty"; "isPrototypeOf";
   "propertyIsEnumerable"; "toLocaleString"; "toString"; "valueOf";
   "__defineGetter__"; "__defineSetter__"; "__lookupGetter__";
   "__lookupSetter__"].

Definition isDigit (c : ascii) : bool :=
  Nat.leb 48 (nat_of_ascii c) && Nat.leb (nat_of_ascii c) 57.

Fixpoint allDigits (s : string) : bool :=
  match s with
  | EmptyString => true
  | String c s' => isDigit c && allDigits s'
  end.

Definition integerLike (s : string) : bool :=
  negb (String.eqb s "") && allDigits s.

(** A name that a plain object keeps as an ordinary own key. *)
Definition plainName (s : string) : bool :=
  negb (Set_has inheritedNames s) && negb (integerLike s).

(** Every recipe key and every item name of the dataset is plain: on such
    a dataset the objects of the calculator are what [object] says. *)
Definition plainNames (data : factorioData) : bool :=
  forallb
    (fun kr =>
       plainName (fst kr) &&
       forallb (fun e => plainName (name e)) (resultEntries (snd kr)) &&
       forallb (fun e => plainName (name e)) (ingredientEntries (snd kr)))
    (recipes data).

(** A name of ASCII characters: its UTF-16 code units are its bytes. *)
Fixpoint asciiName (s : string) : bool :=
  match s with
  | EmptyString => true
  | String c s' => Nat.ltb (nat_of_ascii c) 128 && asciiName s'
  end.

(** The amounts that a list of contributions holds for one item, in
    order, and their running total as the code forms it:
    [(total || 0) + amount] from [undefined], with no rounding. *)
Definition amountsFor (i : string) (cs : list (string * number))
  : list number :=
  map snd (filter (fun c => String.eqb (fst c) i) cs).

Definition demandTotal (amounts : list number) : option number :=
  fold_left (fun total amount => Some (or_default total 0 + amount))
    amounts None.

(** [r'] is the recipe found for one of the ingredients of [r]; a chain
    of such steps; and a tree that shows a chain of recipe keys from its
    root downwards. *)
Definition descends (data : factorioData) (r r' : keyedRecipe) : Prop :=
  exists ins e,
    ingredients (def r) = Some ins /\ In e ins /\
    findRecipeForItem data (name e) = Some r'.

Fixpoint chain (data : factorioData) (r : keyedRecipe)
  (rs : list keyedRecipe) : Prop :=
  match rs with
  | [] => True
  | r' :: rs' => descends data r r' /\ chain data r' rs'
  end.

Fixpoint showsPath (k : string) (ks : list string) (t : treeNode) : Prop :=
  match t with
  | Crafted _ recipeKey _ _ _ children =>
      recipeKey = k /\
      match ks with
      | [] => True
      | k' :: ks' => exists c, In c children /\ showsPath k' ks' c
      end
  | Raw _ _ => False
  end.

(** A node name of the form the flow builder gives to recipes, and a
    dataset in which no item is named that way. *)
Definition isLabel (n : string) : bool := String.prefix "Recipe: " n.

Definition noLabelNames (data : factorioData) : bool :=
  forallb
    (fun kr =>
       forallb (fun e => negb (isLabel (name e))) (resultEntries (snd kr)) &&
       forallb (fun e => negb (isLabel (name e))) (ingredientEntries (snd kr)))
    (recipes data).

(** The table has the row of the root recipe, with the given output
    rate; the flow graph starts with the link out of node 0, the root
    recipe, with the given rate floored at 0.01. *)
Definition rootRow (tb : Table.table) (rootKey : string) (rate : number)
  : Prop :=
  (exists row, In row (Table.table_recipes tb) /\
               Table.r_name row = rootKey /\ Table.r_outputRate row = rate) /\
  (forall row, In row (Table.table_recipes tb) ->
               Table.r_name row = rootKey -> Table.r_outputRate row = rate).

Definition rootLink (g : Sankey.graph) (rate : number) : Prop :=
  exists tgt rest,
    Sankey.graph_links g =
      {| Sankey.source := 0; Sankey.target := tgt;
         Sankey.value := Math_max 0.01 rate |} :: rest.

(** The names of the nodes of a flow graph under construction, and the
    state in which names and types agree: a node is typed ['recipe']
    exactly when its name is a recipe label. *)
Definition nodeNames (st : Sankey.state) : list string :=
  map Sankey.node_name (Sankey.nodes st).

Definition labelsTyped (st : Sankey.state) : Prop :=
  coherent st /\
  forall n ty, typeOf (Sankey.nodes st) n = Some ty ->
               (ty = Sankey.recipeType <-> isLabel n = true).

(** The aggregation step as the specification words it, in its two
    readings: the amount is rounded to two decimals as it is added to the
    running total, or the new running total is. Only compared with
    [addRequirement], never used by the model. *)
Definition addRequirementRounded (requirements : object number)
  (ingredientName : string) (amountNeeded : number) : object number :=
  addRequirement requirements ingredientName (round2 amountNeeded).

Definition addRequirementRoundedTotal (requirements : object number)
  (ingredientName : string) (amountNeeded : number) : object number :=
  set requirements ingredientName
    (round2 (or_default (get requirements ingredientName) 0 + amountNeeded)).

(** "Rounded at each aggregation step": the running total that
    [calculateFullRequirements] leaves is the one obtained by adding the
    contributions with one of the rounding steps. *)
Definition roundsAtEachStep (data : factorioData) (recipe : keyedRecipe)
  (rate : number) : Prop :=
  forall totals,
    calculateFullRequirements data (enoughFuel data) recipe rate [] []
      = Normal totals ->
    totals =
      fold_left (fun acc c => addRequirementRounded acc (fst c) (snd c))
        (contributions data (enoughFuel data) recipe rate []) [] \/
    totals =
      fold_left (fun acc c => addRequirementRoundedTotal acc (fst c) (snd c))
        (contributions data (enoughFuel data) recipe rate []) [].

(** The order [Array.prototype.sort] is asked for by [byDescendingRate]:
    [a] may stay before [b] unless [b.rate - a.rate > 0]. *)
Definition mayPrecede (a b : string * number) : Prop :=
  PrimFloat.ltb 0 (byDescendingRate a b) = false.

(* ================================================================== *)
(** ** Example datasets *)
(* ================================================================== *)

Module Examples.

Definition item (n : string) (a : number) : entry :=
  {| name := n; amount := Some a |}.

Definition make (ins outs : list entry) : recipe :=
  {| category := None; energy_required := None;
     ingredients := Some ins; results := Some outs |}.

(** One recipe: out is made of one a and two b, in one second. *)
Definition recipeOut : recipe :=
  {| category := None; energy_required := Some 1;
     ingredients := Some [item "a" 1; item "b" 2];
     results := Some [item "out" 1] |}.
Definition single : factorioData :=
  {| recipes := [("r", recipeOut)]; items := [] |}.
Definition keyedOut : keyedRecipe := {| key := "r"; def := recipeOut |}.

(** T is made of B and C; each of them takes 0.004 of the raw item a. *)
Definition recipeT : recipe := make [item "B" 1; item "C" 1] [item "T" 1].
Definition sharedRaw : factorioData :=
  {| recipes := [("t", recipeT);
                 ("b", make [item "a" 0.004] [item "B" 1]);
                 ("c", make [item "a" 0.004] [item "C" 1])];
     items := [] |}.

(** X is made of Y and Y is made of X. *)
Definition recipeX : recipe := make [item "Y" 2] [item "X" 1].
Definition recipeY : recipe := make [item "X" 3] [item "Y" 1].
Definition cyclic : factorioData :=
  {| recipes := [("rx", recipeX); ("ry", recipeY)]; items := [] |}.

(** A chain T <- A <- B <- C <- R that reaches the raw item R at the depth
    limit of the flow view (3), with or without R as a direct ingredient
    of T, before or after the chain. *)
Definition chain (ofT : list entry) : factorioData :=
  {| recipes := [("t", make ofT [item "T" 1]);
                 ("a", make [item "B" 1] [item "A" 1]);
                 ("b", make [item "C" 1] [item "B" 1]);
                 ("c", make [item "R" 1] [item "C" 1])];
     items := [] |}.
Definition deepOnly : factorioData := chain [item "A" 1].
Definition deepFirst : factorioData := chain [item "A" 1; item "R" 1].
Definition shallowFirst : factorioData := chain [item "R" 1; item "A" 1].

(** Two recipes whose keys and products differ, but read the same once
    joined with a bar: "recipe:x" + "item:y|item:z" against
    "recipe:x|item:y" + "item:z". *)
Definition barred : factorioData :=
  {| recipes := [("x", make [] [item "y|item:z" 1]);
                 ("x|item:y", make [] [item "z" 1])];
     items := [] |}.

Definition keyedX : keyedRecipe := {| key := "rx"; def := recipeX |}.
Definition keyedDeepFirst : keyedRecipe :=
  {| key := "t"; def := make [item "A" 1; item "R" 1] [item "T" 1] |}.
Definition keyedT : keyedRecipe := {| key := "t"; def := recipeT |}.


End Examples.

(* ================================================================== *)
(** ** General facts: objects, sets, loops *)
(* ================================================================== *)

Lemma get_set_same {V} (o : object V) k v : get (set o k v) k = Some v.
Proof.
  induction o as [|[k' v'] o IH]; simpl.
  - now rewrite String.eqb_refl.
  - destruct (String.eqb k' k) eqn:E; simpl; rewrite E; auto.
Qed.

Lemma get_set_other {V} (o : object V) k k' v :
  k <> k' -> get (set o k v) k' = get o k'.
Proof.
  intros Hne. induction o as [|[k0 v0] o IH]; simpl.
  - destruct (String.eqb k k') eqn:E; auto.
    apply String.eqb_eq in E. contradiction.
  - destruct (String.eqb k0 k) eqn:E; simpl.
    + apply String.eqb_eq in E. subst k0.
      destruct (String.eqb k k') eqn:E'; auto.
      apply String.eqb_eq in E'. contradiction.
    + now rewrite IH.
Qed.

Lemma get_In {V} (o : object V) k v : get o k = Some v -> In (k, v) o.
Proof.
  induction o as [|[k' v'] o IH]; simpl; [discriminate|].
  destruct (String.eqb k' k) eqn:E.
  - apply String.eqb_eq in E. intros [= ->]. subst. now left.
  - intros H. right. auto.
Qed.

Lemma get_None_keys {V} (o : object V) k :
  get o k = None <-> ~ In k (keys o).
Proof.
  induction o as [|[k' v'] o IH]; simpl.
  - tauto.
  - destruct (String.eqb k' k) eqn:E.
    + apply String.eqb_eq in E. split; [discriminate|]. intros H. destruct H. now left.
    + apply String.eqb_neq in E. rewrite IH. tauto.
Qed.

Lemma keys_set_new {V} (o : object V) k v :
  get o k = None -> keys (set o k v) = keys o ++ [k].
Proof.
  induction o as [|[k' v'] o IH]; simpl; auto.
  destruct (String.eqb k' k) eqn:E; [discriminate|].
  intros H. simpl. f_equal. auto.
Qed.

Lemma keys_set_old {V} (o : object V) k v v0 :
  get o k = Some v0 -> keys (set o k v) = keys o.
Proof.
  induction o as [|[k' v'] o IH]; simpl; [discriminate|].
  destruct (String.eqb k' k) eqn:E; simpl; auto.
  intros H. f_equal. auto.
Qed.

Lemma Set_has_In s k : Set_has s k = true <-> In k s.
Proof.
  unfold Set_has. rewrite existsb_exists. split.
  - intros (x & Hx & E). apply String.eqb_eq in E. now subst.
  - intros H. exists k. split; auto. apply String.eqb_refl.
Qed.

Lemma Set_has_add s k k' :
  Set_has (Set_add s k) k' = Set_has s k' || String.eqb k k'.
Proof.
  unfold Set_add. destruct (Set_has s k) eqn:E.
  - destruct (String.eqb k k') eqn:E'; [|now rewrite orb_false_r].
    apply String.eqb_eq in E'. subst. now rewrite E.
  - unfold Set_has. rewrite existsb_app. simpl. rewrite orb_false_r.
    now rewrite (String.eqb_sym k' k).
Qed.

Lemma forEach_app {A S} (xs ys : list A) (body : A -> S -> completion S) s :
  forEach (xs ++ ys) body s = bind (forEach xs body s) (forEach ys body).
Proof.
  revert s. induction xs as [|x xs IH]; intros s; simpl; auto.
  destruct (body x s); simpl; auto.
Qed.

Lemma bind_total {A B} (P : A -> Prop) (Q : B -> Prop)
  (c : completion A) (k : A -> completion B) :
  (exists a, c = Normal a /\ P a) ->
  (forall a, P a -> exists b, k a = Normal b /\ Q b) ->
  exists b, bind c k = Normal b /\ Q b.
Proof.
  intros (a & -> & Ha) Hk. simpl. auto.
Qed.

(** A loop whose every round completes and keeps [P] completes and keeps [P]. *)
Lemma forEach_total {A S} (P : S -> Prop) (xs : list A)
  (body : A -> S -> completion S) :
  (forall x s, In x xs -> P s -> exists s', body x s = Normal s' /\ P s') ->
  forall s, P s -> exists s', forEach xs body s = Normal s' /\ P s'.
Proof.
  induction xs as [|x xs IH]; intros Hb s Hs; simpl.
  - eauto.
  - destruct (Hb x s (or_introl eq_refl) Hs) as (s1 & E & H1).
    rewrite E. simpl. apply IH; auto.
    intros y s0 Hy. apply Hb. now right.
Qed.

(** A property kept by every completed round is kept by the loop. *)
Lemma forEach_preserves {A S} (P : S -> Prop) (xs : list A)
  (body : A -> S -> completion S) :
  (forall x s s', In x xs -> P s -> body x s = Normal s' -> P s') ->
  forall s s', P s -> forEach xs body s = Normal s' -> P s'.
Proof.
  induction xs as [|x xs IH]; intros Hb s s' Hs; simpl.
  - intros [= <-]. exact Hs.
  - destruct (body x s) as [s1|] eqn:E; simpl; [|discriminate].
    apply IH.
    + intros y s0 s0' Hy. apply Hb. now right.
    + apply (Hb x s s1); auto. now left.
Qed.

(** Two bodies that agree on completed rounds give the same completed loop. *)
Lemma forEach_agree {A S} (xs : list A) (b1 b2 : A -> S -> completion S) :
  (forall x s s', In x xs -> b1 x s = Normal s' -> b2 x s = Normal s') ->
  forall s s', forEach xs b1 s = Normal s' -> forEach xs b2 s = Normal s'.
Proof.
  induction xs as [|x xs IH]; intros Hb s s'; simpl; auto.
  destruct (b1 x s) as [s1|] eqn:E; simpl; [|discriminate].
  rewrite (Hb x s s1 (or_introl eq_refl) E). simpl.
  apply IH. intros y s0 s0' Hy. apply Hb. now right.
Qed.

(* ================================================================== *)
(** ** findRecipeForItem *)
(* ================================================================== *)

Lemma findRecipeIn_sound rs itemName r :
  findRecipeIn rs itemName = Some r ->
  In (key r, def r) rs /\ produces (def r) itemName = true.
Proof.
  induction rs as [|[k r0] rs IH]; simpl; [discriminate|].
  destruct (produces r0 itemName) eqn:E.
  - intros [= <-]. simpl. auto.
  - intros H. destruct (IH H). auto.
Qed.

Lemma produces_results r itemName :
  produces r itemName = true -> exists e rest, results r = Some (e :: rest).
Proof.
  unfold produces. destruct (results r) as [[|e rest]|]; simpl; try discriminate.
  eauto.
Qed.

Lemma findRecipeForItem_fromDataset data itemName r :
  findRecipeForItem data itemName = Some r -> fromDataset data r.
Proof.
  intros H. apply findRecipeIn_sound in H. destruct H as [Hin Hp].
  split; auto. eapply produces_results; eauto.
Qed.

Lemma fromDataset_primaryOutput data r :
  fromDataset data r -> exists out, primaryOutput (def r) = Normal out.
Proof.
  intros [_ (e & rest & E)]. unfold primaryOutput. rewrite E. eauto.
Qed.

Lemma fromDataset_ingredients data r :
  wellFormed data = true -> fromDataset data r ->
  exists ins, ingredients (def r) = Some ins.
Proof.
  unfold wellFormed. rewrite forallb_forall. intros Hwf [Hin _].
  specialize (Hwf _ Hin). simpl in Hwf. unfold hasIngredients in Hwf.
  destruct (ingredients (def r)); [eauto|discriminate].
Qed.

Lemma unseen_add data seen k :
  In k (keys (recipes data)) -> Set_has seen k = false ->
  (unseen data (Set_add seen k) < unseen data seen)%nat.
Proof.
  unfold unseen. intros Hin Hk.
  induction (keys (recipes data)) as [|k0 ks IH]; [destruct Hin|].
  assert (Hle : forall l,
    (List.length (filter (fun k1 => negb (Set_has (Set_add seen k) k1)) l)
     <= List.length (filter (fun k1 => negb (Set_has seen k1)) l))%nat).
  { induction l as [|x l IHl]; simpl; auto.
    rewrite Set_has_add. destruct (Set_has seen x); simpl; auto.
    destruct (String.eqb k x); simpl; lia. }
  simpl. rewrite Set_has_add.
  destruct Hin as [->|Hin].
  - rewrite Hk, String.eqb_refl. simpl. specialize (Hle ks). lia.
  - specialize (IH Hin). destruct (Set_has seen k0); simpl; auto.
    destruct (String.eqb k k0); simpl; lia.
Qed.

Lemma unseen_le_length data seen :
  (unseen data seen <= List.length (recipes data))%nat.
Proof.
  unfold unseen, keys. rewrite <- (length_map fst (recipes data)).
  apply filter_length_le.
Qed.

Lemma fromDataset_key data r : fromDataset data r -> In (key r) (keys (recipes data)).
Proof.
  intros [Hin _]. unfold keys. apply (in_map fst) in Hin. exact Hin.
Qed.

(* ================================================================== *)
(** ** calculateFullRequirements: termination and what it accumulates *)
(* ================================================================== *)

Section FullRequirements.
Variable data : factorioData.

(** With more fuel than there are unvisited recipe keys, the recursion
    completes: every level puts one more key of the dataset in [seen]. *)
Lemma calculateFullRequirements_total fuel :
  forall r rate req seen,
    fromDataset data r -> (unseen data seen < fuel)%nat ->
    exists req', calculateFullRequirements data fuel r rate req seen = Normal req'.
Proof.
  induction fuel as [|fuel IH]; intros r rate req seen Hr Hfuel; [lia|].
  simpl. destruct (ingredients (def r)) as [ins|]; [|eauto].
  destruct (fromDataset_primaryOutput _ _ Hr) as [out ->]. simpl.
  destruct (Set_has seen (key r)) eqn:Hseen; [eauto|].
  pose proof (unseen_add data seen (key r) (fromDataset_key _ _ Hr) Hseen) as Hlt.
  destruct (forEach_total (fun _ => True) ins
              (requirementStep data (calculateFullRequirements data fuel) rate
                 (or_default (amount out) 1) (Set_add seen (key r))))
    with (s := req) as (req' & E & _); auto; [|eauto].
  intros x s _ _. unfold requirementStep.
  destruct (findRecipeForItem data (name x)) as [ir|] eqn:Hfind; [|eauto].
  destruct (IH ir (ingredientRateOf x rate (or_default (amount out) 1))
              (addRequirement s (name x)
                 (ingredientRateOf x rate (or_default (amount out) 1)))
              (Set_add seen (key r))) as [req' E'].
  - eapply findRecipeForItem_fromDataset; eauto.
  - lia.
  - eauto.
Qed.

(** The result does not depend on the budget once it is reached. *)
Lemma calculateFullRequirements_fuel fuel :
  forall r rate req seen req' fuel',
    calculateFullRequirements data fuel r rate req seen = Normal req' ->
    (fuel <= fuel')%nat ->
    calculateFullRequirements data fuel' r rate req seen = Normal req'.
Proof.
  induction fuel as [|fuel IH]; intros r rate req seen req' fuel' H Hle;
    [discriminate|].
  destruct fuel' as [|fuel']; [lia|]. simpl in *.
  destruct (ingredients (def r)) as [ins|]; auto.
  destruct (primaryOutput (def r)) as [out|]; simpl in *; auto.
  destruct (Set_has seen (key r)); auto.
  revert H. apply forEach_agree. intros x s s' _. unfold requirementStep.
  destruct (findRecipeForItem data (name x)); auto.
  intros H. eapply IH; eauto. lia.
Qed.

(** The running total is the plain left-to-right sum of the
    contributions: nothing is rounded on the way. *)
Lemma calculateFullRequirements_contributions fuel :
  forall r rate req seen req',
    calculateFullRequirements data fuel r rate req seen = Normal req' ->
    req' = fold_left (fun acc c => addRequirement acc (fst c) (snd c))
             (contributions data fuel r rate seen) req.
Proof.
  induction fuel as [|fuel IH]; intros r rate req seen req'; [discriminate|].
  simpl. destruct (ingredients (def r)) as [ins|]; [|now intros [= <-]].
  destruct (primaryOutput (def r)) as [out|]; simpl; [|discriminate].
  destruct (Set_has seen (key r)); [now intros [= <-]|].
  revert req. induction ins as [|x ins IHins]; intros req; simpl.
  - now intros [= <-].
  - unfold requirementStep at 1.
    destruct (findRecipeForItem data (name x)) as [ir|] eqn:Hfind.
    + destruct (calculateFullRequirements data fuel ir _ _ _) as [req1|] eqn:E;
        simpl; [|discriminate].
      intros H. apply IHins in H. rewrite fold_left_app. simpl.
      apply IH in E. now rewrite <- E.
    + simpl. intros H. apply IHins in H. exact H.
Qed.

End FullRequirements.

(* ================================================================== *)
(** ** Array.prototype.sort *)
(* ================================================================== *)

Lemma insert_sorted_Permutation {A} (after : A -> A -> bool) x l :
  Permutation (insert_sorted after x l) (x :: l).
Proof.
  induction l as [|y l IH]; simpl; auto.
  destruct (after x y); auto.
  rewrite IH. apply perm_swap.
Qed.

Lemma Array_sort_Permutation {A} (cmp : A -> A -> number) l :
  Permutation (Array_sort cmp l) l.
Proof.
  unfold Array_sort. induction l as [|x l IH]; simpl; auto.
  rewrite insert_sorted_Permutation. now constructor.
Qed.

(* ================================================================== *)
(** ** calculateRequirements on one recipe *)
(* ================================================================== *)

(** C4. A recipe of the dataset with ingredients a:1 and b:2, primary
    output amount 1 and crafting time 1, asked for at rate 10:
    calculateRequirements completes, machinesNeeded is
    ceil(10*1/(1*1.25)*100)/100 = 8, and the ingredient demand is a = 10
    and b = 20, both in the direct ingredient list and, when a and b are
    distinct raw materials with plain names (names that are neither
    inherited from Object.prototype nor integer-like, so that the
    requirements object holds them as own properties in insertion order),
    in the full requirements (listed by descending rate). *)
Theorem calculateRequirements_example
  (data : factorioData) (itemName a b out : string) (rest : list entry)
  (r : keyedRecipe) :
  findRecipeForItem data itemName = Some r ->
  energy_required (def r) = Some 1 ->
  ingredients (def r) =
    Some [{| name := a; amount := Some 1 |}; {| name := b; amount := Some 2 |}] ->
  results (def r) = Some ({| name := out; amount := Some 1 |} :: rest) ->
  exists res,
    calculateRequirements data r 10 = Normal res /\
    rq_machinesNeeded res = ceil2 ((10 * 1) / (1 * craftingSpeed)) /\
    rq_machinesNeeded res = 8 /\
    map (fun i => (ir_name i, ir_amountPerSecond i)) (rq_ingredients res)
      = [(a, 10); (b, 20)] /\
    (plainName a = true -> plainName b = true ->
     a <> b -> findRecipeForItem data a = None ->
     findRecipeForItem data b = None ->
     rq_fullRequirements res = [(b, 20); (a, 10)]).
Proof.
  intros Hfind Htime Hins Hres.
  destruct (calculateFullRequirements_total data (enoughFuel data) r 10 [] [])
    as [full Hfull].
  { eapply findRecipeForItem_fromDataset; eauto. }
  { unfold enoughFuel. pose proof (unseen_le_length data []). lia. }
  unfold calculateRequirements, primaryOutput, ingredientList.
  rewrite Hres, Hins, Htime, Hfull. simpl.
  eexists. split; [reflexivity|]. simpl.
  split; [reflexivity|]. split; [vm_compute; reflexivity|].
  split; [vm_compute; reflexivity|].
  intros _ _ Hab Ha Hb. revert Hfull. unfold enoughFuel. simpl.
  unfold primaryOutput. rewrite Hres, Hins. simpl.
  unfold requirementStep. simpl. rewrite Ha, Hb. simpl.
  unfold addRequirement. simpl.
  apply String.eqb_neq in Hab. rewrite Hab. simpl.
  intros [= <-]. vm_compute. reflexivity.
Qed.

Lemma calculateRequirements_example_witness :
  exists res,
    calculateRequirements Examples.single Examples.keyedOut 10 = Normal res /\
    rq_machinesNeeded res = ceil2 ((10 * 1) / (1 * craftingSpeed)) /\
    rq_machinesNeeded res = 8 /\
    map (fun i => (ir_name i, ir_amountPerSecond i)) (rq_ingredients res)
      = [("a", 10); ("b", 20)] /\
    (plainName "a" = true -> plainName "b" = true ->
     "a" <> "b" ->
     findRecipeForItem Examples.single "a" = None ->
     findRecipeForItem Examples.single "b" = None ->
     rq_fullRequirements res = [("b", 20); ("a", 10)]).
Proof.
  apply (calculateRequirements_example Examples.single "out" "a" "b" "out" []
           Examples.keyedOut); reflexivity.
Defined.

(* ================================================================== *)
(** ** A two-recipe cycle *)
(* ================================================================== *)

Lemma contributions_S data fuel r rate seen :
  contributions data (S fuel) r rate seen =
  match ingredients (def r), primaryOutput (def r) with
  | Some ins, Normal out =>
      if Set_has seen (key r) then []
      else
        flat_map
          (fun ingredient =>
             (name ingredient,
              ingredientRateOf ingredient rate (or_default (amount out) 1)) ::
             match findRecipeForItem data (name ingredient) with
             | Some ingredientRecipe =>
                 contributions data fuel ingredientRecipe
                   (ingredientRateOf ingredient rate
                      (or_default (amount out) 1))
                   (Set_add seen (key r))
             | None => []
             end)
          ins
  | _, _ => []
  end.
Proof. reflexivity. Qed.

(** C5. Two recipes forming a cycle (the recipe of X consumes Y, the
    recipe of Y consumes X): calculateFullRequirements completes for every
    budget of at least three calls, always with the same result. The
    demand recorded is one entry for Y (from X's recipe) and one entry
    for X (the cycle-closing edge, from Y's recipe): the third call, on
    X's recipe again, finds its key in the visited set copied down this
    path and returns without expanding it. The totals are stated for
    plain names X and Y (neither inherited from Object.prototype nor
    integer-like), which the requirements object holds as own properties
    in insertion order. More generally the recursion
    completes on every dataset, cyclic or not, for every target that has
    a recipe: each level adds one recipe key of the dataset to its own
    copy of the visited set. *)
Theorem cycle_terminates
  (kx ky X Y : string) (ax ay ox oy tx ty : option number)
  (cx cy : option string) (its : object itemProperties)
  (rate : number) (fuel : nat) :
  kx <> ky -> X <> Y -> (3 <= fuel)%nat ->
  let rx := {| category := cx; energy_required := tx;
               ingredients := Some [{| name := Y; amount := ay |}];
               results := Some [{| name := X; amount := ox |}] |} in
  let ry := {| category := cy; energy_required := ty;
               ingredients := Some [{| name := X; amount := ax |}];
               results := Some [{| name := Y; amount := oy |}] |} in
  let data := {| recipes := [(kx, rx); (ky, ry)]; items := its |} in
  let demandY := (to_number ay * rate) / or_default ox 1 in
  let demandX := (to_number ax * demandY) / or_default oy 1 in
  findRecipeForItem data X = Some {| key := kx; def := rx |} /\
  findRecipeForItem data Y = Some {| key := ky; def := ry |} /\
  (plainName X = true -> plainName Y = true ->
   calculateFullRequirements data fuel {| key := kx; def := rx |} rate [] []
   = Normal [(Y, 0 + demandY); (X, 0 + demandX)]) /\
  contributions data fuel {| key := kx; def := rx |} rate []
    = [(Y, demandY); (X, demandX)] /\
  (forall (any : factorioData) (target : string) (r : keyedRecipe),
     findRecipeForItem any target = Some r ->
     exists totals,
       calculateFullRequirements any (enoughFuel any) r rate [] []
       = Normal totals).
Proof.
  intros Hk Hxy Hfuel rx ry data demandY demandX.
  assert (Hgeneral :
    forall (any : factorioData) (target : string) (r : keyedRecipe),
      findRecipeForItem any target = Some r ->
      exists totals,
        calculateFullRequirements any (enoughFuel any) r rate [] []
        = Normal totals).
  { intros any target r Hr. apply calculateFullRequirements_total.
    - eapply findRecipeForItem_fromDataset; eauto.
    - unfold enoughFuel. pose proof (unseen_le_length any []). lia. }
  assert (Exy : String.eqb X Y = false) by now apply String.eqb_neq.
  assert (Eyx : String.eqb Y X = false) by (apply String.eqb_neq; congruence).
  assert (Ek : String.eqb ky kx = false) by (apply String.eqb_neq; congruence).
  assert (Ek' : String.eqb kx ky = false) by now apply String.eqb_neq.
  assert (HfX : findRecipeForItem data X = Some {| key := kx; def := rx |}).
  { unfold findRecipeForItem, data. simpl. unfold produces. simpl.
    now rewrite String.eqb_refl. }
  assert (HfY : findRecipeForItem data Y = Some {| key := ky; def := ry |}).
  { unfold findRecipeForItem, data. simpl. unfold produces. simpl.
    now rewrite Exy, String.eqb_refl. }
  split; [exact HfX|]. split; [exact HfY|].
  destruct fuel as [|[|[|fuel]]]; try lia.
  assert (Hseen : Set_has (Set_add [] kx) kx = true).
  { unfold Set_add. simpl. now rewrite String.eqb_refl. }
  assert (Hseen' : Set_has (Set_add [] kx) ky = false).
  { unfold Set_add. simpl. now rewrite Ek. }
  assert (Hseen2 : Set_has (Set_add (Set_add [] kx) ky) kx = true).
  { rewrite Set_has_add, Hseen. reflexivity. }
  split.
  - intros _ _. unfold rx at 1. simpl calculateFullRequirements.
    unfold requirementStep at 1. cbv beta iota zeta. cbn [name].
    rewrite HfY. unfold ry at 1.
    cbn [ingredients def primaryOutput results bind key].
    rewrite Hseen'. cbn [forEach bind].
    unfold requirementStep at 1. cbv beta iota zeta. cbn [name].
    rewrite HfX. unfold rx at 1.
    cbn [ingredients def primaryOutput results bind key].
    rewrite Hseen2.
    unfold addRequirement, ingredientRateOf. simpl. rewrite Eyx. reflexivity.
  - assert (Hix : ingredients rx = Some [{| name := Y; amount := ay |}])
      by reflexivity.
    assert (Hiy : ingredients ry = Some [{| name := X; amount := ax |}])
      by reflexivity.
    assert (Hpx : primaryOutput rx = Normal {| name := X; amount := ox |})
      by reflexivity.
    assert (Hpy : primaryOutput ry = Normal {| name := Y; amount := oy |})
      by reflexivity.
    split; [|exact Hgeneral].
    rewrite contributions_S. cbn [def key]. rewrite Hix, Hpx.
    change (Set_has [] kx) with false. cbv iota. cbn [flat_map name amount].
    rewrite HfY, contributions_S. cbn [def key]. rewrite Hiy, Hpy, Hseen'.
    cbn [flat_map name amount]. rewrite HfX, contributions_S. cbn [def key].
    rewrite Hix, Hpx, Hseen2. reflexivity.
Qed.

Lemma cycle_terminates_witness :
  plainName "X" = true /\ plainName "Y" = true /\
  calculateFullRequirements Examples.cyclic 3
    {| key := "rx"; def := Examples.recipeX |} 10 [] []
  = Normal [("Y", 0 + (2 * 10) / 1); ("X", 0 + (3 * ((2 * 10) / 1)) / 1)] /\
  contributions Examples.cyclic 3
    {| key := "rx"; def := Examples.recipeX |} 10 []
  = [("Y", (2 * 10) / 1); ("X", (3 * ((2 * 10) / 1)) / 1)].
Proof.
  destruct (cycle_terminates "rx" "ry" "X" "Y" (Some 3) (Some 2) (Some 1)
              (Some 1) None None None None [] 10 3%nat)
    as (_ & _ & Htotals & Hcontributions & _);
    [discriminate | discriminate | lia |].
  split; [reflexivity|]. split; [reflexivity|].
  split; [apply Htotals; reflexivity | exact Hcontributions].
Defined.

(* ================================================================== *)
(** ** The order of the final list *)
(* ================================================================== *)

(** Rounding a negative significand gives a negative, zero or undefined
    result, never a positive one. *)
Lemma binary_round_negative m e :
  SFltb (S754_zero false) (binary_round prec emax true m e) = false.
Proof.
  unfold binary_round, binary_round_aux.
  destruct (shl_align _ _ _) as [mz ez].
  destruct (shr_fexp _ _ _ _ _) as [mrs' e'].
  destruct (shr_fexp _ _ _ _ _) as [mrs'' e''].
  destruct (shr_m mrs''); try reflexivity.
  destruct (Z.leb _ _); reflexivity.
Qed.

Lemma binary_normalize_opp m e :
  SFltb (S754_zero false) (binary_normalize prec emax m e false) = true ->
  SFltb (S754_zero false) (binary_normalize prec emax (- m) e false) = false.
Proof.
  destruct m as [|p|p]; simpl.
  - discriminate.
  - intros _. apply binary_round_negative.
  - now rewrite binary_round_negative.
Qed.

Lemma SFsub_positive_asym x y :
  SFltb (S754_zero false) (SF64sub x y) = true ->
  SFltb (S754_zero false) (SF64sub y x) = false.
Proof.
  unfold SF64sub.
  destruct x as [sx|sx| |sx mx ex], y as [sy|sy| |sy my ey];
    try (destruct sx); try (destruct sy); try (simpl; congruence);
    try (cbn; congruence).
  all: unfold SFsub; rewrite (Z.min_comm ey ex);
    match goal with
    | |- context [binary_normalize _ _ (?a - ?b)%Z _ _] =>
        replace (b - a)%Z with (- (a - b))%Z by lia
    end; apply binary_normalize_opp.
Qed.

(** In binary64, [x - y > 0] and [y - x > 0] exclude each other. *)
Lemma sub_positive_asym (x y : number) :
  PrimFloat.ltb 0 (x - y) = true -> PrimFloat.ltb 0 (y - x) = false.
Proof.
  rewrite !ltb_spec, !sub_spec.
  change (Prim2SF 0) with (S754_zero false).
  apply SFsub_positive_asym.
Qed.

Lemma insert_sorted_Sorted {A} (after : A -> A -> bool) x l :
  (forall a b, after a b = true -> after b a = false) ->
  Sorted (fun a b => after a b = false) l ->
  Sorted (fun a b => after a b = false) (insert_sorted after x l).
Proof.
  intros Hasym. induction l as [|y l IH]; intros Hs; simpl.
  - repeat constructor.
  - destruct (after x y) eqn:E.
    + inversion Hs as [|? ? Hl Hhd]; subst. constructor; auto.
      destruct l as [|z l]; simpl in *.
      * constructor. auto.
      * destruct (after x z); constructor; auto.
        now inversion Hhd.
    + constructor; auto.
Qed.

Lemma Array_sort_byDescendingRate_Sorted l :
  Sorted mayPrecede (Array_sort byDescendingRate l).
Proof.
  unfold Array_sort, mayPrecede.
  induction l as [|x l IH]; simpl; [constructor|].
  apply (insert_sorted_Sorted
           (fun a b => PrimFloat.ltb 0 (byDescendingRate a b))); auto.
  intros a b. unfold byDescendingRate. apply sub_positive_asym.
Qed.

(* ================================================================== *)
(** ** Where calculateRequirements rounds *)
(* ================================================================== *)

Lemma get_fold_addRequirement cs :
  forall req i,
    get (fold_left (fun acc c => addRequirement acc (fst c) (snd c)) cs req) i
    = fold_left (fun total amount => Some (or_default total 0 + amount))
        (amountsFor i cs) (get req i).
Proof.
  unfold amountsFor.
  induction cs as [|[n a] cs IH]; intros req i; cbn [fold_left filter map];
    auto.
  rewrite IH. cbn [fst snd]. unfold addRequirement.
  destruct (String.eqb n i) eqn:E.
  - apply String.eqb_eq in E. subst n. now rewrite get_set_same.
  - apply String.eqb_neq in E. now rewrite get_set_other.
Qed.

(** C1, as the code has it, for a dataset whose names are plain and a
    target recipe that lists ingredients. The amounts are added unrounded
    into the running per-item total: the object that
    calculateFullRequirements leaves holds, for every item, the running
    sum [(total || 0) + amount] of the contributions to that item
    (ingredient.amount * rate / outputAmount, one per ingredient visit)
    and nothing for an item without contribution; no rounding takes
    part. Rounding to two decimals is deferred to the end:
    calculateRequirements rounds each final total once, and the rounded
    list is then sorted, no entry standing before one of a higher
    rate. *)
Theorem requirements_rounded_once
  (data : factorioData) (itemName : string) (r : keyedRecipe) (rate : number) :
  plainNames data = true ->
  findRecipeForItem data itemName = Some r ->
  hasIngredients (def r) = true ->
  exists totals res,
    calculateFullRequirements data (enoughFuel data) r rate [] []
      = Normal totals /\
    totals =
      fold_left (fun acc c => addRequirement acc (fst c) (snd c))
        (contributions data (enoughFuel data) r rate []) [] /\
    (forall i,
       get totals i =
       demandTotal
         (amountsFor i (contributions data (enoughFuel data) r rate []))) /\
    calculateRequirements data r rate = Normal res /\
    Permutation (rq_fullRequirements res)
      (map (fun e => (fst e, round2 (snd e))) totals) /\
    Sorted mayPrecede (rq_fullRequirements res).
Proof.
  intros _ Hfind Hins.
  pose proof (findRecipeForItem_fromDataset _ _ _ Hfind) as Hr.
  destruct (calculateFullRequirements_total data (enoughFuel data) r rate [] [])
    as [totals Htotals]; auto.
  { unfold enoughFuel. pose proof (unseen_le_length data []). lia. }
  destruct (fromDataset_primaryOutput _ _ Hr) as [out Hout].
  unfold hasIngredients in Hins.
  destruct (ingredients (def r)) as [ins|] eqn:Hi; [|discriminate].
  pose proof (calculateFullRequirements_contributions _ _ _ _ _ _ _ Htotals)
    as Hfold.
  exists totals. eexists. split; [exact Htotals|].
  split; [exact Hfold|].
  split; [intros i; rewrite Hfold; apply get_fold_addRequirement|].
  unfold calculateRequirements, ingredientList.
  rewrite Hout, Hi, Htotals. simpl.
  split; [reflexivity|]. simpl. unfold finalRequirements.
  split; [apply Array_sort_Permutation|apply Array_sort_byDescendingRate_Sorted].
Qed.

Lemma requirements_rounded_once_witness :
  exists totals res,
    calculateFullRequirements Examples.sharedRaw
      (enoughFuel Examples.sharedRaw)
      {| key := "t"; def := Examples.recipeT |} 1 [] [] = Normal totals /\
    totals =
      fold_left (fun acc c => addRequirement acc (fst c) (snd c))
        (contributions Examples.sharedRaw (enoughFuel Examples.sharedRaw)
           {| key := "t"; def := Examples.recipeT |} 1 []) [] /\
    (forall i,
       get totals i =
       demandTotal
         (amountsFor i
            (contributions Examples.sharedRaw (enoughFuel Examples.sharedRaw)
               {| key := "t"; def := Examples.recipeT |} 1 []))) /\
    calculateRequirements Examples.sharedRaw
      {| key := "t"; def := Examples.recipeT |} 1 = Normal res /\
    Permutation (rq_fullRequirements res)
      (map (fun e => (fst e, round2 (snd e))) totals) /\
    Sorted mayPrecede (rq_fullRequirements res).
Proof.
  apply (requirements_rounded_once Examples.sharedRaw "T"); reflexivity.
Defined.

(** C1 as worded fails: in the dataset where T needs B and C and each of
    them needs 0.004 of a, the running total of a after the two additions
    is 0.008, while rounding at each step, of the amount or of the total,
    would leave 0. *)
Lemma requirements_not_rounded_at_each_step :
  ~ roundsAtEachStep Examples.sharedRaw Examples.keyedT 1.
Proof.
  intros H.
  specialize (H [("B", 0 + 1); ("a", 0 + 0.004 + 0.004); ("C", 0 + 1)]
                eq_refl).
  destruct H as [H|H];
    apply (f_equal (fun o => match get o "a" with
                             | Some v => PrimFloat.eqb v 0
                             | None => true
                             end)) in H;
    vm_compute in H; discriminate.
Qed.

(* ================================================================== *)
(** ** generateRecipeTree: bounded by depth alone *)
(* ================================================================== *)

Lemma height_assignSubTree item rate t :
  height (assignSubTree item rate t) = height t.
Proof. destruct t; reflexivity. Qed.

Lemma height_children_le n children :
  Forall (fun c => (height c <= n)%nat) children ->
  (fold_right (fun c h => Nat.max (height c) h) O children <= n)%nat.
Proof.
  induction 1 as [|c cs Hc _ IH]; simpl; lia.
Qed.

Lemma generateRecipeTree_rootRate data depth r rate t :
  generateRecipeTree data depth r rate = Normal t -> rootRate t = rate.
Proof.
  destruct depth; simpl.
  - destruct (primaryOutput (def r)); simpl; [|discriminate].
    now intros [= <-].
  - destruct (primaryOutput (def r)); simpl; [|discriminate].
    destruct (ingredientList (def r)); simpl; [|discriminate].
    destruct (forEach _ _ _); simpl; [|discriminate].
    now intros [= <-].
Qed.

(** The tree builder completes on a well-formed dataset, and its result
    has at most [depth] levels below the root. *)
Lemma generateRecipeTree_total data :
  wellFormed data = true ->
  forall depth r rate,
    fromDataset data r ->
    exists t, generateRecipeTree data depth r rate = Normal t /\
              (height t <= S depth)%nat.
Proof.
  intros Hwf. induction depth as [|depth IH]; intros r rate Hr.
  - simpl. destruct (fromDataset_primaryOutput _ _ Hr) as [out ->]. simpl.
    eexists. split; [reflexivity|]. simpl. lia.
  - simpl. destruct (fromDataset_primaryOutput _ _ Hr) as [out ->]. simpl.
    destruct (fromDataset_ingredients _ _ Hwf Hr) as [ins Hins].
    unfold ingredientList. rewrite Hins. simpl.
    match goal with
    | |- context [forEach ins ?body []] =>
        destruct (forEach_total
                    (Forall (fun c => (height c <= S depth)%nat)) ins body)
          with (s := @nil treeNode) as (children & E & Hch)
    end.
    + intros x children _ Hch.
      destruct (findRecipeForItem data (name x)) as [ir|] eqn:Hfind.
      * destruct (IH ir (ingredientRateOf x rate (or_default (amount out) 1))
                    (findRecipeForItem_fromDataset _ _ _ Hfind))
          as (sub & -> & Hsub).
        simpl. eexists. split; [reflexivity|].
        apply Forall_app. split; auto. constructor; auto.
        now rewrite height_assignSubTree.
      * eexists. split; [reflexivity|].
        apply Forall_app. split; auto. constructor; auto. simpl. lia.
    + constructor.
    + rewrite E. simpl. eexists. split; [reflexivity|]. simpl.
      apply height_children_le in Hch. lia.
Qed.

Lemma generateRecipeTree_crafted data depth r rate t :
  generateRecipeTree data depth r rate = Normal t ->
  match t with
  | Crafted _ recipeKey _ _ _ _ => recipeKey = key r
  | Raw _ _ => False
  end.
Proof.
  destruct depth; cbn [generateRecipeTree];
    destruct (primaryOutput (def r)); cbn [bind]; try discriminate.
  - now intros [= <-].
  - destruct (ingredientList (def r)); cbn [bind]; [|discriminate].
    match goal with
    | |- bind ?c _ = _ -> _ => destruct c; cbn [bind]; [|discriminate]
    end.
    now intros [= <-].
Qed.

Lemma showsPath_assignSubTree k ks item rate t :
  showsPath k ks t -> showsPath k ks (assignSubTree item rate t).
Proof. destruct t, ks; cbn [assignSubTree showsPath]; auto. Qed.

(** The builder follows every chain of recipes that the depth allows,
    whether or not a recipe comes back on it. *)
Lemma generateRecipeTree_showsPath data :
  forall rs depth r rate t,
    chain data r rs -> (List.length rs <= depth)%nat ->
    generateRecipeTree data depth r rate = Normal t ->
    showsPath (key r) (map key rs) t.
Proof.
  induction rs as [|r' rs IH]; intros depth r rate t Hchain Hlen Ht.
  - pose proof (generateRecipeTree_crafted _ _ _ _ _ Ht) as Hc.
    destruct t; [|destruct Hc]. cbn [map showsPath]. auto.
  - destruct depth as [|depth]; [cbn [List.length] in Hlen; lia|].
    cbn [List.length] in Hlen.
    destruct Hchain as [(ins & e & Hins & He & Hfind) Hchain].
    revert Ht. cbn [generateRecipeTree].
    destruct (primaryOutput (def r)) as [out|]; cbn [bind]; [|discriminate].
    unfold ingredientList. rewrite Hins. cbn [bind].
    match goal with
    | |- context [forEach ins ?f []] => set (step := f)
    end.
    assert (Hloop : forall l acc children,
              forEach l step acc = Normal children ->
              (forall c, In c acc -> In c children) /\
              (In e l ->
               exists sub,
                 generateRecipeTree data depth r'
                   (ingredientRateOf e rate (or_default (amount out) 1))
                 = Normal sub /\
                 In (assignSubTree (name e)
                       (round2 (ingredientRateOf e rate
                                  (or_default (amount out) 1))) sub)
                    children)).
    { induction l as [|x l IHl]; intros acc children; cbn [forEach].
      - intros [= <-]. split; [auto|intros []].
      - destruct (step x acc) as [acc1|] eqn:Estep; cbn [bind];
          [|discriminate].
        intros Hrest. destruct (IHl _ _ Hrest) as [Hkeep Hin].
        assert (Hacc : forall c, In c acc -> In c acc1).
        { revert Estep. unfold step.
          destruct (findRecipeForItem data (name x)).
          - match goal with
            | |- bind ?c _ = _ -> _ => destruct c; cbn [bind]; [|discriminate]
            end.
            intros [= <-] c Hc. apply in_or_app. auto.
          - intros [= <-] c Hc. apply in_or_app. auto. }
        split; [auto|].
        intros [->|Hl]; [|auto].
        revert Estep. unfold step. rewrite Hfind.
        match goal with
        | |- bind ?c _ = _ -> _ =>
            destruct c as [sub|] eqn:Esub; cbn [bind]; [|discriminate]
        end.
        intros [= <-]. exists sub. split; [first [exact Esub|reflexivity]|].
        apply Hkeep. apply in_or_app. right. now left. }
    destruct (forEach ins step []) as [children|] eqn:Hchildren; cbn [bind];
      [|discriminate].
    intros [= <-]. cbn [map showsPath]. split; [reflexivity|].
    destruct (Hloop _ _ _ Hchildren) as [_ Hin].
    destruct (Hin He) as (sub & Hsub & Hc).
    eexists. split; [exact Hc|].
    apply showsPath_assignSubTree.
    assert (Hlen' : (List.length rs <= depth)%nat) by lia.
    exact (IH depth r' _ sub Hchain Hlen' Hsub).
Qed.

(** C2, as the code has it, for a dataset in which every recipe lists
    its ingredients. The tree builder carries no visited set: its
    recursion is bounded by the explicit maximum depth alone. For every
    target with a recipe the builder completes for any depth with a tree
    of at most depth levels below the root, and that tree shows, from the
    root downwards, every chain of recipes (each one the recipe found for
    an ingredient of the one before) of at most depth steps, also a chain
    on which a recipe comes back: a recipe already on the descent path is
    expanded again while depth remains. The /tree handler, which passes
    no depth, gets the default of 5 (at most six levels in all) for a
    request that passes validation. *)
Theorem tree_bounded_by_depth
  (data : factorioData) (itemName : string) (r : keyedRecipe) (rate : number) :
  wellFormed data = true ->
  findRecipeForItem data itemName = Some r ->
  (forall depth,
     exists t,
       generateRecipeTree data depth r rate = Normal t /\
       (height t <= S depth)%nat /\
       forall rs,
         chain data r rs -> (List.length rs <= depth)%nat ->
         showsPath (key r) (map key rs) t) /\
  (validRequest itemName rate = true ->
   exists t, post_tree data itemName rate = Json t /\
             generateRecipeTree data 5 r rate = Normal t /\
             (height t <= 6)%nat).
Proof.
  intros Hwf Hfind.
  pose proof (findRecipeForItem_fromDataset _ _ _ Hfind) as Hr.
  split.
  - intros depth.
    destruct (generateRecipeTree_total data Hwf depth r rate Hr)
      as (t & E & Ht).
    exists t. split; [exact E|]. split; [exact Ht|].
    intros rs Hchain Hlen. eapply generateRecipeTree_showsPath; eauto.
  - intros Hvalid.
    destruct (generateRecipeTree_total data Hwf 5 r rate Hr) as (t & E & Ht).
    exists t. unfold post_tree, defaultTreeDepth.
    rewrite Hvalid, Hfind, E. auto.
Qed.

Lemma tree_bounded_by_depth_witness :
  (forall depth,
     exists t,
       generateRecipeTree Examples.cyclic depth Examples.keyedX 10
       = Normal t /\
       (height t <= S depth)%nat /\
       forall rs,
         chain Examples.cyclic Examples.keyedX rs ->
         (List.length rs <= depth)%nat ->
         showsPath (key Examples.keyedX) (map key rs) t) /\
  (validRequest "X" 10 = true ->
   exists t, post_tree Examples.cyclic "X" 10 = Json t /\
             generateRecipeTree Examples.cyclic 5 Examples.keyedX 10 = Normal t /\
             (height t <= 6)%nat).
Proof.
  apply (tree_bounded_by_depth Examples.cyclic "X" Examples.keyedX 10);
    reflexivity.
Defined.

(** C2 as worded fails: on the two-recipe cycle the tree of X, built with
    the default depth, expands the recipe of X again below itself. *)
Lemma tree_without_cycle_truncation :
  exists t,
    generateRecipeTree Examples.cyclic defaultTreeDepth Examples.keyedX 10
      = Normal t /\
    expandedAgain [] t = true /\
    height t = 6%nat.
Proof.
  eexists. split; [vm_compute; reflexivity|].
  split; vm_compute; reflexivity.
Qed.

(* ================================================================== *)
(** ** More on objects *)
(* ================================================================== *)

Lemma has_set {V} (o : object V) k v k' :
  has (set o k v) k' = has o k' || String.eqb k k'.
Proof.
  unfold has. destruct (String.eqb k k') eqn:E.
  - apply String.eqb_eq in E. subst. rewrite get_set_same.
    now rewrite orb_true_r.
  - apply String.eqb_neq in E. rewrite get_set_other by auto.
    now rewrite orb_false_r.
Qed.

Lemma set_In {V} (o : object V) k v k' v' :
  In (k', v') (set o k v) -> (k' = k /\ v' = v) \/ In (k', v') o.
Proof.
  induction o as [|[k0 v0] o IH]; simpl.
  - intros [[= <- <-]|[]]. auto.
  - destruct (String.eqb k0 k) eqn:E; simpl.
    + apply String.eqb_eq in E. subst k0.
      intros [[= <- <-]|H]; auto.
    + intros [H|H]; auto. destruct (IH H); auto.
Qed.

Lemma NoDup_keys_set {V} (o : object V) k v :
  NoDup (keys o) -> NoDup (keys (set o k v)).
Proof.
  intros H. destruct (get o k) as [v0|] eqn:E.
  - now rewrite (keys_set_old o k v v0 E).
  - rewrite (keys_set_new o k v E).
    apply NoDup_app; auto.
    + constructor; [intros []|constructor].
    + intros x Hx [<-|[]]. apply get_None_keys in E. contradiction.
Qed.

Lemma NoDup_keys_get {V} (o : object V) k v :
  NoDup (keys o) -> In (k, v) o -> get o k = Some v.
Proof.
  induction o as [|[k0 v0] o IH]; simpl; [intros _ []|].
  intros Hnd [[= -> ->]|Hin].
  - now rewrite String.eqb_refl.
  - inversion Hnd as [|? ? Hnotin Hnd']; subst.
    destruct (String.eqb k0 k) eqn:E.
    + apply String.eqb_eq in E. subst k0. exfalso. apply Hnotin.
      change k with (fst (k, v)). now apply in_map.
    + auto.
Qed.

Lemma In_values {V} (o : object V) v :
  In v (values o) <-> exists k, In (k, v) o.
Proof.
  unfold values. rewrite in_map_iff. split.
  - intros ([k v'] & E & H). simpl in E. subst. eauto.
  - intros (k & H). exists (k, v). auto.
Qed.

Lemma has_keys {V} (o : object V) k : has o k = true <-> In k (keys o).
Proof.
  unfold has. destruct (get o k) eqn:E.
  - split; auto. intros _. apply get_In in E.
    change k with (fst (k, v)). now apply in_map.
  - split; [discriminate|]. intros H. apply get_None_keys in E. contradiction.
Qed.

(* ================================================================== *)
(** ** generateRecipeTable *)
(* ================================================================== *)

Lemma rowsNamed_empty : rowsNamed Table.empty.
Proof. split; simpl; [constructor|intros ? ? []]. Qed.

Section TableFacts.
Variable data : factorioData.

Lemma extends_refl seen t : extends data seen t t.
Proof. constructor; auto. Qed.

Lemma extends_trans seen t0 t1 t2 :
  extends data seen t0 t1 -> extends data seen t1 t2 -> extends data seen t0 t2.
Proof.
  intros [A1 B1 C1 D1 E1] [A2 B2 C2 D2 E2]. constructor; auto.
  intros k Hk. rewrite B2, B1; auto.
Qed.

Lemma extends_weaken seen seen' t0 t1 :
  (forall k, Set_has seen k = true -> Set_has seen' k = true) ->
  extends data seen' t0 t1 -> extends data seen t0 t1.
Proof.
  intros Hsub [A B C D E]. constructor; auto.
Qed.

(** Replacing or adding the row of an unvisited recipe, under its name. *)
Lemma extends_set_row seen t k row :
  Set_has seen k = false -> Table.r_name row = k ->
  extends data seen t
    {| Table.recipes := set (Table.recipes t) k row;
       Table.items := Table.items t;
       Table.rawMaterials := Table.rawMaterials t |}.
Proof.
  intros Hk Hname. constructor; cbn [Table.recipes Table.items Table.rawMaterials]; auto.
  - intros [Hnd Hrows]. split; cbn [Table.recipes].
    + now apply NoDup_keys_set.
    + intros k' row' Hin. apply set_In in Hin.
      destruct Hin as [[-> ->]|Hin]; auto.
  - intros k' Hk'. apply get_set_other. intros ->. congruence.
  - intros k' Hk'. rewrite has_set, Hk'. reflexivity.
Qed.

Lemma extends_items seen t its :
  extends data seen t
    {| Table.recipes := Table.recipes t; Table.items := its;
       Table.rawMaterials := Table.rawMaterials t |}.
Proof. constructor; cbn [Table.recipes Table.items Table.rawMaterials]; auto. Qed.

Lemma extends_addRecipe seen t k out time machines rate :
  Set_has seen k = false -> rowsNamed t ->
  extends data seen t (Table.addRecipe k out time machines rate t).
Proof.
  intros Hk [Hnd Hrows]. unfold Table.addRecipe.
  destruct (get (Table.recipes t) k) as [row|] eqn:E;
    apply extends_set_row; auto; simpl.
  apply Hrows. now apply get_In.
Qed.

Lemma extends_pushIngredient seen t t' k i v :
  Set_has seen k = false -> rowsNamed t ->
  Table.pushIngredient k i v t = Normal t' -> extends data seen t t'.
Proof.
  intros Hk [Hnd Hrows]. unfold Table.pushIngredient.
  destruct (get (Table.recipes t) k) as [row|] eqn:E; [|discriminate].
  intros [= <-]. apply extends_set_row; auto. simpl.
  apply Hrows. now apply get_In.
Qed.

Lemma extends_addRawMaterial seen t i rate :
  findRecipeForItem data i = None ->
  extends data seen t (Table.addRawMaterial i rate t).
Proof.
  intros Hi. unfold Table.addRawMaterial.
  constructor; cbn [Table.recipes Table.items Table.rawMaterials]; auto.
  - intros k Hk. rewrite has_set, Hk. reflexivity.
  - intros Hraw k. cbn [Table.rawMaterials]. rewrite has_set.
    destruct (String.eqb i k) eqn:E.
    + apply String.eqb_eq in E. now subst.
    + rewrite orb_false_r. apply Hraw.
Qed.

Lemma Set_has_add_mono seen k k' :
  Set_has seen k' = true -> Set_has (Set_add seen k) k' = true.
Proof. intros H. now rewrite Set_has_add, H. Qed.

(** A completed call of [processRecipe] extends the table it was given. *)
Lemma processRecipe_extends fuel :
  forall r rate seen t t',
    rowsNamed t ->
    Table.processRecipe data fuel r rate seen t = Normal t' ->
    extends data seen t t'.
Proof.
  induction fuel as [|fuel IH]; intros r rate seen t t' Hnamed;
    [discriminate|].
  simpl. destruct (primaryOutput (def r)) as [out|]; simpl; [|discriminate].
  destruct (Set_has seen (key r)) eqn:Hseen.
  { intros [= <-]. apply extends_refl. }
  destruct (ingredientList (def r)) as [ins|]; simpl; [|discriminate].
  set (t1 := Table.addProduced _ _ _ _).
  assert (H1 : extends data seen t t1).
  { eapply extends_trans; [apply extends_addRecipe; eauto|].
    apply extends_items. }
  intros H.
  apply (forEach_preserves
           (fun s => extends data seen t s) _ _) with (s := t1) (s' := t') in H;
    auto.
  intros x s s' _ Hs. unfold Table.ingredientStep.
  destruct (Table.pushIngredient _ _ _ s) as [s1|] eqn:Hpush; simpl;
    [|discriminate].
  assert (Hs1 : extends data seen t s1).
  { eapply extends_trans; [exact Hs|].
    eapply extends_pushIngredient; eauto. apply Hs, Hnamed. }
  set (s2 := Table.addConsumed _ _ _ s1).
  assert (Hs2 : extends data seen t s2).
  { eapply extends_trans; [exact Hs1|]. apply extends_items. }
  destruct (findRecipeForItem data (name x)) as [ir|] eqn:Hfind.
  - intros Hrec. eapply extends_trans; [exact Hs2|].
    eapply extends_weaken; [|eapply IH; eauto].
    + intros k. apply Set_has_add_mono.
    + apply Hs2, Hnamed.
  - intros [= <-]. eapply extends_trans; [exact Hs2|].
    now apply extends_addRawMaterial.
Qed.

(** On a well-formed dataset [processRecipe] completes. *)
Lemma processRecipe_total :
  wellFormed data = true ->
  forall fuel r rate seen t,
    fromDataset data r -> rowsNamed t -> (unseen data seen < fuel)%nat ->
    exists t', Table.processRecipe data fuel r rate seen t = Normal t'.
Proof.
  intros Hwf. induction fuel as [|fuel IH]; intros r rate seen t Hr Hnamed Hfuel;
    [lia|].
  simpl. destruct (fromDataset_primaryOutput _ _ Hr) as [out ->]. simpl.
  destruct (Set_has seen (key r)) eqn:Hseen; [eauto|].
  destruct (fromDataset_ingredients _ _ Hwf Hr) as [ins Hins].
  unfold ingredientList. rewrite Hins. simpl.
  pose proof (unseen_add data seen (key r) (fromDataset_key _ _ Hr) Hseen) as Hlt.
  set (t1 := Table.addProduced _ _ _ _).
  assert (H1 : extends data seen t t1).
  { eapply extends_trans; [apply extends_addRecipe; eauto|].
    apply extends_items. }
  assert (Hrow1 : has (Table.recipes t1) (key r) = true).
  { unfold t1, Table.addProduced, Table.addRecipe. simpl.
    destruct (get (Table.recipes t) (key r));
      now rewrite has_set, String.eqb_refl, orb_true_r. }
  match goal with
  | |- exists t', forEach ins ?body t1 = Normal t' =>
      destruct (forEach_total
                  (fun s => rowsNamed s /\ has (Table.recipes s) (key r) = true)
                  ins body) with (s := t1) as (t' & E & _)
  end; [| split; [apply H1, Hnamed|exact Hrow1] | eauto].
  intros x s _ [Hs Hrow]. unfold Table.ingredientStep, Table.pushIngredient.
  unfold has in Hrow.
  destruct (get (Table.recipes s) (key r)) as [row|] eqn:Erow; [|discriminate].
  simpl.
  match goal with
  | |- context [Table.addConsumed ?k ?i ?v ?s1] =>
      set (s2 := Table.addConsumed k i v s1);
      assert (Hs2 : extends data seen s s2)
  end.
  { eapply extends_trans; [|apply extends_items].
    apply extends_set_row; auto. simpl.
    apply Hs. now apply get_In. }
  assert (Hrow2 : has (Table.recipes s2) (key r) = true).
  { unfold s2, Table.addConsumed. simpl.
    now rewrite has_set, String.eqb_refl, orb_true_r. }
  destruct (findRecipeForItem data (name x)) as [ir|] eqn:Hfind.
  - destruct (IH ir (ingredientRateOf x rate (or_default (amount out) 1))
                (Set_add seen (key r)) s2) as [s3 E3].
    + eapply findRecipeForItem_fromDataset; eauto.
    + apply Hs2, Hs.
    + lia.
    + exists s3. split; auto.
      pose proof (processRecipe_extends _ _ _ _ _ _ (ext_named _ _ _ _ Hs2 Hs) E3)
        as H3.
      split; [apply H3, Hs2, Hs | now apply (ext_rows _ _ _ _ H3)].
  - eexists. split; [reflexivity|].
    pose proof (extends_addRawMaterial seen s2 (name x)
                  (ingredientRateOf x rate (or_default (amount out) 1)) Hfind)
      as H3.
    split; [apply H3, Hs2, Hs | now apply (ext_rows _ _ _ _ H3)].
Qed.

End TableFacts.

(** The row of the root recipe in the finished table: it exists, it is
    the only row of that name, and its output rate is the requested one. *)
Lemma generateRecipeTable_root data r rate :
  wellFormed data = true -> fromDataset data r ->
  exists tb,
    generateRecipeTable data r rate = Normal tb /\
    (exists row, In row (Table.table_recipes tb) /\
                 Table.r_name row = key r /\ Table.r_outputRate row = rate) /\
    (forall row, In row (Table.table_recipes tb) ->
                 Table.r_name row = key r -> Table.r_outputRate row = rate).
Proof.
  intros Hwf Hr.
  pose proof rowsNamed_empty as Hempty.
  destruct (processRecipe_total data Hwf (enoughFuel data) r rate []
              Table.empty Hr Hempty) as [t' E].
  { unfold enoughFuel. pose proof (unseen_le_length data []). lia. }
  pose proof (processRecipe_extends data _ _ _ _ _ _ Hempty E) as Hext.
  pose proof (ext_named _ _ _ _ Hext Hempty) as [Hnd Hrows].
  assert (Hroot : exists row, get (Table.recipes t') (key r) = Some row /\
                              Table.r_outputRate row = rate).
  { revert E. unfold enoughFuel. simpl.
    destruct (primaryOutput (def r)) as [out|]; simpl; [|discriminate].
    destruct (ingredientList (def r)) as [ins|]; simpl; [|discriminate].
    set (t1 := Table.addProduced _ _ _ _).
    assert (H1 : rowsNamed t1).
    { unfold t1, Table.addProduced, Table.addRecipe. simpl.
      split; simpl; [repeat constructor; intros []|].
      intros k row [[= <- <-]|[]]. reflexivity. }
    apply (forEach_preserves
             (fun s => rowsNamed s /\
                       exists row, get (Table.recipes s) (key r) = Some row /\
                                   Table.r_outputRate row = rate)).
    - intros x s s' _ [Hs (row & Hrow & Hrate)].
      unfold Table.ingredientStep, Table.pushIngredient. rewrite Hrow. simpl.
      match goal with
      | |- context [Table.addConsumed ?k ?i ?v ?s1] =>
          set (s2 := Table.addConsumed k i v s1)
      end.
      assert (Hs2 : rowsNamed s2).
      { eapply (ext_named data []); [|exact Hs].
        eapply extends_trans; [|apply extends_items].
        apply extends_set_row; auto. simpl. apply Hs. now apply get_In. }
      assert (Hrow2 : exists row2, get (Table.recipes s2) (key r) = Some row2 /\
                                   Table.r_outputRate row2 = rate).
      { unfold s2, Table.addConsumed. simpl. rewrite get_set_same. eauto. }
      destruct (findRecipeForItem data (name x)) as [ir|].
      + intros Hrec.
        pose proof (processRecipe_extends data _ _ _ _ _ _ Hs2 Hrec) as H3.
        split; [apply H3, Hs2|].
        rewrite (ext_seen _ _ _ _ H3); auto.
        rewrite Set_has_add, String.eqb_refl. apply orb_true_r.
      + intros [= <-]. split; auto.
    - split; auto. unfold t1, Table.addProduced, Table.addRecipe. simpl.
      rewrite String.eqb_refl. eauto. }
  destruct Hroot as (row & Hrow & Hrate).
  unfold generateRecipeTable. rewrite E. simpl.
  eexists. split; [reflexivity|]. simpl. split.
  - exists row. split; [|split; auto].
    + apply In_values. exists (key r). now apply get_In.
    + apply Hrows. now apply get_In.
  - intros row' Hin Hname. apply In_values in Hin. destruct Hin as [k Hin].
    pose proof (Hrows _ _ Hin) as Hk. rewrite Hname in Hk. subst k.
    apply NoDup_keys_get in Hin; auto. congruence.
Qed.

(* ================================================================== *)
(** ** generateSankeyData *)
(* ================================================================== *)

Lemma indexOf_app n l x :
  indexOf n (l ++ [x]) =
  match indexOf n l with
  | Some i => Some i
  | None => if String.eqb x n then Some (List.length l) else None
  end.
Proof.
  induction l as [|y l IH]; simpl.
  - destruct (String.eqb x n); reflexivity.
  - destruct (String.eqb y n); auto. rewrite IH.
    destruct (indexOf n l); simpl; auto.
    destruct (String.eqb x n); reflexivity.
Qed.

Lemma typeOf_app ns nd n :
  typeOf (ns ++ [nd]) n =
  match typeOf ns n with
  | Some t => Some t
  | None =>
      if String.eqb (Sankey.node_name nd) n then Some (Sankey.node_type nd)
      else None
  end.
Proof.
  unfold typeOf. induction ns as [|x ns IH]; simpl.
  - destruct (String.eqb (Sankey.node_name nd) n); reflexivity.
  - destruct (String.eqb (Sankey.node_name x) n); auto.
Qed.

Lemma typeOf_indexOf_None ns n :
  indexOf n (map Sankey.node_name ns) = None -> typeOf ns n = None.
Proof.
  unfold typeOf. induction ns as [|x ns IH]; simpl; auto.
  destruct (String.eqb (Sankey.node_name x) n); [discriminate|].
  destruct (indexOf n (map Sankey.node_name ns)); [discriminate|auto].
Qed.

(** [addNode] with a type other than ['raw']: the map stays coherent,
    the index returned is the one the map holds, links are untouched and
    no node becomes or ceases to be raw. *)
Lemma addNode_spec n ty st i st' :
  coherent st -> ty <> Sankey.rawType ->
  Sankey.addNode n ty st = (i, st') ->
  coherent st' /\
  get (Sankey.nodeMap st') n = Some i /\
  Sankey.links st' = Sankey.links st /\
  forall m, isRaw (Sankey.nodes st') m <-> isRaw (Sankey.nodes st) m.
Proof.
  intros Hc Hty. unfold Sankey.addNode, coherent in *.
  destruct (get (Sankey.nodeMap st) n) as [j|] eqn:E.
  - intros [= <- <-]. repeat split; auto.
  - intros [= <- <-]. cbn [Sankey.nodes Sankey.nodeMap Sankey.links].
    split; [|split; [apply get_set_same|split; [reflexivity|]]].
    + intros m. cbn [Sankey.nodes Sankey.nodeMap].
      rewrite map_app. cbn [map Sankey.node_name]. rewrite indexOf_app.
      rewrite length_map, <- Hc.
      destruct (String.eqb n m) eqn:Enm.
      * apply String.eqb_eq in Enm. subst m. now rewrite get_set_same, E.
      * apply String.eqb_neq in Enm. rewrite get_set_other by auto.
        destruct (get (Sankey.nodeMap st) m); reflexivity.
    + intros m. unfold isRaw. rewrite typeOf_app.
      cbn [Sankey.node_name Sankey.node_type].
      destruct (typeOf (Sankey.nodes st) m); [tauto|].
      destruct (String.eqb n m); split; try discriminate.
      intros [= H]. congruence.
Qed.

(** [nodes[i].type = 'raw'] at the index of the first node called [n]. *)
Lemma setRaw_spec n :
  forall ns i,
    indexOf n (map Sankey.node_name ns) = Some i ->
    exists ns',
      Sankey.setRaw i ns = Normal ns' /\
      map Sankey.node_name ns' = map Sankey.node_name ns /\
      forall m, typeOf ns' m =
                if String.eqb n m then Some Sankey.rawType else typeOf ns m.
Proof.
  induction ns as [|nd ns IH]; intros i; simpl; [discriminate|].
  destruct (String.eqb (Sankey.node_name nd) n) eqn:E.
  - intros [= <-]. eexists. split; [reflexivity|]. split; [reflexivity|].
    intros m. unfold typeOf. simpl. apply String.eqb_eq in E. rewrite E.
    destruct (String.eqb n m); reflexivity.
  - destruct (indexOf n (map Sankey.node_name ns)) as [j|] eqn:Ej;
      simpl; [|discriminate].
    intros [= <-]. destruct (IH j eq_refl) as (ns' & E' & Hnames & Hty).
    cbn [Sankey.setRaw]. rewrite E'. cbn [bind]. eexists.
    split; [reflexivity|]. split; [simpl; now f_equal|].
    intros m. unfold typeOf in *. simpl.
    destruct (String.eqb (Sankey.node_name nd) m) eqn:Em.
    + apply String.eqb_eq in Em. subst m. rewrite (String.eqb_sym n), E.
      reflexivity.
    + apply Hty.
Qed.

Lemma markRaw_spec n i st :
  coherent st -> get (Sankey.nodeMap st) n = Some i ->
  exists st',
    Sankey.markRaw i st = Normal st' /\
    coherent st' /\
    Sankey.links st' = Sankey.links st /\
    forall m, isRaw (Sankey.nodes st') m <-> isRaw (Sankey.nodes st) m \/ m = n.
Proof.
  intros Hc Hi. rewrite Hc in Hi.
  destruct (setRaw_spec n _ _ Hi) as (ns' & E & Hnames & Hty).
  unfold Sankey.markRaw. rewrite E. simpl.
  eexists. split; [reflexivity|]. repeat split; simpl.
  - intros m. simpl. rewrite Hnames. apply Hc.
  - unfold isRaw. rewrite Hty. destruct (String.eqb n m) eqn:Enm.
    + apply String.eqb_eq in Enm. auto.
    + auto.
  - unfold isRaw. rewrite Hty. destruct (String.eqb n m) eqn:Enm; auto.
    apply String.eqb_neq in Enm. intros [H| ->]; auto. congruence.
Qed.

Lemma rawVisit_nil data depth n : ~ rawVisit data depth [] n.
Proof. intros (_ & d & [] & _). Qed.

Lemma rawVisit_app data depth vs ws n :
  rawVisit data depth (vs ++ ws) n <->
  rawVisit data depth vs n \/ rawVisit data depth ws n.
Proof.
  unfold rawVisit. split.
  - intros (Hf & d & Hin & Hd). apply in_app_or in Hin.
    destruct Hin; [left|right]; eauto.
  - intros [(Hf & d & Hin & Hd)|(Hf & d & Hin & Hd)]; split; auto;
      exists d; split; auto; apply in_or_app; auto.
Qed.

Lemma rawVisit_cons data depth x d vs n :
  rawVisit data depth ((x, d) :: vs) n <->
  (n = x /\ findRecipeForItem data x = None /\ (d < depth)%nat) \/
  rawVisit data depth vs n.
Proof.
  unfold rawVisit. split.
  - intros (Hf & d' & [[= -> ->]|Hin] & Hd); [left|right]; eauto.
  - intros [(-> & Hf & Hd)|(Hf & d' & Hin & Hd)]; split; auto.
    + exists d. split; auto. now left.
    + exists d'. split; auto. now right.
Qed.

Lemma itemType_not_raw : Sankey.itemType <> Sankey.rawType.
Proof. discriminate. Qed.

Lemma recipeType_not_raw : Sankey.recipeType <> Sankey.rawType.
Proof. discriminate. Qed.

(** A call or a loop that leaves the state as it was: no link added, no
    node relabelled, no visit made. *)
Ltac flow_unchanged st :=
  exists st; split; [reflexivity|]; split; [assumption|];
  split; [exists []; now rewrite app_nil_r|];
  let n := fresh "n" in
  let H := fresh "H" in
  intros n; split; [now left|];
  intros [H|H]; [exact H|now apply rawVisit_nil in H].

Section FlowFacts.
Variable data : factorioData.
Variable depth : nat.
Hypothesis Hwf : wellFormed data = true.

(** The loop over the ingredients of one recipe, given that nested calls
    behave. *)
Lemma flow_ingredients fuel recipeNodeId rate outputAmount currentDepth visited :
  flowSpec data depth fuel ->
  ((currentDepth < depth)%nat -> (depth - S currentDepth < fuel)%nat) ->
  forall ins st,
    coherent st ->
    exists st',
      forEach ins
        (Sankey.ingredientStep data depth
           (Sankey.buildSankeyData data depth fuel) recipeNodeId rate
           outputAmount currentDepth visited) st = Normal st' /\
      coherent st' /\
      (exists more, Sankey.links st' = Sankey.links st ++ more) /\
      forall n,
        isRaw (Sankey.nodes st') n <->
        isRaw (Sankey.nodes st) n \/
        rawVisit data depth
          (flat_map
             (fun ingredient =>
                (name ingredient, currentDepth) ::
                if Nat.ltb currentDepth depth then
                  match findRecipeForItem data (name ingredient) with
                  | Some ingredientRecipe =>
                      visits data depth fuel ingredientRecipe
                        (S currentDepth) visited
                  | None => []
                  end
                else [])
             ins) n.
Proof.
  intros IH Hfuel. induction ins as [|x ins IHins]; intros st Hc.
  - simpl. flow_unchanged st.
  - cbn [forEach flat_map]. unfold Sankey.ingredientStep at 1.
    destruct (Sankey.addNode (name x) Sankey.itemType st) as [i st1] eqn:E1.
    destruct (addNode_spec _ _ _ _ _ Hc itemType_not_raw E1)
      as (Hc1 & Hi & Hl1 & Hraw1).
    set (st2 := Sankey.addLink i recipeNodeId
                  (ingredientRateOf x rate outputAmount) st1).
    assert (Hc2 : coherent st2) by exact Hc1.
    assert (Hstep : exists st3,
      (if Nat.ltb currentDepth depth then
         match findRecipeForItem data (name x) with
         | Some ingredientRecipe =>
             Sankey.buildSankeyData data depth fuel ingredientRecipe
               (ingredientRateOf x rate outputAmount) (S currentDepth)
               visited st2
         | None => Sankey.markRaw i st2
         end
       else Normal st2) = Normal st3 /\
      coherent st3 /\
      (exists more, Sankey.links st3 = Sankey.links st ++ more) /\
      forall n,
        isRaw (Sankey.nodes st3) n <->
        isRaw (Sankey.nodes st) n \/
        rawVisit data depth
          ((name x, currentDepth) ::
           if Nat.ltb currentDepth depth then
             match findRecipeForItem data (name x) with
             | Some ingredientRecipe =>
                 visits data depth fuel ingredientRecipe (S currentDepth)
                   visited
             | None => []
             end
           else []) n).
    { assert (Hl2 : Sankey.links st2 = Sankey.links st ++
                      [{| Sankey.source := i; Sankey.target := recipeNodeId;
                          Sankey.value :=
                            Math_max 0.01
                              (ingredientRateOf x rate outputAmount) |}]).
      { unfold st2. simpl. now rewrite Hl1. }
      destruct (Nat.ltb currentDepth depth) eqn:Hlt.
      - apply Nat.ltb_lt in Hlt.
        destruct (findRecipeForItem data (name x)) as [ir|] eqn:Hfind.
        + destruct (IH ir (ingredientRateOf x rate outputAmount)
                      (S currentDepth) visited st2)
            as (st3 & E3 & Hc3 & (more & Hl3) & Hraw3); auto.
          { eapply findRecipeForItem_fromDataset; eauto. }
          exists st3. split; auto. split; auto. split.
          { exists ([{| Sankey.source := i; Sankey.target := recipeNodeId;
                        Sankey.value :=
                          Math_max 0.01
                            (ingredientRateOf x rate outputAmount) |}] ++ more).
            now rewrite Hl3, Hl2, app_assoc. }
          intros n. rewrite Hraw3, rawVisit_cons.
          change (Sankey.nodes st2) with (Sankey.nodes st1). rewrite Hraw1.
          split; [tauto|].
          intros [H|[(-> & Hnone & _)|H]]; auto. congruence.
        + destruct (markRaw_spec (name x) i st2 Hc2 Hi)
            as (st3 & E3 & Hc3 & Hl3 & Hraw3).
          exists st3. split; auto. split; auto. split.
          { eexists. rewrite Hl3. exact Hl2. }
          intros n. rewrite Hraw3, rawVisit_cons.
          change (Sankey.nodes st2) with (Sankey.nodes st1). rewrite Hraw1.
          split.
          * intros [H| ->]; auto.
          * intros [H|[(-> & _)|H]]; auto. now apply rawVisit_nil in H.
      - apply Nat.ltb_ge in Hlt.
        exists st2. split; auto. split; auto. split; [eauto|].
        intros n. rewrite rawVisit_cons.
        change (Sankey.nodes st2) with (Sankey.nodes st1). rewrite Hraw1.
        split; auto.
        intros [H|[(_ & _ & Hd)|H]]; auto; [lia|].
        now apply rawVisit_nil in H. }
    destruct Hstep as (st3 & E3 & Hc3 & (more3 & Hl3) & Hraw3).
    fold st2. rewrite E3. cbn [bind].
    destruct (IHins st3 Hc3) as (st' & E' & Hc' & (more' & Hl') & Hraw').
    exists st'. split; auto. split; auto. split.
    + exists (more3 ++ more'). now rewrite Hl', Hl3, app_assoc.
    + intros n. rewrite Hraw', Hraw3, rawVisit_app. tauto.
Qed.

(** Every call of [buildSankeyData] completes when its budget covers the
    levels left below it, and marks exactly the recipe-less items it
    meets strictly below the depth limit. *)
Lemma flowSpec_all fuel : flowSpec data depth fuel.
Proof.
  induction fuel as [|fuel IH]; intros r rate cd visited st Hr Hc Hfuel; [lia|].
  cbn [Sankey.buildSankeyData visits].
  destruct (Nat.ltb depth cd) eqn:Hdeep.
  { flow_unchanged st. }
  apply Nat.ltb_ge in Hdeep.
  destruct (fromDataset_primaryOutput _ _ Hr) as [out Hout]. rewrite Hout.
  cbn [bind].
  destruct (fromDataset_ingredients _ _ Hwf Hr) as [ins Hins].
  unfold ingredientList. rewrite Hins. cbn [bind].
  destruct (Set_has visited (key r)) eqn:Hseen.
  { flow_unchanged st. }
  destruct (Sankey.addNode (Sankey.recipeLabel (key r)) Sankey.recipeType st)
    as [i1 st1] eqn:E1.
  destruct (addNode_spec _ _ _ _ _ Hc recipeType_not_raw E1)
    as (Hc1 & _ & Hl1 & Hraw1).
  destruct (Sankey.addNode (name out) Sankey.itemType st1) as [i2 st2] eqn:E2.
  destruct (addNode_spec _ _ _ _ _ Hc1 itemType_not_raw E2)
    as (Hc2 & _ & Hl2 & Hraw2).
  set (st3 := Sankey.addLink i1 i2 rate st2).
  destruct (flow_ingredients fuel i1 rate (or_default (amount out) 1) cd
              (Set_add visited (key r)) IH ltac:(lia) ins st3 Hc2)
    as (st' & E' & Hc' & (more & Hl') & Hraw').
  exists st'. split; auto. split; auto. split.
  - eexists. rewrite Hl'. unfold st3. simpl. rewrite Hl2, Hl1.
    rewrite <- app_assoc. reflexivity.
  - intros n. rewrite Hraw'.
    change (Sankey.nodes st3) with (Sankey.nodes st2).
    rewrite Hraw2, Hraw1. reflexivity.
Qed.

End FlowFacts.

(** The flow graph of a target: its first link is the one from the root
    recipe to its output, and its raw nodes are the recipe-less items met
    strictly below the depth limit. *)
Lemma generateSankeyData_root data depth r rate :
  wellFormed data = true -> fromDataset data r ->
  exists g tgt rest,
    generateSankeyData data depth r rate = Normal g /\
    Sankey.graph_links g =
      {| Sankey.source := 0; Sankey.target := tgt;
         Sankey.value := Math_max 0.01 rate |} :: rest /\
    forall n, isRaw (Sankey.graph_nodes g) n <->
              rawVisit data depth (visits data depth (S depth) r 0 []) n.
Proof.
  intros Hwf Hr. unfold generateSankeyData.
  cbn [Sankey.buildSankeyData visits Nat.ltb Nat.leb].
  destruct (fromDataset_primaryOutput _ _ Hr) as [out Hout]. rewrite Hout.
  cbn [bind Set_has existsb].
  destruct (fromDataset_ingredients _ _ Hwf Hr) as [ins Hins].
  unfold ingredientList. rewrite Hins. cbn [bind].
  assert (Hc0 : coherent Sankey.empty) by (intros n; reflexivity).
  destruct (Sankey.addNode (Sankey.recipeLabel (key r)) Sankey.recipeType
              Sankey.empty) as [i1 st1] eqn:E1.
  assert (Hi1 : i1 = O) by (unfold Sankey.addNode in E1; simpl in E1; congruence).
  destruct (addNode_spec _ _ _ _ _ Hc0 recipeType_not_raw E1)
    as (Hc1 & _ & Hl1 & Hraw1).
  destruct (Sankey.addNode (name out) Sankey.itemType st1) as [i2 st2] eqn:E2.
  destruct (addNode_spec _ _ _ _ _ Hc1 itemType_not_raw E2)
    as (Hc2 & _ & Hl2 & Hraw2).
  set (st3 := Sankey.addLink i1 i2 rate st2).
  destruct (flow_ingredients data depth depth i1 rate
              (or_default (amount out) 1) 0 (Set_add [] (key r))
              (flowSpec_all data depth Hwf depth) ltac:(lia) ins st3 Hc2)
    as (st' & E' & Hc' & (more & Hl') & Hraw').
  rewrite E'. cbn [bind].
  eexists. exists i2, more. split; [reflexivity|].
  cbn [Sankey.graph_links Sankey.graph_nodes]. split.
  - rewrite Hl'. unfold st3. simpl. rewrite Hl2, Hl1, Hi1. reflexivity.
  - intros n. rewrite Hraw'.
    change (Sankey.nodes st3) with (Sankey.nodes st2).
    rewrite Hraw2, Hraw1. unfold isRaw at 1. simpl.
    split; [intros [H|H]; [discriminate|exact H]|auto].
Qed.

Lemma Math_max_above a b : PrimFloat.leb a b = true -> Math_max a b = b.
Proof. unfold Math_max. now intros ->. Qed.

(* ================================================================== *)
(** ** The rate at the root of each view *)
(* ================================================================== *)

(** C3, as the code has it, for a target item with a producing recipe in
    a dataset in which every recipe lists its ingredients. For every rate
    and depth, the root node of the tree carries the requested rate
    exactly; the first link of the flow graph, from the root recipe to
    its output item, carries Math.max(0.01, rate), which is the requested
    rate when that is at least 0.01; and, when the names of the dataset
    are plain, the table is returned and the row of the root recipe
    carries the requested rate exactly as output rate. The three handlers
    answer with these outputs (tree depth 5, flow depth 3) to every
    request that passes validation. *)
Theorem root_rate_of_views
  (data : factorioData) (itemName : string) (r : keyedRecipe) (rate : number) :
  wellFormed data = true ->
  findRecipeForItem data itemName = Some r ->
  (forall depth,
     exists t, generateRecipeTree data depth r rate = Normal t /\
               rootRate t = rate) /\
  (plainNames data = true ->
   exists tb, generateRecipeTable data r rate = Normal tb /\
              rootRow tb (key r) rate) /\
  (forall depth,
     exists g, generateSankeyData data depth r rate = Normal g /\
               rootLink g rate) /\
  (PrimFloat.leb 0.01 rate = true -> Math_max 0.01 rate = rate) /\
  (validRequest itemName rate = true ->
   (exists t, post_tree data itemName rate = Json t /\ rootRate t = rate) /\
   (plainNames data = true ->
    exists tb, post_table data itemName rate = Json tb /\
               rootRow tb (key r) rate) /\
   (exists g, post_sankey data itemName rate = Json g /\ rootLink g rate)).
Proof.
  intros Hwf Hfind.
  pose proof (findRecipeForItem_fromDataset _ _ _ Hfind) as Hr.
  assert (Htree : forall depth,
            exists t, generateRecipeTree data depth r rate = Normal t /\
                      rootRate t = rate).
  { intros depth.
    destruct (generateRecipeTree_total data Hwf depth r rate Hr)
      as (t & E & _).
    exists t. split; auto. eapply generateRecipeTree_rootRate; eauto. }
  assert (Htable : exists tb, generateRecipeTable data r rate = Normal tb /\
                              rootRow tb (key r) rate).
  { destruct (generateRecipeTable_root data r rate Hwf Hr)
      as (tb & E & H1 & H2).
    exists tb. split; auto. split; auto. }
  assert (Hflow : forall depth,
            exists g, generateSankeyData data depth r rate = Normal g /\
                      rootLink g rate).
  { intros depth.
    destruct (generateSankeyData_root data depth r rate Hwf Hr)
      as (g & tgt & rest & E & Hl & _).
    exists g. split; auto. exists tgt, rest. exact Hl. }
  split; [exact Htree|]. split; [intros _; exact Htable|].
  split; [exact Hflow|]. split; [apply Math_max_above|].
  intros Hvalid. unfold post_tree, post_table, post_sankey.
  rewrite Hvalid, Hfind. cbn [negb].
  split; [|split].
  - destruct (Htree defaultTreeDepth) as (t & -> & Ht). exists t. auto.
  - intros _. destruct Htable as (tb & -> & Htb). exists tb. auto.
  - destruct (Hflow Sankey.defaultDepth) as (g & -> & Hg). exists g. auto.
Qed.

Lemma root_rate_of_views_witness :
  (forall depth,
     exists t,
       generateRecipeTree Examples.cyclic depth Examples.keyedX 10 = Normal t /\
       rootRate t = 10) /\
  (plainNames Examples.cyclic = true ->
   exists tb,
     generateRecipeTable Examples.cyclic Examples.keyedX 10 = Normal tb /\
     rootRow tb (key Examples.keyedX) 10) /\
  (forall depth,
     exists g,
       generateSankeyData Examples.cyclic depth Examples.keyedX 10 = Normal g /\
       rootLink g 10) /\
  (PrimFloat.leb 0.01 10 = true -> Math_max 0.01 10 = 10) /\
  (validRequest "X" 10 = true ->
   (exists t, post_tree Examples.cyclic "X" 10 = Json t /\ rootRate t = 10) /\
   (plainNames Examples.cyclic = true ->
    exists tb, post_table Examples.cyclic "X" 10 = Json tb /\
               rootRow tb (key Examples.keyedX) 10) /\
   (exists g, post_sankey Examples.cyclic "X" 10 = Json g /\ rootLink g 10)).
Proof.
  apply (root_rate_of_views Examples.cyclic "X" Examples.keyedX 10);
    reflexivity.
Defined.

(** C3 as worded fails for the flow view: asked for X at rate 0.005, the
    link from the root recipe to X carries 0.01. *)
Lemma flow_root_link_floored :
  exists g l rest,
    post_sankey Examples.cyclic "X" 0.005 = Json g /\
    Sankey.graph_links g = l :: rest /\
    Sankey.source l = 0%nat /\ Sankey.target l = 1%nat /\
    Sankey.value l = 0.01 /\
    Sankey.value l <> 0.005.
Proof.
  eexists. eexists. eexists.
  split; [vm_compute; reflexivity|].
  split; [reflexivity|]. repeat split.
  intros H. apply (f_equal (PrimFloat.eqb 0.005)) in H.
  vm_compute in H. discriminate.
Qed.

(* ================================================================== *)
(** ** Raw labels in the flow view *)
(* ================================================================== *)

(** C9 as worded fails: R, a raw item, is first discovered at the depth
    limit, where its node is typed 'item' (and stays so if R is met
    nowhere else); when T also lists R directly, after the chain, the
    node is relabelled 'raw'; listing R before the chain gives the same
    final type. *)
Lemma raw_label_corrected_later :
  (exists g, post_sankey Examples.deepOnly "T" 1 = Json g /\
             typeOf (Sankey.graph_nodes g) "R" = Some Sankey.itemType) /\
  visits Examples.deepFirst 3 4 Examples.keyedDeepFirst 0 []
    = [("A", 0); ("B", 1); ("C", 2); ("R", 3); ("R", 0)]%nat /\
  (exists g, post_sankey Examples.deepFirst "T" 1 = Json g /\
             typeOf (Sankey.graph_nodes g) "R" = Some Sankey.rawType) /\
  (exists g, post_sankey Examples.shallowFirst "T" 1 = Json g /\
             typeOf (Sankey.graph_nodes g) "R" = Some Sankey.rawType).
Proof.
  split; [|split; [|split]].
  - eexists. split; vm_compute; reflexivity.
  - vm_compute. reflexivity.
  - eexists. split; vm_compute; reflexivity.
  - eexists. split; vm_compute; reflexivity.
Qed.

(* ================================================================== *)
(** ** Raw materials and failure *)
(* ================================================================== *)

Lemma fold_addRequirement_has cs :
  forall req k,
    has (fold_left (fun acc c => addRequirement acc (fst c) (snd c)) cs req) k
      = true <->
    has req k = true \/ In k (map fst cs).
Proof.
  induction cs as [|[i a] cs IH]; intros req k; simpl.
  - tauto.
  - rewrite IH. unfold addRequirement. rewrite has_set. simpl.
    rewrite orb_true_iff, String.eqb_eq. split.
    + intros [[H|H]|H]; auto.
    + intros [H|[H|H]]; auto.
Qed.

Section RawMaterials.
Variable data : factorioData.

(** The loop over the ingredients of an unvisited recipe extends the table. *)
Lemma ingredients_extends fuel k rate outputAmount seen ins :
  Set_has seen k = false ->
  forall s s',
    rowsNamed s ->
    forEach ins
      (Table.ingredientStep data (Table.processRecipe data fuel) k rate
         outputAmount (Set_add seen k)) s = Normal s' ->
    extends data seen s s'.
Proof.
  intros Hk s s' Hnamed H.
  apply (forEach_preserves (fun s0 => extends data seen s s0) _ _)
    with (s := s) (s' := s') in H; auto; [|apply extends_refl].
  intros x s0 s0' _ Hs0. unfold Table.ingredientStep.
  destruct (Table.pushIngredient _ _ _ s0) as [s1|] eqn:Hpush; simpl;
    [|discriminate].
  assert (Hs1 : extends data seen s s1).
  { eapply extends_trans; [exact Hs0|].
    eapply extends_pushIngredient; eauto. apply Hs0, Hnamed. }
  set (s2 := Table.addConsumed _ _ _ s1).
  assert (Hs2 : extends data seen s s2).
  { eapply extends_trans; [exact Hs1|]. apply extends_items. }
  destruct (findRecipeForItem data (name x)) as [ir|] eqn:Hfind.
  - intros Hrec. eapply extends_trans; [exact Hs2|].
    eapply extends_weaken; [|eapply processRecipe_extends; eauto].
    + intros k0. apply Set_has_add_mono.
    + apply Hs2, Hnamed.
  - intros [= <-]. eapply extends_trans; [exact Hs2|].
    now apply extends_addRawMaterial.
Qed.

(** Every recipe-less ingredient met by the descent is a key of
    [rawMaterials] when [processRecipe] is done. *)
Lemma processRecipe_records_raw fuel :
  forall r rate seen t t',
    rowsNamed t ->
    Table.processRecipe data fuel r rate seen t = Normal t' ->
    forall i,
      In i (map fst (contributions data fuel r rate seen)) ->
      findRecipeForItem data i = None ->
      has (Table.rawMaterials t') i = true.
Proof.
  induction fuel as [|fuel IH]; intros r rate seen t t' Hnamed;
    [discriminate|].
  cbn [Table.processRecipe contributions].
  destruct (primaryOutput (def r)) as [out|]; cbn [bind]; [|discriminate].
  destruct (Set_has seen (key r)) eqn:Hseen.
  { intros _ i. destruct (ingredients (def r)); intros []. }
  unfold ingredientList.
  destruct (ingredients (def r)) as [ins|]; cbn [bind]; [|discriminate].
  set (t1 := Table.addProduced _ _ _ _).
  assert (H1 : rowsNamed t1).
  { eapply (ext_named data seen); [|exact Hnamed].
    eapply extends_trans; [apply extends_addRecipe; eauto|].
    apply extends_items. }
  clearbody t1. clear Hnamed t. revert t1 H1.
  induction ins as [|x ins IHins]; intros s Hs; cbn [forEach flat_map].
  - intros _ i [].
  - destruct (Table.ingredientStep data (Table.processRecipe data fuel)
                (key r) rate (or_default (amount out) 1)
                (Set_add seen (key r)) x s) as [s1|] eqn:Hstep;
      cbn [bind]; [|discriminate].
    intros Hrest i Hin Hnone.
    assert (Hs1 : extends data seen s s1).
    { apply (ingredients_extends fuel (key r) rate (or_default (amount out) 1)
               seen [x] Hseen s s1 Hs).
      cbn [forEach]. rewrite Hstep. reflexivity. }
    pose proof (ingredients_extends fuel (key r) rate
                  (or_default (amount out) 1) seen ins Hseen s1 t'
                  (ext_named _ _ _ _ Hs1 Hs) Hrest) as Hlater.
    rewrite map_app in Hin. apply in_app_or in Hin. destruct Hin as [Hin|Hin].
    + apply (ext_raw _ _ _ _ Hlater).
      revert Hstep. unfold Table.ingredientStep.
      destruct (Table.pushIngredient _ _ _ s) as [s0|] eqn:Hpush; cbn [bind];
        [|discriminate].
      assert (Hs0 : rowsNamed s0).
      { eapply (ext_named data seen); [|exact Hs].
        eapply extends_pushIngredient; eauto. }
      cbn [map fst] in Hin.
      destruct (findRecipeForItem data (name x)) as [ir|] eqn:Hfind.
      * intros Hrec. destruct Hin as [<-|Hin]; [congruence|].
        eapply IH; [|exact Hrec|exact Hin|exact Hnone].
        eapply (ext_named data seen); [apply extends_items|exact Hs0].
      * intros [= <-]. destruct Hin as [<-|[]].
        unfold Table.addRawMaterial. cbn [Table.rawMaterials].
        now rewrite has_set, String.eqb_refl, orb_true_r.
    + eapply (IHins s1); eauto. apply Hs1, Hs.
Qed.

End RawMaterials.

Lemma In_keys_Array_sort {V} (cmp : string * V -> string * V -> number) l i :
  In i (map fst (Array_sort cmp l)) <-> In i (map fst l).
Proof.
  split; apply Permutation_in, Permutation_map.
  - apply Array_sort_Permutation.
  - apply Permutation_sym, Array_sort_Permutation.
Qed.






(* ================================================================== *)
(** ** Graph generators: the shared invariant *)
(* ================================================================== *)

Lemma indexOf_None n l : indexOf n l = None <-> ~ In n l.
Proof.
  induction l as [|x l IH]; simpl; [tauto|].
  destruct (String.eqb x n) eqn:E.
  - apply String.eqb_eq in E. split; [discriminate|].
    intros H. destruct H. now left.
  - apply String.eqb_neq in E.
    destruct (indexOf n l) as [i|]; simpl.
    + split; [discriminate|]. intros H. exfalso.
      assert (Hnot : ~ In n l) by (intros Hin; apply H; now right).
      apply IH in Hnot. discriminate.
    + split; auto. intros _ [H|H]; [contradiction|]. now apply IH in H.
Qed.

Lemma indexOf_Some_lt n l i :
  indexOf n l = Some i -> (i < List.length l)%nat.
Proof.
  revert i. induction l as [|x l IH]; intros i; simpl; [discriminate|].
  destruct (String.eqb x n).
  - intros [= <-]. lia.
  - destruct (indexOf n l) as [j|]; simpl; [|discriminate].
    intros [= <-]. specialize (IH j eq_refl). lia.
Qed.

Lemma graphInvariant_empty : graphInvariant Graph.empty.
Proof.
  constructor; simpl; auto; [constructor|intros ? []].
Qed.

Lemma has_indexOf st i :
  graphInvariant st ->
  (has (Graph.nodeMap st) i = true <->
   In i (map Graph.node_id (Graph.nodes st))).
Proof.
  intros [Hm _ _]. unfold has. rewrite Hm.
  destruct (indexOf i _) eqn:E.
  - split; auto. intros _.
    destruct (in_dec string_dec i (map Graph.node_id (Graph.nodes st)));
      auto.
    apply indexOf_None in n0. congruence.
  - apply indexOf_None in E. split; [discriminate|contradiction].
Qed.

(** [addNode]: the invariant is kept, the id is now known, and the ids
    are the old ones plus this one. *)
Lemma Graph_addNode_spec i t n p st :
  graphInvariant st ->
  graphInvariant (Graph.addNode i t n p st) /\
  Graph.links (Graph.addNode i t n p st) = Graph.links st /\
  (forall x, In x (map Graph.node_id (Graph.nodes (Graph.addNode i t n p st)))
             <-> In x (map Graph.node_id (Graph.nodes st)) \/ x = i).
Proof.
  intros Hinv. pose proof (has_indexOf st i Hinv) as Hhas.
  destruct Hinv as [Hm Hids Hlinks]. unfold Graph.addNode.
  destruct (has (Graph.nodeMap st) i) eqn:E.
  - split; [constructor; auto|]. split; auto.
    intros x. split; auto. intros [H| ->]; auto. now apply Hhas.
  - assert (Hnotin : ~ In i (map Graph.node_id (Graph.nodes st))).
    { intros H. apply Hhas in H. discriminate. }
    cbn [Graph.nodes Graph.links Graph.nodeMap].
    split; [constructor; cbn [Graph.nodes Graph.links Graph.nodeMap]|].
    + intros x. rewrite map_app. cbn [map Graph.node_id].
      rewrite indexOf_app, length_map, <- Hm.
      destruct (String.eqb i x) eqn:Ex.
      * apply String.eqb_eq in Ex. subst x. rewrite get_set_same.
        unfold has in E. destruct (get (Graph.nodeMap st) i); [discriminate|].
        reflexivity.
      * apply String.eqb_neq in Ex. rewrite get_set_other by auto.
        destruct (get (Graph.nodeMap st) x); reflexivity.
    + rewrite map_app. cbn [map Graph.node_id]. apply NoDup_app; auto.
      * constructor; [intros []|constructor].
      * intros x Hx [<-|[]]. contradiction.
    + intros l Hl. rewrite length_app. specialize (Hlinks l Hl). lia.
    + split; auto. intros x. rewrite map_app, in_app_iff.
      cbn [map Graph.node_id In]. intuition congruence.
Qed.

Lemma Graph_pushLink_spec s t r a st :
  graphInvariant st ->
  (s < List.length (Graph.nodes st))%nat ->
  (t < List.length (Graph.nodes st))%nat ->
  graphInvariant (Graph.pushLink s t r a st).
Proof.
  intros [Hm Hids Hlinks] Hs Ht. constructor; simpl; auto.
  intros l Hl. apply in_app_or in Hl. destruct Hl as [Hl|[<-|[]]]; auto.
Qed.

Lemma get_index_lt st i k :
  graphInvariant st -> get (Graph.nodeMap st) i = Some k ->
  (k < List.length (Graph.nodes st))%nat.
Proof.
  intros [Hm _ _] H. rewrite Hm in H. apply indexOf_Some_lt in H.
  now rewrite length_map in H.
Qed.

(** Links that point at existing nodes resolve to ids, one for one. *)
Lemma resolveLinks_total ns amountOf ls :
  (forall l, In l ls ->
     (Graph.sourceIndex l < List.length ns)%nat /\
     (Graph.targetIndex l < List.length ns)%nat) ->
  exists out, Graph.resolveLinks ns amountOf ls = Normal out /\
              List.length out = List.length ls.
Proof.
  induction ls as [|l ls IH]; intros H; simpl.
  - eauto.
  - destruct (H l (or_introl eq_refl)) as [Hs Ht].
    unfold Graph.idAt.
    destruct (nth_error ns (Graph.sourceIndex l)) eqn:Es;
      [|apply nth_error_None in Es; lia].
    destruct (nth_error ns (Graph.targetIndex l)) eqn:Et;
      [|apply nth_error_None in Et; lia].
    simpl. destruct IH as (out & -> & Hlen).
    { intros l' Hl'. apply H. now right. }
    simpl. eexists. split; [reflexivity|]. simpl. now rewrite Hlen.
Qed.

(* ================================================================== *)
(** ** generateCompleteGraph *)
(* ================================================================== *)

Lemma recipeId_inj a b : Graph.recipeId a = Graph.recipeId b -> a = b.
Proof. unfold Graph.recipeId. simpl. now intros [= ->]. Qed.

Lemma itemId_inj a b : Graph.itemId a = Graph.itemId b -> a = b.
Proof. unfold Graph.itemId. simpl. now intros [= ->]. Qed.

Lemma recipeId_not_itemId a b : Graph.recipeId a <> Graph.itemId b.
Proof. unfold Graph.recipeId, Graph.itemId. simpl. discriminate. Qed.

Lemma grows_refl st : graphInvariant st -> grows st st [] 0.
Proof.
  intros H. split; auto. split; [|lia]. intros x. simpl. tauto.
Qed.

Lemma grows_trans st0 st1 st2 new1 new2 n1 n2 :
  grows st0 st1 new1 n1 -> grows st1 st2 new2 n2 ->
  grows st0 st2 (new1 ++ new2) (n1 + n2).
Proof.
  intros (_ & H1 & L1) (I2 & H2 & L2). split; auto. split; [|lia].
  intros x. rewrite H2, H1, in_app_iff. tauto.
Qed.

Lemma CompleteGraph_addLink_spec src tgt r a st :
  graphInvariant st ->
  In src (map Graph.node_id (Graph.nodes st)) ->
  In tgt (map Graph.node_id (Graph.nodes st)) ->
  grows st (CompleteGraph.addLink src tgt r a st) [] 1.
Proof.
  intros Hinv Hs Ht. unfold CompleteGraph.addLink.
  apply (has_indexOf st src Hinv) in Hs. apply (has_indexOf st tgt Hinv) in Ht.
  unfold has in Hs, Ht.
  destruct (get (Graph.nodeMap st) src) as [s|] eqn:Es; [|discriminate].
  destruct (get (Graph.nodeMap st) tgt) as [t|] eqn:Et; [|discriminate].
  split; [|split].
  - apply Graph_pushLink_spec; eauto using get_index_lt.
  - intros x. simpl. tauto.
  - simpl. rewrite length_app. simpl. lia.
Qed.

Lemma addOutput_spec rid st result :
  graphInvariant st -> In rid (map Graph.node_id (Graph.nodes st)) ->
  grows st (CompleteGraph.addOutput rid st result)
    [Graph.itemId (name result)] 1.
Proof.
  intros Hinv Hrid. unfold CompleteGraph.addOutput.
  destruct (Graph_addNode_spec (Graph.itemId (name result)) Graph.itemType
              (name result) Graph.NoProperties st Hinv) as (H1 & L1 & N1).
  set (st1 := Graph.addNode _ _ _ _ st) in *.
  assert (G1 : grows st st1 [Graph.itemId (name result)] 0).
  { split; auto. split; [|rewrite L1; lia]. intros x. rewrite N1. simpl.
    intuition congruence. }
  apply (grows_trans _ _ _ _ _ _ _ G1).
  apply CompleteGraph_addLink_spec; auto; apply N1; auto.
Qed.

Lemma addInput_spec rid st ingredient :
  graphInvariant st -> In rid (map Graph.node_id (Graph.nodes st)) ->
  grows st (CompleteGraph.addInput rid st ingredient)
    [Graph.itemId (name ingredient)] 1.
Proof.
  intros Hinv Hrid. unfold CompleteGraph.addInput.
  destruct (Graph_addNode_spec (Graph.itemId (name ingredient)) Graph.itemType
              (name ingredient) Graph.NoProperties st Hinv) as (H1 & L1 & N1).
  set (st1 := Graph.addNode _ _ _ _ st) in *.
  assert (G1 : grows st st1 [Graph.itemId (name ingredient)] 0).
  { split; auto. split; [|rewrite L1; lia]. intros x. rewrite N1. simpl.
    intuition congruence. }
  apply (grows_trans _ _ _ _ _ _ _ G1).
  apply CompleteGraph_addLink_spec; auto; apply N1; auto.
Qed.

(** A loop of [addOutput] or [addInput] over the entries of one recipe. *)
Lemma fold_entries_spec
  (step : string -> Graph.state -> entry -> Graph.state) rid :
  (forall st e, graphInvariant st ->
                In rid (map Graph.node_id (Graph.nodes st)) ->
                grows st (step rid st e) [Graph.itemId (name e)] 1) ->
  forall es st,
    graphInvariant st -> In rid (map Graph.node_id (Graph.nodes st)) ->
    grows st (fold_left (step rid) es st)
      (map Graph.itemId (map name es)) (List.length es).
Proof.
  intros Hstep. induction es as [|e es IH]; intros st Hinv Hrid; simpl.
  - now apply grows_refl.
  - pose proof (Hstep st e Hinv Hrid) as G1.
    assert (G2 : grows (step rid st e) (fold_left (step rid) es (step rid st e))
                   (map Graph.itemId (map name es)) (List.length es)).
    { apply IH; [apply G1|]. apply G1. auto. }
    exact (grows_trans _ _ _ _ _ _ _ G1 G2).
Qed.

Lemma addRecipe_spec st k r :
  graphInvariant st ->
  grows st (CompleteGraph.addRecipe st (k, r))
    (Graph.recipeId k ::
     map Graph.itemId (map name (resultEntries r) ++
                       map name (ingredientEntries r)))
    (List.length (resultEntries r) + List.length (ingredientEntries r)).
Proof.
  intros Hinv. unfold CompleteGraph.addRecipe.
  destruct (Graph_addNode_spec (Graph.recipeId k) Graph.recipeType k
              (Graph.recipeProperties r) st Hinv) as (H1 & L1 & N1).
  set (st1 := Graph.addNode _ _ _ _ st) in *.
  assert (G1 : grows st st1 [Graph.recipeId k] 0).
  { split; auto. split; [|rewrite L1; lia]. intros x. rewrite N1. simpl.
    intuition congruence. }
  assert (Hrid1 : In (Graph.recipeId k) (map Graph.node_id (Graph.nodes st1)))
    by (apply N1; auto).
  pose proof (fold_entries_spec CompleteGraph.addOutput (Graph.recipeId k)
                (addOutput_spec (Graph.recipeId k)) (resultEntries r) st1 H1
                Hrid1) as G2.
  set (st2 := fold_left _ (resultEntries r) st1) in *.
  assert (Hrid2 : In (Graph.recipeId k) (map Graph.node_id (Graph.nodes st2)))
    by (apply G2; auto).
  pose proof (fold_entries_spec CompleteGraph.addInput (Graph.recipeId k)
                (addInput_spec (Graph.recipeId k)) (ingredientEntries r) st2
                (proj1 G2) Hrid2) as G3.
  pose proof (grows_trans _ _ _ _ _ _ _ G1
                (grows_trans _ _ _ _ _ _ _ G2 G3)) as G.
  rewrite map_app. simpl in G.
  unfold resultEntries, ingredientEntries in *.
  destruct (results r); destruct (ingredients r); exact G.
Qed.

Lemma build_spec rs :
  forall st,
    graphInvariant st ->
    grows st (fold_left CompleteGraph.addRecipe rs st)
      (flat_map
         (fun kr => Graph.recipeId (fst kr) ::
                    map Graph.itemId (map name (resultEntries (snd kr)) ++
                                      map name (ingredientEntries (snd kr))))
         rs)
      (list_sum
         (map (fun kr => (List.length (resultEntries (snd kr)) +
                          List.length (ingredientEntries (snd kr)))%nat) rs)).
Proof.
  induction rs as [|[k r] rs IH]; intros st Hinv; simpl.
  - now apply grows_refl.
  - pose proof (addRecipe_spec st k r Hinv) as G1.
    pose proof (IH _ (proj1 G1)) as G2.
    exact (grows_trans _ _ _ _ _ _ _ G1 G2).
Qed.

Lemma In_build_ids rs x :
  In x (flat_map
          (fun kr => Graph.recipeId (fst kr) ::
                     map Graph.itemId (map name (resultEntries (snd kr)) ++
                                       map name (ingredientEntries (snd kr))))
          rs) <->
  In x (map Graph.recipeId (keys rs)) \/
  In x (map Graph.itemId
          (flat_map (fun kr => map name (resultEntries (snd kr)) ++
                               map name (ingredientEntries (snd kr))) rs)).
Proof.
  induction rs as [|[k r] rs IH]; simpl; [tauto|].
  rewrite in_app_iff, IH, !map_app, !in_app_iff. tauto.
Qed.

(** C6. For every dataset (an object: recipe keys are not repeated),
    generateCompleteGraph returns exactly (number of recipes) + (number of
    distinct items appearing as an ingredient or result) nodes, and
    exactly (total ingredient entries) + (total result entries) links. *)
Theorem complete_graph_counts (data : factorioData) :
  NoDup (keys (recipes data)) ->
  exists g,
    generateCompleteGraph data = Normal g /\
    List.length (Graph.graph_nodes g)
      = (List.length (recipes data)
         + List.length (nodup string_dec (referencedItems data)))%nat /\
    List.length (Graph.graph_links g) = entryCount data.
Proof.
  intros Hkeys. unfold generateCompleteGraph, CompleteGraph.build.
  destruct (build_spec (recipes data) Graph.empty graphInvariant_empty)
    as (Hinv & Hids & Hlinks).
  set (st := fold_left CompleteGraph.addRecipe (recipes data) Graph.empty) in *.
  destruct (resolveLinks_total (Graph.nodes st) (fun a => a) (Graph.links st)
              (inv_links st Hinv)) as (ls & -> & Hlen).
  simpl. eexists. split; [reflexivity|]. simpl. split.
  - rewrite <- (length_map Graph.node_id (Graph.nodes st)).
    rewrite <- (length_map fst (recipes data)).
    rewrite <- (length_map Graph.recipeId (map fst (recipes data))).
    rewrite <- (length_map Graph.itemId
                  (nodup string_dec (referencedItems data))).
    rewrite <- length_app. apply Permutation_length.
    apply NoDup_Permutation.
    + apply (inv_ids st Hinv).
    + apply NoDup_app.
      * apply Injective_map_NoDup; auto.
        intros a b. apply recipeId_inj.
      * apply Injective_map_NoDup; [|apply NoDup_nodup].
        intros a b. apply itemId_inj.
      * intros x Hx Hy. apply in_map_iff in Hx. apply in_map_iff in Hy.
        destruct Hx as (a & <- & _). destruct Hy as (b & Hb & _).
        symmetry in Hb. now apply recipeId_not_itemId in Hb.
    + intros x. rewrite Hids, In_build_ids, in_app_iff.
      fold (referencedItems data). unfold keys.
      assert (Hitems :
        In x (map Graph.itemId (nodup string_dec (referencedItems data))) <->
        In x (map Graph.itemId (referencedItems data))).
      { rewrite !in_map_iff. split; intros (n & <- & Hn); exists n;
          split; auto; [apply nodup_In in Hn|apply nodup_In]; auto. }
      rewrite Hitems. simpl. tauto.
  - rewrite Hlen, Hlinks. reflexivity.
Qed.

Lemma complete_graph_counts_witness :
  exists g,
    generateCompleteGraph Examples.sharedRaw = Normal g /\
    List.length (Graph.graph_nodes g)
      = (List.length (recipes Examples.sharedRaw)
         + List.length (nodup string_dec (referencedItems Examples.sharedRaw)))%nat /\
    List.length (Graph.graph_links g) = entryCount Examples.sharedRaw.
Proof.
  apply (complete_graph_counts Examples.sharedRaw).
  repeat constructor; simpl; intuition discriminate.
Defined.

(* ================================================================== *)
(** ** generateItemSubgraph *)
(* ================================================================== *)

Lemma ItemSubgraph_addLink_spec src tgt r a st :
  graphInvariant st -> graphInvariant (ItemSubgraph.addLink src tgt r a st).
Proof.
  intros Hinv. unfold ItemSubgraph.addLink.
  destruct (get (Graph.nodeMap st) src) as [s|] eqn:Es; auto.
  destruct (get (Graph.nodeMap st) tgt) as [t|] eqn:Et; auto.
  destruct (ItemSubgraph.linkExists s t r (Graph.links st)); auto.
  apply Graph_pushLink_spec; eauto using get_index_lt.
Qed.

Lemma addNode_invariant i t n p st :
  graphInvariant st -> graphInvariant (Graph.addNode i t n p st).
Proof. intros H. now apply Graph_addNode_spec. Qed.

Create HintDb graph.
#[local] Hint Resolve graphInvariant_empty addNode_invariant
  ItemSubgraph_addLink_spec : graph.

Section ExploreFacts.
Variable data : factorioData.
Variable maxDepth : Z.

(** [exploreItem] completes, and keeps the invariant, whenever its budget
    covers the hops left below it. *)
Lemma exploreItem_total fuel :
  forall itemName currentDepth visited st,
    graphInvariant st ->
    (Z.to_nat (maxDepth - currentDepth) < fuel)%nat ->
    exists st',
      ItemSubgraph.exploreItem data maxDepth fuel itemName currentDepth
        visited st = Normal st' /\
      graphInvariant st'.
Proof.
  induction fuel as [|fuel IH]; intros itemName cd visited st Hinv Hfuel; [lia|].
  cbn [ItemSubgraph.exploreItem].
  destruct (Z.ltb maxDepth cd) eqn:Hdeep; [eauto|].
  destruct (Set_has visited itemName); [eauto|].
  apply forEach_total; [|auto with graph].
  intros [k r] s _ Hs. unfold ItemSubgraph.exploreRecipe.
  assert (Hrec : forall n s0, graphInvariant s0 ->
            exists s', (if Z.ltb cd maxDepth
                        then ItemSubgraph.exploreItem data maxDepth fuel n
                               (cd + 1)%Z (Set_add visited itemName) s0
                        else Normal s0) = Normal s' /\ graphInvariant s').
  { intros n s0 Hs0. destruct (Z.ltb cd maxDepth) eqn:Hlt; [|eauto].
    apply Z.ltb_lt in Hlt. apply IH; auto. lia. }
  apply (bind_total graphInvariant).
  - destruct (produces r itemName); [|eauto]. cbv zeta.
    destruct (ingredients r) as [ins|].
    + apply forEach_total.
      * intros x s0 _ Hs0. unfold ItemSubgraph.exploreIngredient.
        apply Hrec. auto with graph.
      * auto with graph.
    + eexists. split; [reflexivity|].
      auto with graph.
  - intros s1 Hs1.
    destruct (consumes r itemName); [|eauto]. cbv zeta.
    destruct (results r) as [rs|].
    + apply forEach_total.
      * intros x s0 _ Hs0. unfold ItemSubgraph.exploreProduct.
        apply Hrec. auto with graph.
      * auto with graph.
    + eexists. split; [reflexivity|].
      auto with graph.
Qed.

(** A recipe that neither produces nor consumes the item is skipped. *)
Lemma explore_isolated recur itemName currentDepth visited rs :
  forallb (fun kr => negb (produces (snd kr) itemName) &&
                     negb (consumes (snd kr) itemName)) rs = true ->
  forall st,
    forEach rs
      (ItemSubgraph.exploreRecipe data maxDepth recur itemName currentDepth
         visited) st = Normal st.
Proof.
  induction rs as [|[k r] rs IH]; intros H st; simpl; auto.
  simpl in H. apply andb_prop in H. destruct H as [Hkr Hrs].
  apply andb_prop in Hkr. destruct Hkr as [Hp Hc].
  apply negb_true_iff in Hp, Hc. rewrite Hp, Hc. simpl. now apply IH.
Qed.

End ExploreFacts.

Lemma generateItemSubgraph_total data itemName maxDepth :
  exists g, generateItemSubgraph data itemName maxDepth = Normal g.
Proof.
  unfold generateItemSubgraph.
  destruct (exploreItem_total data maxDepth (S (Z.to_nat maxDepth)) itemName
              0%Z [] Graph.empty graphInvariant_empty) as (st & -> & Hinv).
  { rewrite Z.sub_0_r. lia. }
  cbn [bind].
  destruct (resolveLinks_total (Graph.nodes st)
              (fun a => Some (or_default a 1)) (Graph.links st)
              (inv_links st Hinv)) as (ls & -> & _).
  cbn [bind]. eauto.
Qed.

(** C10, as the code has it. generateItemSubgraph never signals failure,
    for any seed item and any depth. For a seed item that no recipe
    produces and no recipe consumes it returns exactly one node (the seed
    item) and no links when maxDepth is not negative (as with the default
    of 2); with a negative maxDepth the first call returns at once and the
    graph is empty. *)
Theorem isolated_seed_subgraph
  (data : factorioData) (itemName : string) (maxDepth : Z) :
  (exists g, generateItemSubgraph data itemName maxDepth = Normal g) /\
  (isolated data itemName = true -> (0 <= maxDepth)%Z ->
   generateItemSubgraph data itemName maxDepth
   = Normal {| Graph.graph_nodes := [itemNode data itemName];
               Graph.graph_links := [] |}) /\
  ((maxDepth < 0)%Z ->
   generateItemSubgraph data itemName maxDepth
   = Normal {| Graph.graph_nodes := []; Graph.graph_links := [] |}).
Proof.
  split; [apply generateItemSubgraph_total|]. split.
  - intros Hiso Hdepth. unfold generateItemSubgraph.
    cbn [ItemSubgraph.exploreItem].
    assert (Hlt : Z.ltb maxDepth 0 = false) by (apply Z.ltb_ge; lia).
    rewrite Hlt. cbn [Set_has existsb].
    rewrite (explore_isolated data maxDepth _ itemName 0%Z _ (recipes data) Hiso).
    reflexivity.
  - intros Hneg. unfold generateItemSubgraph. cbn [ItemSubgraph.exploreItem].
    assert (Hlt : Z.ltb maxDepth 0 = true) by (apply Z.ltb_lt; lia).
    rewrite Hlt. reflexivity.
Qed.

Lemma isolated_seed_subgraph_witness :
  generateItemSubgraph Examples.sharedRaw "zzz" ItemSubgraph.defaultDepth
  = Normal {| Graph.graph_nodes := [itemNode Examples.sharedRaw "zzz"];
              Graph.graph_links := [] |}.
Proof.
  apply (isolated_seed_subgraph Examples.sharedRaw "zzz"
           ItemSubgraph.defaultDepth);
    [reflexivity | unfold ItemSubgraph.defaultDepth; lia].
Defined.

(** C10 as worded fails for a negative depth: the isolated seed "zzz",
    explored with maxDepth = -1, gives a graph without any node. *)
Lemma isolated_seed_negative_depth :
  isolated Examples.sharedRaw "zzz" = true /\
  generateItemSubgraph Examples.sharedRaw "zzz" (-1)
  = Normal {| Graph.graph_nodes := []; Graph.graph_links := [] |}.
Proof. split; reflexivity. Qed.

(* ================================================================== *)
(** ** The multi-item merge *)
(* ================================================================== *)

(** C7 at a failing input. Seeds "y|item:z" and "z", depth 0: each
    subgraph holds one link, recipe "x" producing "y|item:z" and recipe
    "x|item:y" producing "z". Both links get the same key
    "recipe:x|item:y|item:z|produces", so the merge keeps the first and
    drops the second: the triple of the second seed's link is missing
    from the merged graph. *)
Lemma multi_item_graph_drops_link :
  exists ga gb gm la lb,
    generateItemSubgraph Examples.barred "y|item:z" 0 = Normal ga /\
    generateItemSubgraph Examples.barred "z" 0 = Normal gb /\
    multiItemGraph Examples.barred ["y|item:z"; "z"] 0 = Normal gm /\
    Graph.graph_links ga = [la] /\
    Graph.graph_links gb = [lb] /\
    Graph.graph_links gm = [la] /\
    triple la = ("recipe:x", "item:y|item:z", Graph.Produces) /\
    triple lb = ("recipe:x|item:y", "item:z", Graph.Produces) /\
    MultiItemGraph.linkId la = MultiItemGraph.linkId lb /\
    ~ In (triple lb) (map triple (Graph.graph_links gm)).
Proof.
  do 5 eexists.
  split; [vm_compute; reflexivity|].
  split; [vm_compute; reflexivity|].
  split; [vm_compute; reflexivity|].
  split; [reflexivity|]. split; [reflexivity|]. split; [reflexivity|].
  split; [reflexivity|]. split; [reflexivity|]. split; [reflexivity|].
  simpl. intros [H|[]]. discriminate.
Qed.

Lemma mergeNode_spec st n :
  merged st ->
  merged (MultiItemGraph.mergeNode st n) /\
  keeps st (MultiItemGraph.mergeNode st n) /\
  In (Graph.node_id n)
     (map Graph.node_id (MultiItemGraph.nodes (MultiItemGraph.mergeNode st n))).
Proof.
  intros [Hn Hl]. unfold MultiItemGraph.mergeNode.
  destruct (Set_has (MultiItemGraph.allNodes st) (Graph.node_id n)) eqn:E.
  - repeat split; auto; try apply Hn; try apply Hl; auto.
  - unfold merged, keeps.
    cbn [MultiItemGraph.nodes MultiItemGraph.links MultiItemGraph.allNodes
         MultiItemGraph.allLinks].
    split; [split|split; [split|]].
    + intros x. rewrite Set_has_add, map_app, in_app_iff, orb_true_iff, Hn.
      cbn [map In]. rewrite String.eqb_eq. tauto.
    + exact Hl.
    + intros x Hx. rewrite map_app, in_app_iff. auto.
    + auto.
    + rewrite map_app, in_app_iff. cbn [map In]. auto.
Qed.

Lemma mergeLink_spec st l :
  merged st ->
  merged (MultiItemGraph.mergeLink st l) /\
  keeps st (MultiItemGraph.mergeLink st l) /\
  In (MultiItemGraph.linkId l)
     (map MultiItemGraph.linkId
        (MultiItemGraph.links (MultiItemGraph.mergeLink st l))).
Proof.
  intros [Hn Hl]. unfold MultiItemGraph.mergeLink.
  destruct (Set_has (MultiItemGraph.allLinks st) (MultiItemGraph.linkId l))
    eqn:E.
  - repeat split; auto; try apply Hn; try apply Hl; auto.
  - unfold merged, keeps.
    cbn [MultiItemGraph.nodes MultiItemGraph.links MultiItemGraph.allNodes
         MultiItemGraph.allLinks].
    split; [split|split; [split|]].
    + exact Hn.
    + intros x. rewrite Set_has_add, map_app, in_app_iff, orb_true_iff, Hl.
      cbn [map In]. rewrite String.eqb_eq.
      change (MultiItemGraph.linkId
                {| Graph.source := Graph.source l;
                   Graph.target := Graph.target l;
                   Graph.link_rel := Graph.link_rel l;
                   Graph.link_amount := Graph.link_amount l |})
        with (MultiItemGraph.linkId l).
      tauto.
    + auto.
    + intros x Hx. rewrite map_app, in_app_iff. auto.
    + rewrite map_app, in_app_iff. cbn [map In]. right. left. reflexivity.
Qed.

Lemma keeps_trans a b c : keeps a b -> keeps b c -> keeps a c.
Proof. intros [H1 H2] [H3 H4]. split; auto. Qed.

Lemma fold_mergeNode_spec ns :
  forall st, merged st ->
    merged (fold_left MultiItemGraph.mergeNode ns st) /\
    keeps st (fold_left MultiItemGraph.mergeNode ns st) /\
    forall n, In n ns ->
      In (Graph.node_id n)
         (map Graph.node_id
            (MultiItemGraph.nodes (fold_left MultiItemGraph.mergeNode ns st))).
Proof.
  induction ns as [|n ns IH]; intros st Hst; simpl.
  - split; auto. split; [split; auto|intros ? []].
  - destruct (mergeNode_spec st n Hst) as (H1 & K1 & In1).
    destruct (IH _ H1) as (H2 & K2 & In2).
    split; auto. split; [eapply keeps_trans; eauto|].
    intros m [<-|Hm]; auto. now apply K2.
Qed.

Lemma fold_mergeLink_spec ls :
  forall st, merged st ->
    merged (fold_left MultiItemGraph.mergeLink ls st) /\
    keeps st (fold_left MultiItemGraph.mergeLink ls st) /\
    forall l, In l ls ->
      In (MultiItemGraph.linkId l)
         (map MultiItemGraph.linkId
            (MultiItemGraph.links (fold_left MultiItemGraph.mergeLink ls st))).
Proof.
  induction ls as [|l ls IH]; intros st Hst; simpl.
  - split; auto. split; [split; auto|intros ? []].
  - destruct (mergeLink_spec st l Hst) as (H1 & K1 & In1).
    destruct (IH _ H1) as (H2 & K2 & In2).
    split; auto. split; [eapply keeps_trans; eauto|].
    intros m [<-|Hm]; auto. now apply K2.
Qed.

Lemma multiItemGraph_covers data depth seeds :
  forall st st',
    merged st ->
    forEach seeds (MultiItemGraph.mergeItem data depth) st = Normal st' ->
    merged st' /\ keeps st st' /\
    forall seed g,
      In seed seeds -> generateItemSubgraph data seed depth = Normal g ->
      covers st' g.
Proof.
  induction seeds as [|s seeds IH]; intros st st' Hst; simpl.
  - intros [= <-]. split; auto. split; [split; auto|intros ? ? []].
  - unfold MultiItemGraph.mergeItem at 1.
    destruct (generateItemSubgraph data s depth) as [g|] eqn:Eg; simpl;
      [|discriminate].
    destruct (fold_mergeNode_spec (Graph.graph_nodes g) st Hst)
      as (H1 & K1 & In1).
    destruct (fold_mergeLink_spec (Graph.graph_links g) _ H1)
      as (H2 & K2 & In2).
    intros Hrest. destruct (IH _ _ H2 Hrest) as (H3 & K3 & In3).
    split; auto.
    split; [eapply keeps_trans; [|exact K3]; eapply keeps_trans; eauto|].
    intros seed g' [<-|Hseed] Hg'.
    + rewrite Eg in Hg'. injection Hg' as <-. split.
      * intros n Hn. apply K3, K2. auto.
      * intros l Hl. apply K3. auto.
    + eapply In3; eauto.
Qed.

(* ================================================================== *)
(** ** Further properties: item lookup and the item list *)
(* ================================================================== *)

Lemma findRecipeIn_None rs itemName :
  findRecipeIn rs itemName = None <->
  forall kr, In kr rs -> produces (snd kr) itemName = false.
Proof.
  induction rs as [|[k r] rs IH]; simpl.
  - split; auto. intros _ kr [].
  - destruct (produces r itemName) eqn:E.
    + split; [discriminate|]. intros H.
      specialize (H (k, r) (or_introl eq_refl)). simpl in H. congruence.
    + rewrite IH. split.
      * intros H kr [<-|Hin]; auto.
      * intros H kr Hin. apply H. now right.
Qed.

Lemma findRecipeIn_first rs itemName r :
  findRecipeIn rs itemName = Some r <->
  exists before after,
    rs = before ++ (key r, def r) :: after /\
    produces (def r) itemName = true /\
    forall kr, In kr before -> produces (snd kr) itemName = false.
Proof.
  revert r. induction rs as [|[k r0] rs IH]; intros r; simpl.
  - split; [discriminate|]. intros (before & after & E & _).
    destruct before; discriminate.
  - destruct (produces r0 itemName) eqn:E.
    + split.
      * intros [= <-]. exists [], rs. simpl. repeat split; auto.
        intros kr [].
      * intros (before & after & Hrs & Hp & Hb).
        destruct before as [|kr before]; simpl in Hrs.
        -- injection Hrs as Hk Hr _. subst k r0. now destruct r.
        -- injection Hrs as Hkr _. subst kr.
           specialize (Hb (k, r0) (or_introl eq_refl)). simpl in Hb.
           congruence.
    + rewrite IH. split.
      * intros (before & after & -> & Hp & Hb).
        exists ((k, r0) :: before), after. repeat split; auto.
        intros kr [<-|Hin]; auto.
      * intros (before & after & Hrs & Hp & Hb).
        destruct before as [|kr before]; simpl in Hrs.
        -- injection Hrs as Hk Hr _. subst k r0. congruence.
        -- injection Hrs as Hkr Hrest. subst kr rs. exists before, after.
           repeat split; auto. intros kr Hin. apply Hb. now right.
Qed.

(** X1. findRecipeForItem resolves an item to the first recipe, in the
    iteration order of the dataset, one of whose results is the item: it
    answers null exactly when no recipe produces the item, and a recipe
    exactly when that recipe produces the item and no recipe before it
    does. Later producers (alternates) are never returned. *)
Theorem findRecipeForItem_first_match
  (data : factorioData) (itemName : string) :
  (findRecipeForItem data itemName = None <->
   forall kr, In kr (recipes data) -> produces (snd kr) itemName = false) /\
  (forall r,
     findRecipeForItem data itemName = Some r <->
     exists before after,
       recipes data = before ++ (key r, def r) :: after /\
       produces (def r) itemName = true /\
       forall kr, In kr before -> produces (snd kr) itemName = false).
Proof.
  split.
  - apply findRecipeIn_None.
  - intros r. apply findRecipeIn_first.
Qed.

Lemma String_ltb_asym a b : String.ltb a b = true -> String.ltb b a = false.
Proof.
  unfold String.ltb. rewrite (String.compare_antisym a b).
  destruct (String.compare b a); simpl; congruence.
Qed.

Lemma String_ltb_total a b :
  a <> b -> String.ltb b a = false -> String.ltb a b = true.
Proof.
  unfold String.ltb. intros Hne. rewrite (String.compare_antisym a b).
  destruct (String.compare b a) eqn:E; simpl; try congruence.
  apply String.compare_eq_iff in E. congruence.
Qed.

Lemma In_insert_sorted {A} (after : A -> A -> bool) x l y :
  In y (insert_sorted after x l) <-> y = x \/ In y l.
Proof.
  induction l as [|z l IH]; simpl.
  - intuition.
  - destruct (after x z); simpl; rewrite ?IH; intuition.
Qed.

Lemma In_Array_sort_strings l y : In y (Array_sort_strings l) <-> In y l.
Proof.
  unfold Array_sort_strings. induction l as [|x l IH]; simpl; [tauto|].
  rewrite In_insert_sorted, IH. intuition.
Qed.

Lemma Array_sort_strings_Permutation l :
  Permutation (Array_sort_strings l) l.
Proof.
  unfold Array_sort_strings. induction l as [|x l IH]; simpl; auto.
  rewrite insert_sorted_Permutation. now constructor.
Qed.

(** Sorting names that are all different gives a strictly increasing list. *)
Lemma Array_sort_strings_increasing l :
  NoDup l ->
  Sorted (fun a b => String.ltb a b = true) (Array_sort_strings l).
Proof.
  unfold Array_sort_strings.
  induction 1 as [|x l Hx Hnd IH]; simpl; [constructor|].
  assert (Hx' : ~ In x (fold_right
                          (insert_sorted (fun a b => String.ltb b a)) [] l)).
  { intros H. apply Hx. now apply In_Array_sort_strings. }
  clear Hx Hnd. revert IH Hx'.
  generalize (fold_right (insert_sorted (fun a b => String.ltb b a)) [] l).
  induction l0 as [|y l0 IHl]; intros Hs Hx; simpl.
  - repeat constructor.
  - destruct (String.ltb y x) eqn:E.
    + inversion Hs as [|? ? Hl Hhd]; subst. constructor.
      * apply IHl; auto. intros H. apply Hx. now right.
      * destruct l0 as [|z l0]; simpl.
        -- constructor. exact E.
        -- destruct (String.ltb z x); constructor; auto.
           now inversion Hhd.
    + constructor; auto. constructor.
      apply String_ltb_total; auto. intros ->. apply Hx. now left.
Qed.

Lemma has_fold_markItem (names : list string) :
  forall (o : object bool) k,
    has (fold_left markItem names o) k = true <->
    has o k = true \/ (In k names /\ k <> "__proto__").
Proof.
  induction names as [|n names IH]; intros o k; cbn [fold_left In];
    [tauto|].
  rewrite IH. unfold markItem. destruct (String.eqb n "__proto__") eqn:E.
  - apply String.eqb_eq in E. subst n. intuition congruence.
  - apply String.eqb_neq in E.
    rewrite has_set, orb_true_iff, String.eqb_eq. intuition congruence.
Qed.

Lemma fold_markItem_names (rs : list entry) (o : object bool) :
  fold_left (fun items result => markItem items (name result)) rs o
  = fold_left markItem (map name rs) o.
Proof.
  revert o. induction rs as [|r rs IH]; intros o; simpl; auto.
Qed.

Lemma NoDup_keys_fold_markItem (names : list string) :
  forall o : object bool,
    NoDup (keys o) -> NoDup (keys (fold_left markItem names o)).
Proof.
  induction names as [|n names IH]; intros o H; cbn [fold_left]; auto.
  apply IH. unfold markItem. destruct (String.eqb n "__proto__"); auto.
  now apply NoDup_keys_set.
Qed.

Lemma markResults_spec items kr :
  NoDup (keys items) ->
  NoDup (keys (markResults items kr)) /\
  forall k, has (markResults items kr) k = true <->
            has items k = true \/
            (produces (snd kr) k = true /\ k <> "__proto__").
Proof.
  intros Hnd. unfold markResults, produces.
  destruct (results (snd kr)) as [[|result rest]|].
  - split; auto. intros k. simpl. intuition discriminate.
  - rewrite fold_markItem_names. split; [now apply NoDup_keys_fold_markItem|].
    intros k. rewrite has_fold_markItem, existsb_exists, in_map_iff.
    split; (intros [H|[H Hne]]; [now left|right; split; [|exact Hne]]).
    + destruct H as (e & <- & He). exists e. split; auto.
      apply String.eqb_refl.
    + destruct H as (e & He & E). apply String.eqb_eq in E. eauto.
  - split; auto. intros k. intuition discriminate.
Qed.

Lemma collectItems_spec rs :
  forall items,
    NoDup (keys items) ->
    NoDup (keys (fold_left markResults rs items)) /\
    forall k, has (fold_left markResults rs items) k = true <->
              has items k = true \/
              (k <> "__proto__" /\
               exists kr, In kr rs /\ produces (snd kr) k = true).
Proof.
  induction rs as [|kr rs IH]; intros items Hnd; simpl.
  - split; auto. intros k. split; auto. intros [H|(_ & kr & [] & _)]; auto.
  - destruct (markResults_spec items kr Hnd) as [Hnd1 H1].
    destruct (IH _ Hnd1) as [Hnd2 H2]. split; auto.
    intros k. rewrite H2, H1. split.
    + intros [[H|[H Hne]]|(Hne & kr' & Hin & Hp)]; eauto 7.
    + intros [H|(Hne & kr' & [<-|Hin] & Hp)]; eauto 7.
Qed.

(** X2. The item list of GET /items names no item twice and holds
    exactly the names, other than [__proto__], that some recipe lists
    among its results; it is strictly increasing when the names are
    ASCII. Apart from [__proto__], which the list never holds, these are
    exactly the items findRecipeForItem resolves, that is, the items for
    which POST /calculate, on a request that passes validation, does not
    answer 404; a request that fails validation is answered 400. *)
Theorem items_are_the_calculable_ones (data : factorioData) :
  NoDup (get_items data) /\
  ~ In "__proto__" (get_items data) /\
  (forallb asciiName (get_items data) = true ->
   Sorted (fun a b => String.ltb a b = true) (get_items data)) /\
  forall itemName,
    (In itemName (get_items data) <->
     itemName <> "__proto__" /\
     exists kr, In kr (recipes data) /\ produces (snd kr) itemName = true) /\
    (itemName <> "__proto__" ->
     (In itemName (get_items data) <->
      exists r, findRecipeForItem data itemName = Some r)) /\
    (forall rate fmt,
       validRequest itemName rate = true -> itemName <> "__proto__" ->
       (post_calculate data itemName rate fmt = NotFound <->
        ~ In itemName (get_items data))) /\
    (forall rate fmt,
       validRequest itemName rate = false ->
       post_calculate data itemName rate fmt = BadRequest).
Proof.
  destruct (collectItems_spec (recipes data) [] ltac:(constructor))
    as [Hnd Hhas].
  fold (collectItems data) in Hnd, Hhas.
  assert (Hin : forall i,
    In i (get_items data) <->
    i <> "__proto__" /\
    exists kr, In kr (recipes data) /\ produces (snd kr) i = true).
  { intros i. unfold get_items.
    rewrite In_Array_sort_strings, <- has_keys, Hhas.
    split; [intros [H|H]; [discriminate|exact H]|auto]. }
  assert (Hfind : forall i,
    i <> "__proto__" ->
    (In i (get_items data) <-> exists r, findRecipeForItem data i = Some r)).
  { intros i Hne. rewrite Hin. unfold findRecipeForItem. split.
    - intros (_ & kr & Hkr & Hp).
      destruct (findRecipeIn (recipes data) i) as [r|] eqn:E; [eauto|].
      rewrite findRecipeIn_None in E. rewrite (E kr Hkr) in Hp. discriminate.
    - intros (r & E). apply findRecipeIn_sound in E. destruct E as [Hr Hp].
      split; [exact Hne|]. exists (key r, def r). auto. }
  split.
  { unfold get_items.
    exact (Permutation_NoDup
             (Permutation_sym (Array_sort_strings_Permutation _)) Hnd). }
  split; [intros H; apply Hin in H; destruct H as [H _]; now apply H|].
  split; [intros _; apply Array_sort_strings_increasing; exact Hnd|].
  intros i. split; [apply Hin|]. split; [apply Hfind|]. split.
  - intros rate fmt Hvalid Hne. rewrite (Hfind i Hne). unfold post_calculate.
    rewrite Hvalid. cbn [negb].
    destruct (findRecipeForItem data i) as [r|].
    + split.
      * destruct (calculateRequirements data r rate) as [res|]; simpl;
          [destruct fmt; simpl;
           repeat match goal with
                  | |- context [bind ?c _] => destruct c; simpl
                  end|]; discriminate.
      * intros H. exfalso. apply H. eauto.
    + split; auto. intros _ (r & E). discriminate.
  - intros rate fmt Hinvalid. unfold post_calculate. now rewrite Hinvalid.
Qed.

Lemma items_are_the_calculable_ones_witness :
  forallb asciiName (get_items Examples.sharedRaw) = true /\
  Sorted (fun a b => String.ltb a b = true) (get_items Examples.sharedRaw) /\
  validRequest "T" 1 = true /\
  (post_calculate Examples.sharedRaw "T" 1 formatOther = NotFound <->
   ~ In "T" (get_items Examples.sharedRaw)) /\
  post_calculate Examples.sharedRaw "T" 0 formatOther = BadRequest.
Proof.
  destruct (items_are_the_calculable_ones Examples.sharedRaw)
    as (_ & _ & Hsorted & Hitems).
  destruct (Hitems "T") as (_ & _ & Hmissing & Hinvalid).
  split; [reflexivity|]. split; [apply Hsorted; reflexivity|].
  split; [reflexivity|].
  split; [apply Hmissing; [reflexivity|discriminate]|].
  apply Hinvalid. reflexivity.
Defined.

(* ================================================================== *)
(** ** Further properties: the table *)
(* ================================================================== *)

Section TableInvariants.
Variable data : factorioData.
Variable Q : Table.state -> Prop.
Hypothesis Q_recipe :
  forall r out time machines rate t,
    fromDataset data r -> primaryOutput (def r) = Normal out -> Q t ->
    Q (Table.addProduced (key r) (name out) rate
         (Table.addRecipe (key r) (name out) time machines rate t)).
Hypothesis Q_push :
  forall k i v t t', Q t -> Table.pushIngredient k i v t = Normal t' -> Q t'.
Hypothesis Q_consumed :
  forall k i v t, Q t -> Q (Table.addConsumed k i v t).
Hypothesis Q_raw :
  forall i v t, findRecipeForItem data i = None -> Q t ->
                Q (Table.addRawMaterial i v t).

(** A property kept by each of the five updates of [processRecipe] is
    kept by a completed call. *)
Lemma processRecipe_preserves fuel :
  forall r rate seen t t',
    fromDataset data r -> Q t ->
    Table.processRecipe data fuel r rate seen t = Normal t' -> Q t'.
Proof.
  induction fuel as [|fuel IH]; intros r rate seen t t' Hr Ht; [discriminate|].
  cbn [Table.processRecipe].
  destruct (primaryOutput (def r)) as [out|] eqn:Hout; cbn [bind];
    [|discriminate].
  destruct (Set_has seen (key r)); [now intros [= <-]|].
  destruct (ingredientList (def r)) as [ins|]; cbn [bind]; [|discriminate].
  apply forEach_preserves; [|now apply Q_recipe].
  intros x s s' _ Hs. unfold Table.ingredientStep.
  destruct (Table.pushIngredient _ _ _ s) as [s1|] eqn:Hpush; cbn [bind];
    [|discriminate].
  pose proof (Q_push _ _ _ _ _ Hs Hpush) as Hs1.
  destruct (findRecipeForItem data (name x)) as [ir|] eqn:Hfind.
  - apply IH; auto. eapply findRecipeForItem_fromDataset; eauto.
  - intros [= <-]. apply Q_raw; auto.
Qed.

End TableInvariants.

Lemma rowsFromDataset_set data t k row :
  rowsFromDataset data t ->
  (exists r out, In (k, r) (recipes data) /\ primaryOutput r = Normal out /\
                 Table.r_produces row = name out) ->
  rowsFromDataset data
    {| Table.recipes := set (Table.recipes t) k row;
       Table.items := Table.items t;
       Table.rawMaterials := Table.rawMaterials t |}.
Proof.
  intros Ht Hrow k' row' Hin. cbn [Table.recipes] in Hin.
  apply set_In in Hin. destruct Hin as [[-> ->]|Hin]; auto.
Qed.

Lemma processRecipe_rowsFromDataset data fuel r rate seen t t' :
  fromDataset data r -> rowsFromDataset data t ->
  Table.processRecipe data fuel r rate seen t = Normal t' ->
  rowsFromDataset data t'.
Proof.
  apply processRecipe_preserves.
  - intros r0 out time machines rate0 t0 [Hin _] Hout Ht0.
    unfold Table.addProduced, Table.addRecipe. cbn [Table.recipes].
    intros k row Hkr. cbn [Table.recipes] in Hkr.
    destruct (get (Table.recipes t0) (key r0)) as [old|] eqn:E;
      apply set_In in Hkr; destruct Hkr as [[-> ->]|Hkr]; auto;
      cbn [Table.r_produces]; eauto.
    apply get_In in E. apply Ht0 in E. exact E.
  - intros k i v t0 t1 Ht0. unfold Table.pushIngredient.
    destruct (get (Table.recipes t0) k) as [old|] eqn:E; [|discriminate].
    intros [= <-]. apply rowsFromDataset_set; auto.
    cbn [Table.r_produces]. apply Ht0. now apply get_In.
  - intros k i v t0 Ht0. exact Ht0.
  - intros i v t0 _ Ht0. exact Ht0.
Qed.

Lemma produces_findRecipeForItem data k r itemName :
  In (k, r) (recipes data) -> produces r itemName = true ->
  findRecipeForItem data itemName <> None.
Proof.
  intros Hin Hp E. unfold findRecipeForItem in E.
  rewrite findRecipeIn_None in E. specialize (E _ Hin). simpl in E. congruence.
Qed.

Lemma primaryOutput_produces r out :
  primaryOutput r = Normal out -> produces r (name out) = true.
Proof.
  unfold primaryOutput, produces.
  destruct (results r) as [[|e rest]|]; try discriminate.
  intros [= ->]. simpl. now rewrite String.eqb_refl.
Qed.

(** X3. The finished table has one row per recipe key: no two rows of
    table.recipes carry the same name, every row is named after a recipe
    of the dataset and shows that recipe's primary output as what it
    produces, no raw material is listed twice, and no item is at once a
    raw material and the product of a row. *)
Theorem table_rows_and_raw_materials
  (data : factorioData) (itemName : string) (r : keyedRecipe) (rate : number)
  (tb : Table.table) :
  findRecipeForItem data itemName = Some r ->
  generateRecipeTable data r rate = Normal tb ->
  NoDup (map Table.r_name (Table.table_recipes tb)) /\
  (forall row,
     In row (Table.table_recipes tb) ->
     exists rc out,
       In (Table.r_name row, rc) (recipes data) /\
       primaryOutput rc = Normal out /\
       Table.r_produces row = name out) /\
  NoDup (map fst (Table.table_rawMaterials tb)) /\
  (forall row raw,
     In row (Table.table_recipes tb) ->
     In raw (Table.table_rawMaterials tb) ->
     Table.r_produces row <> fst raw).
Proof.
  intros Hfind. unfold generateRecipeTable.
  destruct (Table.processRecipe data (enoughFuel data) r rate [] Table.empty)
    as [t|] eqn:E; cbn [bind]; [|discriminate].
  intros [= <-]. cbn [Table.table_recipes Table.table_rawMaterials].
  pose proof (findRecipeForItem_fromDataset _ _ _ Hfind) as Hr.
  pose proof (processRecipe_extends data _ _ _ _ _ _ rowsNamed_empty E) as Hext.
  destruct (ext_named _ _ _ _ Hext rowsNamed_empty) as [Hnd Hnames].
  assert (Hfrom : rowsFromDataset data t).
  { eapply processRecipe_rowsFromDataset; eauto. intros k row []. }
  assert (HrawOnly : rawOnly data t).
  { apply (ext_rawOnly _ _ _ _ Hext). intros k Hk. discriminate. }
  assert (Hrawnd : NoDup (keys (Table.rawMaterials t))).
  { revert E. apply (processRecipe_preserves data
                       (fun s => NoDup (keys (Table.rawMaterials s)))); auto.
    - intros k i v t0 t1 H0. unfold Table.pushIngredient.
      destruct (get (Table.recipes t0) k); [|discriminate].
      now intros [= <-].
    - intros i v t0 _ H0. unfold Table.addRawMaterial.
      cbn [Table.rawMaterials]. now apply NoDup_keys_set.
    - constructor. }
  assert (Hrow : forall row, In row (values (Table.recipes t)) ->
            In (Table.r_name row, row) (Table.recipes t)).
  { intros row Hin. apply In_values in Hin. destruct Hin as [k Hin].
    now rewrite (Hnames _ _ Hin). }
  split; [|split; [|split]].
  - replace (map Table.r_name (values (Table.recipes t)))
      with (keys (Table.recipes t)); auto.
    unfold keys, values. rewrite map_map. apply map_ext_in.
    intros [k row] Hin. simpl. symmetry. now apply Hnames.
  - intros row Hin. apply Hrow in Hin. now apply Hfrom in Hin.
  - eapply Permutation_NoDup; [|exact Hrawnd].
    apply Permutation_map, Permutation_sym, Array_sort_Permutation.
  - intros row raw Hin Hraw Heq.
    apply Hrow, Hfrom in Hin. destruct Hin as (rc & out & Hrc & Hout & Hp).
    assert (Hkey : In (fst raw) (map fst (Table.table_rawMaterials
               {| Table.table_recipes := values (Table.recipes t);
                  Table.table_items := values (Table.items t);
                  Table.table_rawMaterials :=
                    Array_sort byDescendingRate (Table.rawMaterials t) |})))
      by (cbn [Table.table_rawMaterials]; now apply in_map).
    cbn [Table.table_rawMaterials] in Hkey.
    apply In_keys_Array_sort, has_keys, HrawOnly in Hkey.
    apply (produces_findRecipeForItem data _ _ (fst raw) Hrc); auto.
    rewrite <- Heq, Hp. now apply primaryOutput_produces.
Qed.

Lemma table_rows_and_raw_materials_witness :
  exists tb,
    generateRecipeTable Examples.sharedRaw Examples.keyedT 1 = Normal tb /\
    NoDup (map Table.r_name (Table.table_recipes tb)) /\
    NoDup (map fst (Table.table_rawMaterials tb)).
Proof.
  eexists. split; [vm_compute; reflexivity|].
  destruct (table_rows_and_raw_materials Examples.sharedRaw "T" Examples.keyedT
              1 _ eq_refl eq_refl) as (H1 & _ & H2 & _).
  split; [exact H1|exact H2].
Defined.

(** A key of [rawMaterials] was there before the call or is an ingredient
    that the call met. *)
Lemma processRecipe_raw_visited data fuel :
  forall r rate seen t t',
    Table.processRecipe data fuel r rate seen t = Normal t' ->
    forall i,
      has (Table.rawMaterials t') i = true ->
      has (Table.rawMaterials t) i = true \/
      In i (map fst (contributions data fuel r rate seen)).
Proof.
  induction fuel as [|fuel IH]; intros r rate seen t t'; [discriminate|].
  cbn [Table.processRecipe contributions].
  destruct (primaryOutput (def r)) as [out|]; cbn [bind]; [|discriminate].
  destruct (Set_has seen (key r)).
  { intros [= <-] i Hi. now left. }
  unfold ingredientList.
  destruct (ingredients (def r)) as [ins|]; cbn [bind]; [|discriminate].
  set (t1 := Table.addProduced _ _ _ _).
  change (Table.rawMaterials t) with (Table.rawMaterials t1).
  clearbody t1. revert t1.
  induction ins as [|x ins IHins]; intros s; cbn [forEach flat_map].
  - intros [= <-] i Hi. now left.
  - unfold Table.ingredientStep at 1.
    destruct (Table.pushIngredient _ _ _ s) as [s0|] eqn:Hpush; cbn [bind];
      [|discriminate].
    assert (Hraw0 : Table.rawMaterials s0 = Table.rawMaterials s).
    { revert Hpush. unfold Table.pushIngredient.
      destruct (get (Table.recipes s) (key r)); [|discriminate].
      now intros [= <-]. }
    rewrite map_app. cbn [map fst].
    destruct (findRecipeForItem data (name x)) as [ir|] eqn:Hfind.
    + destruct (Table.processRecipe data fuel ir _ _ _) as [s1|] eqn:Hrec;
        cbn [bind]; [|discriminate].
      intros Hrest i Hi.
      destruct (IHins _ Hrest i Hi) as [H|H].
      * destruct (IH _ _ _ _ _ Hrec i H) as [H'|H'].
        -- left. cbn [Table.addConsumed Table.rawMaterials] in H'.
           unfold Table.addConsumed in H'. cbn [Table.rawMaterials] in H'.
           now rewrite Hraw0 in H'.
        -- right. right. apply in_or_app. now left.
      * right. right. apply in_or_app. now right.
    + cbn [bind]. intros Hrest i Hi.
      destruct (IHins _ Hrest i Hi) as [H|H].
      * unfold Table.addRawMaterial, Table.addConsumed in H.
        cbn [Table.rawMaterials] in H. rewrite has_set, Hraw0 in H.
        apply orb_true_iff in H. destruct H as [H|H]; auto.
        apply String.eqb_eq in H. right. now left.
      * right. right. rewrite app_nil_l. exact H.
Qed.

(** X4. The table and the demand list agree on raw materials: an item is
    a raw material of the table exactly when it is listed in
    fullRequirements and has no producing recipe. *)
Theorem raw_materials_are_the_recipeless_demand
  (data : factorioData) (itemName : string) (r : keyedRecipe) (rate : number)
  (res : requirementsResult) (tb : Table.table) :
  findRecipeForItem data itemName = Some r ->
  calculateRequirements data r rate = Normal res ->
  generateRecipeTable data r rate = Normal tb ->
  forall i,
    In i (map fst (Table.table_rawMaterials tb)) <->
    In i (map fst (rq_fullRequirements res)) /\
    findRecipeForItem data i = None.
Proof.
  intros Hfind Hres Htb i.
  unfold calculateRequirements in Hres.
  destruct (primaryOutput (def r)) as [out|]; cbn [bind] in Hres;
    [|discriminate].
  destruct (ingredientList (def r)) as [ins|]; cbn [bind] in Hres;
    [|discriminate].
  destruct (calculateFullRequirements data (enoughFuel data) r rate [] [])
    as [totals|] eqn:Etotals; cbn [bind] in Hres; [|discriminate].
  injection Hres as <-. cbn [rq_fullRequirements].
  unfold generateRecipeTable in Htb.
  destruct (Table.processRecipe data (enoughFuel data) r rate [] Table.empty)
    as [t|] eqn:Et; cbn [bind] in Htb; [|discriminate].
  injection Htb as <-. cbn [Table.table_rawMaterials].
  pose proof (processRecipe_extends data _ _ _ _ _ _ rowsNamed_empty Et) as Hext.
  unfold finalRequirements.
  rewrite !In_keys_Array_sort, map_map. cbn [fst].
  change (map (fun x : string * number => fst x) totals) with (keys totals).
  change (map fst (Table.rawMaterials t)) with (keys (Table.rawMaterials t)).
  rewrite <- !has_keys.
  rewrite (calculateFullRequirements_contributions _ _ _ _ _ _ _ Etotals).
  rewrite fold_addRequirement_has.
  split.
  - intros Hi. split.
    + destruct (processRecipe_raw_visited data _ _ _ _ _ _ Et i Hi) as [H|H];
        [discriminate|now right].
    + apply (ext_rawOnly _ _ _ _ Hext); auto. intros k Hk. discriminate.
  - intros [[H|H] Hnone]; [discriminate|].
    eapply processRecipe_records_raw; eauto. apply rowsNamed_empty.
Qed.

Lemma raw_materials_are_the_recipeless_demand_witness :
  exists res tb,
    calculateRequirements Examples.sharedRaw Examples.keyedT 1 = Normal res /\
    generateRecipeTable Examples.sharedRaw Examples.keyedT 1 = Normal tb /\
    forall i,
      In i (map fst (Table.table_rawMaterials tb)) <->
      In i (map fst (rq_fullRequirements res)) /\
      findRecipeForItem Examples.sharedRaw i = None.
Proof.
  eexists. eexists.
  split; [vm_compute; reflexivity|]. split; [vm_compute; reflexivity|].
  apply (raw_materials_are_the_recipeless_demand Examples.sharedRaw "T"
           Examples.keyedT 1); reflexivity.
Defined.

(* ================================================================== *)
(** ** Further properties: the flow graph *)
(* ================================================================== *)

Lemma Math_max_floor v :
  PrimFloat.leb 0.01 (Math_max 0.01 v) = true \/
  is_nan (Math_max 0.01 v) = true.
Proof.
  unfold Math_max. destruct (PrimFloat.leb 0.01 v) eqn:E; [now left|].
  destruct (is_nan 0.01 || is_nan v); [right|left]; reflexivity.
Qed.

Lemma flowInvariant_empty : flowInvariant Sankey.empty.
Proof.
  constructor; simpl; auto; try (intros ? []).
  - intros n. reflexivity.
  - constructor.
Qed.

Lemma flow_addNode n ty st i st' :
  flowInvariant st -> ty <> Sankey.rawType ->
  Sankey.addNode n ty st = (i, st') ->
  flowInvariant st' /\
  (i < List.length (Sankey.nodes st'))%nat /\
  (List.length (Sankey.nodes st) <= List.length (Sankey.nodes st'))%nat.
Proof.
  intros Hinv Hty E.
  destruct (addNode_spec _ _ _ _ _ (flow_map _ Hinv) Hty E) as (Hc & Hi & _).
  assert (Hlt : (i < List.length (Sankey.nodes st'))%nat).
  { rewrite Hc in Hi. apply indexOf_Some_lt in Hi.
    now rewrite length_map in Hi. }
  destruct Hinv as [Hm Hnames Hids Hlinks Hvalues].
  unfold Sankey.addNode in E.
  destruct (get (Sankey.nodeMap st) n) as [j|] eqn:Eg.
  - injection E as <- <-. split; [constructor; auto|]. split; auto.
  - injection E as <- <-.
    cbn [Sankey.nodes Sankey.links Sankey.nodeMap] in *.
    split; [constructor; cbn [Sankey.nodes Sankey.links Sankey.nodeMap]; auto|].
    + rewrite map_app. cbn [map Sankey.node_name]. apply NoDup_app; auto.
      * constructor; [intros []|constructor].
      * intros x Hx [<-|[]]. rewrite Hm in Eg. apply indexOf_None in Eg.
        contradiction.
    + rewrite map_app, length_app, seq_app, Hids. reflexivity.
    + intros l Hl. rewrite length_app. specialize (Hlinks l Hl). lia.
    + rewrite length_app in *. cbn [List.length] in *. lia.
Qed.

Lemma flow_addLink s t v st :
  flowInvariant st ->
  (s < List.length (Sankey.nodes st))%nat ->
  (t < List.length (Sankey.nodes st))%nat ->
  flowInvariant (Sankey.addLink s t v st).
Proof.
  intros [Hm Hnames Hids Hlinks Hvalues] Hs Ht.
  constructor; cbn [Sankey.addLink Sankey.nodes Sankey.links Sankey.nodeMap];
    auto.
  - intros l Hl. apply in_app_or in Hl. destruct Hl as [Hl|[<-|[]]]; auto.
  - intros l Hl. apply in_app_or in Hl. destruct Hl as [Hl|[<-|[]]]; auto.
    apply Math_max_floor.
Qed.

Lemma setRaw_shape :
  forall ns i ns',
    Sankey.setRaw i ns = Normal ns' ->
    map Sankey.node_name ns' = map Sankey.node_name ns /\
    map Sankey.node_id ns' = map Sankey.node_id ns.
Proof.
  induction ns as [|n ns IH]; intros i ns'; [destruct i; discriminate|].
  destruct i as [|i]; cbn [Sankey.setRaw].
  - intros [= <-]. split; reflexivity.
  - destruct (Sankey.setRaw i ns) as [ns0|] eqn:E; cbn [bind]; [|discriminate].
    intros [= <-]. destruct (IH _ _ E) as [H1 H2]. cbn [map].
    now rewrite H1, H2.
Qed.

Lemma flow_markRaw i st st' :
  flowInvariant st -> Sankey.markRaw i st = Normal st' ->
  flowInvariant st' /\
  List.length (Sankey.nodes st') = List.length (Sankey.nodes st).
Proof.
  intros [Hm Hnames Hids Hlinks Hvalues]. unfold Sankey.markRaw.
  destruct (Sankey.setRaw i (Sankey.nodes st)) as [ns|] eqn:E; cbn [bind];
    [|discriminate].
  intros [= <-]. destruct (setRaw_shape _ _ _ E) as [H1 H2].
  assert (Hlen : List.length ns = List.length (Sankey.nodes st)).
  { rewrite <- (length_map Sankey.node_name ns), H1. apply length_map. }
  split; [|exact Hlen].
  constructor; cbn [Sankey.nodes Sankey.links Sankey.nodeMap]; auto.
  - intros n. cbn [Sankey.nodes Sankey.nodeMap]. rewrite H1. apply Hm.
  - now rewrite H1.
  - now rewrite H2, Hlen.
  - intros l Hl. rewrite Hlen. auto.
Qed.

(** Every call of [buildSankeyData] that completes keeps the graph well
    formed and drops no node. *)
Lemma buildSankeyData_invariant data depth fuel :
  forall r rate cd visited st st',
    flowInvariant st ->
    Sankey.buildSankeyData data depth fuel r rate cd visited st = Normal st' ->
    flowInvariant st' /\
    (List.length (Sankey.nodes st) <= List.length (Sankey.nodes st'))%nat.
Proof.
  induction fuel as [|fuel IH]; intros r rate cd visited st st' Hinv;
    [discriminate|].
  cbn [Sankey.buildSankeyData].
  destruct (Nat.ltb depth cd); [intros [= <-]; auto|].
  destruct (primaryOutput (def r)) as [out|]; cbn [bind]; [|discriminate].
  destruct (Set_has visited (key r)); [intros [= <-]; auto|].
  destruct (Sankey.addNode (Sankey.recipeLabel (key r)) Sankey.recipeType st)
    as [i1 st1] eqn:E1.
  destruct (flow_addNode _ _ _ _ _ Hinv recipeType_not_raw E1)
    as (Hinv1 & Hi1 & Hle1).
  destruct (Sankey.addNode (name out) Sankey.itemType st1) as [i2 st2] eqn:E2.
  destruct (flow_addNode _ _ _ _ _ Hinv1 itemType_not_raw E2)
    as (Hinv2 & Hi2 & Hle2).
  destruct (ingredientList (def r)) as [ins|]; cbn [bind]; [|discriminate].
  assert (Hinv3 : flowInvariant (Sankey.addLink i1 i2 rate st2))
    by (apply flow_addLink; auto; lia).
  assert (Hi3 : (i1 < List.length
                       (Sankey.nodes (Sankey.addLink i1 i2 rate st2)))%nat)
    by (cbn [Sankey.addLink Sankey.nodes]; lia).
  intros Hloop.
  cut (flowInvariant st' /\
       (List.length (Sankey.nodes (Sankey.addLink i1 i2 rate st2))
        <= List.length (Sankey.nodes st'))%nat).
  { cbn [Sankey.addLink Sankey.nodes]. intros [H1 H2]. split; auto. lia. }
  revert Hinv3 Hi3 Hloop. generalize (Sankey.addLink i1 i2 rate st2).
  clear E1 E2 Hinv Hinv1 Hinv2 Hi1 Hi2 Hle1 Hle2 st st1 st2.
  induction ins as [|x ins IHins]; intros s Hs Hi; cbn [forEach].
  - intros [= <-]. auto.
  - unfold Sankey.ingredientStep at 1.
    destruct (Sankey.addNode (name x) Sankey.itemType s) as [i3 s1] eqn:E3.
    destruct (flow_addNode _ _ _ _ _ Hs itemType_not_raw E3)
      as (Hs1 & Hi3 & Hle3).
    assert (Hs2 : flowInvariant
                    (Sankey.addLink i3 i1
                       (ingredientRateOf x rate (or_default (amount out) 1))
                       s1))
      by (apply flow_addLink; auto; lia).
    set (s2 := Sankey.addLink i3 i1 _ s1) in *.
    assert (Hlen2 : List.length (Sankey.nodes s2) = List.length (Sankey.nodes s1))
      by reflexivity.
    destruct (Nat.ltb cd depth).
    + destruct (findRecipeForItem data (name x)) as [ir|].
      * destruct (Sankey.buildSankeyData data depth fuel ir _ _ _ s2)
          as [s3|] eqn:Erec; cbn [bind]; [|discriminate].
        destruct (IH _ _ _ _ _ _ Hs2 Erec) as (Hs3 & Hle).
        intros Hrest. destruct (IHins s3 Hs3 ltac:(lia) Hrest) as (H1 & H2).
        split; auto. lia.
      * destruct (Sankey.markRaw i3 s2) as [s3|] eqn:Eraw; cbn [bind];
          [|discriminate].
        destruct (flow_markRaw _ _ _ Hs2 Eraw) as (Hs3 & Hlen3).
        intros Hrest. destruct (IHins s3 Hs3 ltac:(lia) Hrest) as (H1 & H2).
        split; auto. lia.
    + cbn [bind]. intros Hrest.
      destruct (IHins s2 Hs2 ltac:(lia) Hrest) as (H1 & H2).
      split; auto. lia.
Qed.

(** X5. A flow graph that generateSankeyData returns is well formed:
    node names are not repeated, every node carries its position in the
    node list as id, every link joins two positions of the node list, and
    every link value is at least 0.01 (or NaN, for a NaN rate). *)
Theorem flow_graph_well_formed
  (data : factorioData) (depth : nat) (r : keyedRecipe) (rate : number)
  (g : Sankey.graph) :
  generateSankeyData data depth r rate = Normal g ->
  NoDup (map Sankey.node_name (Sankey.graph_nodes g)) /\
  map Sankey.node_id (Sankey.graph_nodes g)
    = seq 0 (List.length (Sankey.graph_nodes g)) /\
  (forall l, In l (Sankey.graph_links g) ->
     (Sankey.source l < List.length (Sankey.graph_nodes g))%nat /\
     (Sankey.target l < List.length (Sankey.graph_nodes g))%nat) /\
  (forall l, In l (Sankey.graph_links g) ->
     PrimFloat.leb 0.01 (Sankey.value l) = true \/
     is_nan (Sankey.value l) = true).
Proof.
  unfold generateSankeyData.
  destruct (Sankey.buildSankeyData data depth (S depth) r rate 0 []
              Sankey.empty) as [st|] eqn:E; cbn [bind]; [|discriminate].
  intros [= <-]. cbn [Sankey.graph_nodes Sankey.graph_links].
  destruct (buildSankeyData_invariant _ _ _ _ _ _ _ _ _ flowInvariant_empty E)
    as ([Hm Hnames Hids Hlinks Hvalues] & _).
  auto.
Qed.

Lemma flow_graph_well_formed_witness :
  exists g,
    generateSankeyData Examples.sharedRaw 3 Examples.keyedT 1 = Normal g /\
    NoDup (map Sankey.node_name (Sankey.graph_nodes g)) /\
    map Sankey.node_id (Sankey.graph_nodes g)
      = seq 0 (List.length (Sankey.graph_nodes g)) /\
    (forall l, In l (Sankey.graph_links g) ->
       (Sankey.source l < List.length (Sankey.graph_nodes g))%nat /\
       (Sankey.target l < List.length (Sankey.graph_nodes g))%nat) /\
    (forall l, In l (Sankey.graph_links g) ->
       PrimFloat.leb 0.01 (Sankey.value l) = true \/
       is_nan (Sankey.value l) = true).
Proof.
  eexists. split; [vm_compute; reflexivity|].
  apply (flow_graph_well_formed Examples.sharedRaw 3 Examples.keyedT 1).
  reflexivity.
Defined.

(* ================================================================== *)
(** ** Node types in the flow view *)
(* ================================================================== *)

Lemma isLabel_recipeLabel k : isLabel (Sankey.recipeLabel k) = true.
Proof. unfold isLabel, Sankey.recipeLabel. simpl. now destruct k. Qed.

Lemma noLabelNames_spec data r :
  noLabelNames data = true -> fromDataset data r ->
  (forall e, In e (resultEntries (def r)) -> isLabel (name e) = false) /\
  (forall e, In e (ingredientEntries (def r)) -> isLabel (name e) = false).
Proof.
  unfold noLabelNames. rewrite forallb_forall. intros H [Hin _].
  specialize (H _ Hin). cbn [snd] in H. apply andb_true_iff in H.
  destruct H as [H1 H2]. rewrite forallb_forall in H1, H2.
  split; intros e He; [specialize (H1 e He)|specialize (H2 e He)];
    now apply negb_true_iff.
Qed.

Lemma typeOf_In ns nd :
  NoDup (map Sankey.node_name ns) -> In nd ns ->
  typeOf ns (Sankey.node_name nd) = Some (Sankey.node_type nd).
Proof.
  unfold typeOf. induction ns as [|x ns IH]; intros Hnd; [intros []|].
  cbn [map] in Hnd. inversion Hnd as [|? ? Hx Hns]; subst.
  intros [->|Hin]; cbn [find].
  - now rewrite String.eqb_refl.
  - destruct (String.eqb (Sankey.node_name x) (Sankey.node_name nd)) eqn:E;
      [|auto].
    apply String.eqb_eq in E. exfalso. apply Hx. rewrite E.
    now apply in_map.
Qed.

Lemma typeOf_named ns n : In n (map Sankey.node_name ns) ->
  exists ty, typeOf ns n = Some ty.
Proof.
  unfold typeOf. induction ns as [|x ns IH]; [intros []|].
  cbn [map find]. intros [H|H].
  - rewrite H, String.eqb_refl. simpl. eauto.
  - destruct (String.eqb (Sankey.node_name x) n); simpl; eauto.
Qed.

Lemma labelsTyped_empty : labelsTyped Sankey.empty.
Proof. split; [intros n; reflexivity|intros n ty; discriminate]. Qed.

Lemma labelsTyped_addNode n ty st i st' :
  labelsTyped st -> ty <> Sankey.rawType ->
  (ty = Sankey.recipeType <-> isLabel n = true) ->
  Sankey.addNode n ty st = (i, st') ->
  labelsTyped st' /\
  get (Sankey.nodeMap st') n = Some i /\
  In n (nodeNames st') /\
  (forall m, In m (nodeNames st) -> In m (nodeNames st')).
Proof.
  intros [Hc Hty] Hraw Hlabel E.
  destruct (addNode_spec _ _ _ _ _ Hc Hraw E) as (Hc' & Hi & _ & _).
  assert (Hin : In n (nodeNames st')).
  { unfold nodeNames. rewrite Hc' in Hi.
    destruct (in_dec string_dec n (map Sankey.node_name (Sankey.nodes st')))
      as [H|H]; [exact H|].
    apply indexOf_None in H. congruence. }
  split; [|split; [exact Hi|split; [exact Hin|]]].
  - split; [exact Hc'|]. unfold Sankey.addNode in E.
    destruct (get (Sankey.nodeMap st) n) as [j|].
    + injection E as <- <-. exact Hty.
    + injection E as <- <-. cbn [Sankey.nodes]. intros m tm.
      rewrite typeOf_app. cbn [Sankey.node_name Sankey.node_type].
      destruct (typeOf (Sankey.nodes st) m) as [t0|] eqn:E0.
      * intros [= <-]. now apply Hty.
      * destruct (String.eqb n m) eqn:Enm; [|discriminate].
        apply String.eqb_eq in Enm. subst m. intros [= <-]. exact Hlabel.
  - unfold Sankey.addNode in E.
    destruct (get (Sankey.nodeMap st) n) as [j|].
    + injection E as <- <-. auto.
    + injection E as <- <-. unfold nodeNames. cbn [Sankey.nodes].
      intros m Hm. rewrite map_app. apply in_or_app. now left.
Qed.

Lemma labelsTyped_markRaw n i st st' :
  labelsTyped st -> isLabel n = false ->
  get (Sankey.nodeMap st) n = Some i ->
  Sankey.markRaw i st = Normal st' ->
  labelsTyped st' /\ nodeNames st' = nodeNames st.
Proof.
  intros [Hc Hty] Hn Hi. rewrite Hc in Hi.
  destruct (setRaw_spec n _ _ Hi) as (ns' & E & Hnames & Htypes).
  unfold Sankey.markRaw. rewrite E. cbn [bind]. intros [= <-].
  unfold nodeNames. cbn [Sankey.nodes]. split; [|exact Hnames].
  split.
  - intros m. cbn [Sankey.nodes Sankey.nodeMap]. rewrite Hnames. apply Hc.
  - cbn [Sankey.nodes]. intros m tm. rewrite Htypes.
    destruct (String.eqb n m) eqn:Enm; [|apply Hty].
    apply String.eqb_eq in Enm. subst m. intros [= <-].
    rewrite Hn. split; discriminate.
Qed.

(** Every call of [buildSankeyData] that completes, on a dataset without
    label-like item names, keeps names and types in agreement, drops no
    node, and leaves a node for every ingredient it visits. *)
Lemma buildSankeyData_types data depth fuel :
  noLabelNames data = true ->
  forall r rate cd visited st st',
    fromDataset data r -> labelsTyped st ->
    Sankey.buildSankeyData data depth fuel r rate cd visited st = Normal st' ->
    labelsTyped st' /\
    (forall n, In n (nodeNames st) -> In n (nodeNames st')) /\
    (forall n d, In (n, d) (visits data depth fuel r cd visited) ->
                 In n (nodeNames st') /\ isLabel n = false).
Proof.
  intros Hno.
  induction fuel as [|fuel IH]; intros r rate cd visited st st' Hr Hst;
    [discriminate|].
  cbn [Sankey.buildSankeyData visits].
  destruct (Nat.ltb depth cd);
    [intros [= <-]; split; [auto|split; [auto|intros n d []]]|].
  destruct (noLabelNames_spec _ _ Hno Hr) as [Hres Hings].
  destruct (primaryOutput (def r)) as [out|] eqn:Hout; cbn [bind];
    [|discriminate].
  assert (Hname : isLabel (name out) = false).
  { apply Hres. unfold primaryOutput in Hout. unfold resultEntries.
    destruct (results (def r)) as [[|e rest]|]; try discriminate.
    injection Hout as <-. now left. }
  unfold ingredientList. unfold ingredientEntries in Hings.
  destruct (ingredients (def r)) as [ins|];
    [|destruct (Set_has visited (key r));
      [intros [= <-]; split; [auto|split; [auto|intros n d []]]
      |destruct (Sankey.addNode _ _ st) as [i1 st1];
       destruct (Sankey.addNode _ _ st1) as [i2 st2]; discriminate]].
  destruct (Set_has visited (key r));
    [intros [= <-]; split; [auto|split; [auto|intros n d []]]|].
  destruct (Sankey.addNode (Sankey.recipeLabel (key r)) Sankey.recipeType st)
    as [i1 st1] eqn:E1.
  destruct (labelsTyped_addNode _ _ _ _ _ Hst recipeType_not_raw
              ltac:(split; [intros _; apply isLabel_recipeLabel|reflexivity])
              E1) as (Hst1 & _ & _ & Hmono1).
  destruct (Sankey.addNode (name out) Sankey.itemType st1) as [i2 st2] eqn:E2.
  destruct (labelsTyped_addNode _ _ _ _ _ Hst1 itemType_not_raw
              ltac:(rewrite Hname; split; discriminate) E2)
    as (Hst2 & _ & _ & Hmono2).
  cbn [bind]. intros Hloop.
  cut (labelsTyped st' /\
       (forall n, In n (nodeNames (Sankey.addLink i1 i2 rate st2)) ->
                  In n (nodeNames st')) /\
       (forall n d,
          In (n, d)
            (flat_map
               (fun ingredient =>
                  (name ingredient, cd) ::
                  (if Nat.ltb cd depth
                   then match findRecipeForItem data (name ingredient) with
                        | Some ingredientRecipe =>
                            visits data depth fuel ingredientRecipe (S cd)
                              (Set_add visited (key r))
                        | None => []
                        end
                   else [])) ins) ->
          In n (nodeNames st') /\ isLabel n = false)).
  { intros (H1 & H2 & H3). split; [exact H1|]. split; [|exact H3].
    intros n Hn. apply H2. apply Hmono2, Hmono1, Hn. }
  assert (Hst3 : labelsTyped (Sankey.addLink i1 i2 rate st2)) by exact Hst2.
  revert Hst3 Hloop. generalize (Sankey.addLink i1 i2 rate st2).
  clear E1 E2 Hst Hst1 Hst2 Hmono1 Hmono2 st st1 st2.
  induction ins as [|x ins IHins]; intros s Hs; cbn [forEach flat_map].
  - intros [= <-]. split; [auto|split; [auto|intros n d []]].
  - assert (Hx : isLabel (name x) = false) by (apply Hings; now left).
    assert (Hings' : forall e, In e ins -> isLabel (name e) = false)
      by (intros e He; apply Hings; now right).
    specialize (IHins Hings').
    unfold Sankey.ingredientStep at 1.
    destruct (Sankey.addNode (name x) Sankey.itemType s) as [i3 s1] eqn:E3.
    destruct (labelsTyped_addNode _ _ _ _ _ Hs itemType_not_raw
                ltac:(rewrite Hx; split; discriminate) E3)
      as (Hs1 & Hi3 & Hin3 & Hmono3).
    set (s2 := Sankey.addLink i3 i1
                 (ingredientRateOf x rate (or_default (amount out) 1)) s1).
    assert (Hs2 : labelsTyped s2) by exact Hs1.
    assert (Hnames2 : nodeNames s2 = nodeNames s1) by reflexivity.
    assert (Hfinish : forall s3,
      labelsTyped s3 ->
      (forall n, In n (nodeNames s2) -> In n (nodeNames s3)) ->
      forall vs,
        (forall n d, In (n, d) vs ->
                     In n (nodeNames s3) /\ isLabel n = false) ->
        forEach ins
          (Sankey.ingredientStep data depth
             (Sankey.buildSankeyData data depth fuel) i1 rate
             (or_default (amount out) 1) cd (Set_add visited (key r))) s3
        = Normal st' ->
        labelsTyped st' /\
        (forall n, In n (nodeNames s) -> In n (nodeNames st')) /\
        (forall n d,
           In (n, d)
             (((name x, cd) :: vs) ++
              flat_map
                (fun ingredient =>
                   (name ingredient, cd) ::
                   (if Nat.ltb cd depth
                    then match findRecipeForItem data (name ingredient) with
                         | Some ingredientRecipe =>
                             visits data depth fuel ingredientRecipe (S cd)
                               (Set_add visited (key r))
                         | None => []
                         end
                    else [])) ins) ->
           In n (nodeNames st') /\ isLabel n = false)).
    { intros s3 Hs3 Hmono vs Hvs Hrest.
      destruct (IHins s3 Hs3 Hrest) as (H1 & H2 & H3).
      split; [exact H1|]. split.
      - intros n Hn. apply H2, Hmono. rewrite Hnames2. now apply Hmono3.
      - intros n d Hnd. apply in_app_or in Hnd.
        destruct Hnd as [[Hnd|Hnd]|Hnd].
        + injection Hnd as <- _. split; [|exact Hx].
          apply H2, Hmono. now rewrite Hnames2.
        + destruct (Hvs n d Hnd) as [Hn Hl]. split; [now apply H2|exact Hl].
        + eapply H3; eauto. }
    destruct (Nat.ltb cd depth).
    + destruct (findRecipeForItem data (name x)) as [ir|] eqn:Hfind.
      * destruct (Sankey.buildSankeyData data depth fuel ir _ _ _ s2)
          as [s3|] eqn:Erec; cbn [bind]; [|discriminate].
        destruct (IH _ _ _ _ _ _
                    (findRecipeForItem_fromDataset _ _ _ Hfind) Hs2 Erec)
          as (Hs3 & Hmono & Hvs).
        apply (Hfinish s3 Hs3 Hmono _ Hvs).
      * destruct (Sankey.markRaw i3 s2) as [s3|] eqn:Eraw; cbn [bind];
          [|discriminate].
        destruct (labelsTyped_markRaw (name x) _ _ _ Hs2 Hx Hi3 Eraw)
          as (Hs3 & Hnames3).
        apply (Hfinish s3 Hs3); [now rewrite Hnames3|intros n d []].
    + cbn [bind]. apply (Hfinish s2 Hs2); [auto|intros n d []].
Qed.

(** C9, as the code has it. For a dataset in which every recipe lists
    its ingredients and a target with a recipe, generateSankeyData
    returns a graph in which each name has one node, and a node is typed
    'raw' exactly when its item has no producing recipe and is met as an
    ingredient at least once strictly below the depth limit: the label
    is written at each such visit, also on a node that exists already,
    and is never taken back. When moreover no item of the dataset is
    named like a recipe label ("Recipe: ..."), the type of every node is
    fixed by its name and by the set of ingredient visits, whatever
    their order: 'recipe' for a recipe label, 'raw' for an item with
    such a visit, 'item' for every other item; in particular an item
    that has a node, or is met as an ingredient, but never below the
    depth limit, keeps type 'item'. *)
Theorem flow_node_types
  (data : factorioData) (itemName : string) (r : keyedRecipe) (rate : number)
  (depth : nat) :
  wellFormed data = true ->
  findRecipeForItem data itemName = Some r ->
  exists g,
    generateSankeyData data depth r rate = Normal g /\
    (forall nd, In nd (Sankey.graph_nodes g) ->
       typeOf (Sankey.graph_nodes g) (Sankey.node_name nd)
       = Some (Sankey.node_type nd)) /\
    (forall n,
       typeOf (Sankey.graph_nodes g) n = Some Sankey.rawType <->
       rawVisit data depth (visits data depth (S depth) r 0 []) n) /\
    (noLabelNames data = true ->
     (forall n ty,
        typeOf (Sankey.graph_nodes g) n = Some ty ->
        (isLabel n = true -> ty = Sankey.recipeType) /\
        (isLabel n = false ->
         ~ rawVisit data depth (visits data depth (S depth) r 0 []) n ->
         ty = Sankey.itemType)) /\
     (forall n d,
        In (n, d) (visits data depth (S depth) r 0 []) ->
        (forall d', In (n, d') (visits data depth (S depth) r 0 []) ->
                    d' = depth) ->
        typeOf (Sankey.graph_nodes g) n = Some Sankey.itemType)).
Proof.
  intros Hwf Hfind.
  pose proof (findRecipeForItem_fromDataset _ _ _ Hfind) as Hr.
  destruct (generateSankeyData_root data depth r rate Hwf Hr)
    as (g & tgt & rest & E & _ & Hraw).
  exists g. split; [exact E|].
  unfold generateSankeyData in E.
  destruct (Sankey.buildSankeyData data depth (S depth) r rate 0 []
              Sankey.empty) as [st|] eqn:Est; cbn [bind] in E;
    [|discriminate].
  injection E as <-. cbn [Sankey.graph_nodes] in *.
  destruct (buildSankeyData_invariant _ _ _ _ _ _ _ _ _ flowInvariant_empty
              Est) as [[_ Hnames _ _ _] _].
  split; [intros nd Hnd; now apply typeOf_In|]. split; [exact Hraw|].
  intros Hno.
  destruct (buildSankeyData_types data depth (S depth) Hno _ _ _ _ _ _ Hr
              labelsTyped_empty Est) as ([_ Hty] & _ & Hvisits).
  assert (Htypes : forall n ty,
    typeOf (Sankey.nodes st) n = Some ty ->
    (isLabel n = true -> ty = Sankey.recipeType) /\
    (isLabel n = false ->
     ~ rawVisit data depth (visits data depth (S depth) r 0 []) n ->
     ty = Sankey.itemType)).
  { intros n ty Hn. pose proof (Hty n ty Hn) as Hlabel. split.
    - intros Hl. now apply Hlabel.
    - intros Hl Hnot. destruct ty; auto.
      + destruct Hlabel as [Hlabel _]. rewrite Hlabel in Hl by reflexivity.
        discriminate.
      + exfalso. apply Hnot. now apply Hraw. }
  split; [exact Htypes|].
  intros n d Hnd Honly.
  destruct (Hvisits n d Hnd) as [Hin Hl].
  destruct (typeOf_named (Sankey.nodes st) n Hin) as [ty Hn].
  rewrite Hn. f_equal. apply (Htypes n ty Hn); [exact Hl|].
  intros (_ & d' & Hd' & Hlt). apply Honly in Hd'. lia.
Qed.

Lemma flow_node_types_witness :
  wellFormed Examples.deepOnly = true /\
  noLabelNames Examples.deepOnly = true /\
  exists g,
    generateSankeyData Examples.deepOnly 3
      {| key := "t";
         def := Examples.make [Examples.item "A" 1] [Examples.item "T" 1] |} 1
      = Normal g /\
    typeOf (Sankey.graph_nodes g) "R" = Some Sankey.itemType.
Proof.
  split; [reflexivity|]. split; [reflexivity|].
  destruct (flow_node_types Examples.deepOnly "T"
              {| key := "t";
                 def := Examples.make [Examples.item "A" 1]
                          [Examples.item "T" 1] |} 1 3 eq_refl eq_refl)
    as (g & E & _ & _ & Htypes).
  exists g. split; [exact E|].
  destruct (Htypes eq_refl) as [_ Honly].
  apply (Honly "R" 3%nat).
  - cbv. tauto.
  - intros d'. cbv. intros H.
    repeat (destruct H as [H|H]; [try discriminate H|]);
      [now injection H|destruct H].
Defined.

(* ================================================================== *)
(** ** Further properties: the tree *)
(* ================================================================== *)

(** X6. The tree is labelled from the dataset. Its root names the first
    result of the recipe and carries the recipe's key and the requested
    rate unrounded. With depth 0 the root has no children; otherwise it has
    one child per ingredient, in the recipe's order, each named after its
    ingredient and carrying the ingredient's rate rounded to two decimals.
    Below the root, a raw node always names an item that no recipe
    produces, and every other node carries the key of the first recipe
    that produces its item. *)
Theorem tree_labelled_from_dataset
  (data : factorioData) (depth : nat) (r : keyedRecipe) (rate : number)
  (t : treeNode) :
  generateRecipeTree data depth r rate = Normal t ->
  exists out machines time children,
    primaryOutput (def r) = Normal out /\
    t = Crafted (name out) (key r) rate machines time children /\
    forallb (labelled data) children = true /\
    match depth with
    | O => children = []
    | S _ =>
        exists ins,
          ingredients (def r) = Some ins /\
          map (fun c => (itemOf c, rootRate c)) children =
          map (fun i =>
                 (name i,
                  round2 (ingredientRateOf i rate (or_default (amount out) 1))))
            ins
    end.
Proof.
  revert r rate t.
  induction depth as [|depth IH]; intros r rate t; cbn [generateRecipeTree];
    destruct (primaryOutput (def r)) as [out|]; cbn [bind]; try discriminate.
  - intros [= <-]. repeat eexists.
  - unfold ingredientList.
    destruct (ingredients (def r)) as [ins|]; cbn [bind]; [|discriminate].
    match goal with
    | |- context [forEach ins ?f []] => set (step := f)
    end.
    assert (Hloop : forall l acc children,
              forEach l step acc = Normal children ->
              exists more,
                children = acc ++ more /\
                forallb (labelled data) more = true /\
                map (fun c => (itemOf c, rootRate c)) more =
                map (fun i =>
                       (name i,
                        round2 (ingredientRateOf i rate
                                  (or_default (amount out) 1)))) l).
    { induction l as [|x l IHl]; intros acc children; cbn [forEach].
      - intros [= <-]. exists []. now rewrite app_nil_r.
      - unfold step at 1.
        destruct (findRecipeForItem data (name x)) as [ir|] eqn:Hfind.
        + destruct (generateRecipeTree data depth ir _) as [sub|] eqn:Hsub;
            cbn [bind]; [|discriminate].
          destruct (IH _ _ _ Hsub) as (o & m & tm & cs & _ & -> & Hcs & _).
          cbn [assignSubTree]. intros Hrest.
          destruct (IHl _ _ Hrest) as (more & -> & Hmore & Hmap).
          eexists (_ :: more). rewrite <- app_assoc. split; [reflexivity|].
          split.
          * cbn [forallb labelled]. rewrite Hfind, String.eqb_refl, Hcs, Hmore.
            reflexivity.
          * cbn [map itemOf rootRate]. now rewrite Hmap.
        + cbn [bind]. intros Hrest.
          destruct (IHl _ _ Hrest) as (more & -> & Hmore & Hmap).
          eexists (_ :: more). rewrite <- app_assoc. split; [reflexivity|].
          split.
          * cbn [forallb labelled]. now rewrite Hfind, Hmore.
          * cbn [map itemOf rootRate]. now rewrite Hmap. }
    destruct (forEach ins step []) as [children|] eqn:Hchildren; cbn [bind];
      [|discriminate].
    intros [= <-].
    destruct (Hloop _ _ _ Hchildren) as (more & -> & Hmore & Hmap).
    cbn [app]. repeat eexists; eauto.
Qed.

Lemma tree_labelled_from_dataset_witness :
  exists t out machines time children,
    generateRecipeTree Examples.sharedRaw 5 Examples.keyedT 1 = Normal t /\
    primaryOutput (def Examples.keyedT) = Normal out /\
    t = Crafted (name out) (key Examples.keyedT) 1 machines time children /\
    forallb (labelled Examples.sharedRaw) children = true /\
    exists ins,
      ingredients (def Examples.keyedT) = Some ins /\
      map (fun c => (itemOf c, rootRate c)) children =
      map (fun i =>
             (name i,
              round2 (ingredientRateOf i 1 (or_default (amount out) 1))))
        ins.
Proof.
  eexists.
  destruct (tree_labelled_from_dataset Examples.sharedRaw 5 Examples.keyedT 1
              _ eq_refl) as (out & m & tm & cs & H).
  exists out, m, tm, cs. split; [reflexivity|exact H].
Defined.

(* ================================================================== *)
(** ** Further properties: the complete graph *)
(* ================================================================== *)

Lemma idAt_app ns more k i :
  Graph.idAt ns k = Normal i -> Graph.idAt (ns ++ more) k = Normal i.
Proof.
  unfold Graph.idAt. destruct (nth_error ns k) as [n|] eqn:E; [|discriminate].
  intros [= <-]. rewrite nth_error_app1; [now rewrite E|].
  apply nth_error_Some. congruence.
Qed.

Lemma resolveLinks_more ns more f ls :
  forall out,
    Graph.resolveLinks ns f ls = Normal out ->
    Graph.resolveLinks (ns ++ more) f ls = Normal out.
Proof.
  induction ls as [|l ls IH]; intros out; cbn [Graph.resolveLinks]; auto.
  destruct (Graph.idAt ns (Graph.sourceIndex l)) as [s|] eqn:Es; cbn [bind];
    [|discriminate].
  destruct (Graph.idAt ns (Graph.targetIndex l)) as [t|] eqn:Et; cbn [bind];
    [|discriminate].
  destruct (Graph.resolveLinks ns f ls) as [rest|] eqn:Er; cbn [bind];
    [|discriminate].
  intros [= <-].
  rewrite (idAt_app _ more _ _ Es), (idAt_app _ more _ _ Et), (IH _ eq_refl).
  reflexivity.
Qed.

Lemma resolveLinks_snoc ns f ls l s t :
  forall out,
    Graph.resolveLinks ns f ls = Normal out ->
    Graph.idAt ns (Graph.sourceIndex l) = Normal s ->
    Graph.idAt ns (Graph.targetIndex l) = Normal t ->
    Graph.resolveLinks ns f (ls ++ [l]) =
    Normal (out ++ [{| Graph.source := s; Graph.target := t;
                       Graph.link_rel := Graph.rel l;
                       Graph.link_amount := f (Graph.amt l) |}]).
Proof.
  intros out Hout Hs Ht. revert out Hout.
  induction ls as [|l0 ls IH]; intros out; cbn [Graph.resolveLinks app].
  - intros [= <-]. rewrite Hs, Ht. reflexivity.
  - destruct (Graph.idAt ns (Graph.sourceIndex l0)) as [s0|]; cbn [bind];
      [|discriminate].
    destruct (Graph.idAt ns (Graph.targetIndex l0)) as [t0|]; cbn [bind];
      [|discriminate].
    destruct (Graph.resolveLinks ns f ls) as [rest|]; cbn [bind];
      [|discriminate].
    intros [= <-]. rewrite (IH _ eq_refl). reflexivity.
Qed.

Lemma indexOf_nth_error i l :
  forall k, indexOf i l = Some k -> nth_error l k = Some i.
Proof.
  induction l as [|x l IH]; intros k; simpl; [discriminate|].
  destruct (String.eqb x i) eqn:E.
  - intros [= <-]. apply String.eqb_eq in E. now subst.
  - destruct (indexOf i l) as [j|]; simpl; [|discriminate].
    intros [= <-]. simpl. auto.
Qed.

Lemma idAt_get st i k :
  graphInvariant st -> get (Graph.nodeMap st) i = Some k ->
  Graph.idAt (Graph.nodes st) k = Normal i.
Proof.
  intros [Hm _ _] H. rewrite Hm in H. apply indexOf_nth_error in H.
  rewrite nth_error_map in H. unfold Graph.idAt.
  destruct (nth_error (Graph.nodes st) k); simpl in H; congruence.
Qed.

Lemma addNode_resolves f i t n p st out :
  resolves f st out -> resolves f (Graph.addNode i t n p st) out.
Proof.
  unfold resolves, Graph.addNode.
  destruct (has (Graph.nodeMap st) i); auto.
  cbn [Graph.nodes Graph.links]. apply resolveLinks_more.
Qed.

Lemma CompleteGraph_addLink_resolves f src tgt r a st out :
  graphInvariant st ->
  In src (map Graph.node_id (Graph.nodes st)) ->
  In tgt (map Graph.node_id (Graph.nodes st)) ->
  resolves f st out ->
  resolves f (CompleteGraph.addLink src tgt r a st)
    (out ++ [{| Graph.source := src; Graph.target := tgt;
                Graph.link_rel := r; Graph.link_amount := f a |}]).
Proof.
  intros Hinv Hs Ht Hout. unfold CompleteGraph.addLink.
  apply (has_indexOf st src Hinv) in Hs. apply (has_indexOf st tgt Hinv) in Ht.
  unfold has in Hs, Ht.
  destruct (get (Graph.nodeMap st) src) as [s|] eqn:Es; [|discriminate].
  destruct (get (Graph.nodeMap st) tgt) as [t|] eqn:Et; [|discriminate].
  unfold resolves, Graph.pushLink. cbn [Graph.nodes Graph.links].
  apply (resolveLinks_snoc _ f _
           {| Graph.sourceIndex := s; Graph.targetIndex := t;
              Graph.rel := r; Graph.amt := a |} src tgt); auto;
    cbn [Graph.sourceIndex Graph.targetIndex]; eapply idAt_get; eauto.
Qed.

Lemma fold_entries_resolves
  (step : string -> Graph.state -> entry -> Graph.state)
  (mk : entry -> Graph.link) f rid :
  (forall st e, graphInvariant st ->
                In rid (map Graph.node_id (Graph.nodes st)) ->
                grows st (step rid st e) [Graph.itemId (name e)] 1) ->
  (forall st e out, graphInvariant st ->
                    In rid (map Graph.node_id (Graph.nodes st)) ->
                    resolves f st out ->
                    resolves f (step rid st e) (out ++ [mk e])) ->
  forall es st out,
    graphInvariant st -> In rid (map Graph.node_id (Graph.nodes st)) ->
    resolves f st out ->
    resolves f (fold_left (step rid) es st) (out ++ map mk es).
Proof.
  intros Hgrows Hstep.
  induction es as [|e es IH]; intros st out Hinv Hrid Hout; cbn [fold_left map].
  - now rewrite app_nil_r.
  - pose proof (Hgrows st e Hinv Hrid) as (Hinv1 & Hids1 & _).
    change (out ++ mk e :: map mk es) with (out ++ [mk e] ++ map mk es).
    rewrite app_assoc. apply IH; auto. apply Hids1. auto.
Qed.

Lemma addOutput_resolves k st e out :
  graphInvariant st ->
  In (Graph.recipeId k) (map Graph.node_id (Graph.nodes st)) ->
  resolves (fun a => a) st out ->
  resolves (fun a => a) (CompleteGraph.addOutput (Graph.recipeId k) st e)
    (out ++ [producesLink k e]).
Proof.
  intros Hinv Hrid Hout. unfold CompleteGraph.addOutput, producesLink.
  destruct (Graph_addNode_spec (Graph.itemId (name e)) Graph.itemType (name e)
              Graph.NoProperties st Hinv) as (H1 & _ & N1).
  apply (CompleteGraph_addLink_resolves (fun a => a)); auto.
  - apply N1. auto.
  - apply N1. auto.
  - now apply addNode_resolves.
Qed.

Lemma addInput_resolves k st e out :
  graphInvariant st ->
  In (Graph.recipeId k) (map Graph.node_id (Graph.nodes st)) ->
  resolves (fun a => a) st out ->
  resolves (fun a => a) (CompleteGraph.addInput (Graph.recipeId k) st e)
    (out ++ [consumedByLink k e]).
Proof.
  intros Hinv Hrid Hout. unfold CompleteGraph.addInput, consumedByLink.
  destruct (Graph_addNode_spec (Graph.itemId (name e)) Graph.itemType (name e)
              Graph.NoProperties st Hinv) as (H1 & _ & N1).
  apply (CompleteGraph_addLink_resolves (fun a => a)); auto.
  - apply N1. auto.
  - apply N1. auto.
  - now apply addNode_resolves.
Qed.

Lemma addRecipe_resolves st k r out :
  graphInvariant st -> resolves (fun a => a) st out ->
  resolves (fun a => a) (CompleteGraph.addRecipe st (k, r))
    (out ++ recipeLinks (k, r)).
Proof.
  intros Hinv Hout. unfold CompleteGraph.addRecipe, recipeLinks.
  cbn [fst snd].
  destruct (Graph_addNode_spec (Graph.recipeId k) Graph.recipeType k
              (Graph.recipeProperties r) st Hinv) as (H1 & _ & N1).
  pose proof (addNode_resolves (fun a => a) (Graph.recipeId k)
                Graph.recipeType k (Graph.recipeProperties r) st out Hout)
    as Hout1.
  set (st1 := Graph.addNode _ _ _ _ st) in *.
  assert (Hrid1 : In (Graph.recipeId k) (map Graph.node_id (Graph.nodes st1)))
    by (apply N1; auto).
  pose proof (fold_entries_spec CompleteGraph.addOutput (Graph.recipeId k)
                (addOutput_spec (Graph.recipeId k)) (resultEntries r) st1 H1
                Hrid1) as (H2 & N2 & _).
  pose proof (fold_entries_resolves CompleteGraph.addOutput (producesLink k)
                (fun a => a) (Graph.recipeId k)
                (addOutput_spec (Graph.recipeId k)) (addOutput_resolves k)
                (resultEntries r) st1 out H1 Hrid1 Hout1) as Hout2.
  set (st2 := fold_left _ (resultEntries r) st1) in *.
  assert (Hrid2 : In (Graph.recipeId k) (map Graph.node_id (Graph.nodes st2)))
    by (apply N2; auto).
  pose proof (fold_entries_resolves CompleteGraph.addInput (consumedByLink k)
                (fun a => a) (Graph.recipeId k)
                (addInput_spec (Graph.recipeId k)) (addInput_resolves k)
                (ingredientEntries r) st2 _ H2 Hrid2 Hout2) as Hout3.
  rewrite app_assoc.
  unfold resultEntries, ingredientEntries in *.
  destruct (results r); destruct (ingredients r); exact Hout3.
Qed.

Lemma build_resolves rs :
  forall st out,
    graphInvariant st -> resolves (fun a => a) st out ->
    resolves (fun a => a) (fold_left CompleteGraph.addRecipe rs st)
      (out ++ flat_map recipeLinks rs).
Proof.
  induction rs as [|[k r] rs IH]; intros st out Hinv Hout;
    cbn [fold_left flat_map].
  - now rewrite app_nil_r.
  - rewrite app_assoc. apply IH.
    + apply (addRecipe_spec st k r Hinv).
    + now apply addRecipe_resolves.
Qed.

(** X7. generateCompleteGraph always completes, and its answer is read
    off the dataset directly. Node ids are not repeated; they are the ids
    of the recipe keys and of the items named by a result or an
    ingredient. The links are, recipe after recipe in dataset order, one
    'produces' link from the recipe to each result (amount [amount || 1])
    followed by one 'consumedBy' link from each ingredient to the recipe
    (amount as given, possibly undefined). Every link joins two nodes of
    the graph. *)
Theorem complete_graph_is_the_dataset (data : factorioData) :
  exists g,
    generateCompleteGraph data = Normal g /\
    NoDup (map Graph.node_id (Graph.graph_nodes g)) /\
    (forall x, In x (map Graph.node_id (Graph.graph_nodes g)) <->
               In x (map Graph.recipeId (keys (recipes data))) \/
               In x (map Graph.itemId (referencedItems data))) /\
    Graph.graph_links g = flat_map recipeLinks (recipes data) /\
    (forall l, In l (Graph.graph_links g) ->
       In (Graph.source l) (map Graph.node_id (Graph.graph_nodes g)) /\
       In (Graph.target l) (map Graph.node_id (Graph.graph_nodes g))).
Proof.
  unfold generateCompleteGraph, CompleteGraph.build.
  destruct (build_spec (recipes data) Graph.empty graphInvariant_empty)
    as (Hinv & Hids & _).
  pose proof (build_resolves (recipes data) Graph.empty []
                graphInvariant_empty eq_refl) as Hout.
  set (st := fold_left CompleteGraph.addRecipe (recipes data) Graph.empty) in *.
  unfold resolves in Hout. rewrite Hout. cbn [bind app].
  eexists. split; [reflexivity|].
  cbn [Graph.graph_nodes Graph.graph_links].
  assert (Hnodes : forall x,
            In x (map Graph.node_id (Graph.nodes st)) <->
            In x (map Graph.recipeId (keys (recipes data))) \/
            In x (map Graph.itemId (referencedItems data))).
  { intros x. rewrite Hids, In_build_ids. simpl. tauto. }
  split; [apply (inv_ids st Hinv)|]. split; [exact Hnodes|].
  split; [reflexivity|].
  intros l Hl. apply in_flat_map in Hl. destruct Hl as ([k r] & Hkr & Hl).
  unfold recipeLinks in Hl. cbn [fst snd] in Hl.
  assert (Hk : In (Graph.recipeId k) (map Graph.node_id (Graph.nodes st))).
  { apply Hnodes. left. apply in_map. apply in_map_iff. now exists (k, r). }
  assert (Hitem : forall e,
            In e (resultEntries r) \/ In e (ingredientEntries r) ->
            In (Graph.itemId (name e)) (map Graph.node_id (Graph.nodes st))).
  { intros e He. apply Hnodes. right. apply in_map. unfold referencedItems.
    apply in_flat_map. exists (k, r). split; auto. cbn [snd].
    apply in_or_app. destruct He as [He|He]; [left|right]; now apply in_map. }
  apply in_app_or in Hl. destruct Hl as [Hl|Hl];
    apply in_map_iff in Hl; destruct Hl as (e & <- & He);
    cbn [producesLink consumedByLink Graph.source Graph.target]; auto.
Qed.

(* ================================================================== *)
(** ** Further properties: the item subgraph *)
(* ================================================================== *)

Lemma joins_more data ids more l :
  joins data ids l -> joins data (ids ++ more) l.
Proof.
  assert (Happ : forall k x, nth_error ids k = Some x ->
                             nth_error (ids ++ more) k = Some x).
  { intros k x H. rewrite nth_error_app1; auto. apply nth_error_Some.
    congruence. }
  intros (k & r & i & Hkr & H). exists k, r, i. split; auto.
  destruct (Graph.rel l); destruct H as (H1 & H2 & H3); auto.
Qed.

Lemma subgraphInvariant_empty data : subgraphInvariant data Graph.empty.
Proof.
  constructor; simpl; try (intros ? []).
  - apply graphInvariant_empty.
  - constructor.
Qed.

Lemma subgraph_addNode data i t n p st :
  subgraphInvariant data st ->
  (forall nd, Graph.node_id nd = i -> Graph.node_type nd = t ->
              nodeOfDataset data nd) ->
  subgraphInvariant data (Graph.addNode i t n p st).
Proof.
  intros [Hg Hd Hj Hn] Hkind.
  pose proof (addNode_invariant i t n p st Hg) as Hg'.
  unfold Graph.addNode in *. destruct (has (Graph.nodeMap st) i).
  - constructor; auto.
  - constructor; cbn [Graph.nodes Graph.links Graph.nodeMap] in *; auto.
    + intros l Hl. rewrite map_app. apply joins_more. auto.
    + intros nd Hnd. apply in_app_or in Hnd. destruct Hnd as [Hnd|[<-|[]]];
        auto.
Qed.

Lemma subgraph_addItem data i p st :
  subgraphInvariant data st ->
  subgraphInvariant data (Graph.addNode (Graph.itemId i) Graph.itemType i p st).
Proof.
  intros H. apply subgraph_addNode; auto.
  intros nd Hid Hty. left. eauto.
Qed.

Lemma subgraph_addRecipeNode data k r p st :
  In (k, r) (recipes data) ->
  subgraphInvariant data st ->
  subgraphInvariant data
    (Graph.addNode (Graph.recipeId k) Graph.recipeType k p st).
Proof.
  intros Hkr H. apply subgraph_addNode; auto.
  intros nd Hid Hty. right. eauto.
Qed.

Lemma linkExists_In s t r ls :
  ItemSubgraph.linkExists s t r ls = true <-> In (s, t, r) (map indexTriple ls).
Proof.
  unfold ItemSubgraph.linkExists. rewrite existsb_exists, in_map_iff.
  split.
  - intros (l & Hl & H). exists l. split; auto.
    apply andb_prop in H. destruct H as [H Hr].
    apply andb_prop in H. destruct H as [Hs Ht].
    apply Nat.eqb_eq in Hs, Ht. unfold indexTriple. subst.
    destruct (Graph.rel l), r; try discriminate; reflexivity.
  - intros (l & Hl & Hin). exists l. split; auto.
    unfold indexTriple in Hl. injection Hl as -> -> ->.
    rewrite !Nat.eqb_refl. cbn [andb].
    match goal with
    | |- Graph.relationship_eqb ?x ?x = true => destruct x; reflexivity
    end.
Qed.

Lemma get_nth_error st i k :
  graphInvariant st -> get (Graph.nodeMap st) i = Some k ->
  nth_error (map Graph.node_id (Graph.nodes st)) k = Some i.
Proof.
  intros [Hm _ _] H. rewrite Hm in H. now apply indexOf_nth_error.
Qed.

Lemma subgraph_addLink data src tgt rl a st :
  subgraphInvariant data st ->
  (exists k r i,
     In (k, r) (recipes data) /\
     match rl with
     | Graph.Produces =>
         src = Graph.recipeId k /\ tgt = Graph.itemId i /\ produces r i = true
     | Graph.ConsumedBy =>
         src = Graph.itemId i /\ tgt = Graph.recipeId k /\ consumes r i = true
     end) ->
  subgraphInvariant data (ItemSubgraph.addLink src tgt rl a st).
Proof.
  intros Hinv (k & r & i & Hkr & Hends).
  pose proof (ItemSubgraph_addLink_spec src tgt rl a st (sub_graph _ _ Hinv))
    as Hg'.
  unfold ItemSubgraph.addLink in *.
  destruct (get (Graph.nodeMap st) src) as [s|] eqn:Es; auto.
  destruct (get (Graph.nodeMap st) tgt) as [t|] eqn:Et; auto.
  destruct (ItemSubgraph.linkExists s t rl (Graph.links st)) eqn:Ex; auto.
  destruct Hinv as [Hg Hd Hj Hn].
  pose proof (get_nth_error _ _ _ Hg Es) as Hs.
  pose proof (get_nth_error _ _ _ Hg Et) as Ht.
  constructor; cbn [Graph.pushLink Graph.nodes Graph.links] in *; auto.
  - rewrite map_app. cbn [map]. apply NoDup_app; auto.
    + constructor; [intros []|constructor].
    + intros x Hx [<-|[]].
      change (In (s, t, rl) (map indexTriple (Graph.links st))) in Hx.
      apply linkExists_In in Hx. congruence.
  - intros l Hl. apply in_app_or in Hl. destruct Hl as [Hl|[<-|[]]]; auto.
    exists k, r, i. split; auto.
    cbn [Graph.rel Graph.sourceIndex Graph.targetIndex].
    destruct rl; destruct Hends as (-> & -> & Hp); auto.
Qed.

Lemma In_produces r e : In e (resultEntries r) -> produces r (name e) = true.
Proof.
  unfold resultEntries, produces. destruct (results r) as [rs|]; [|intros []].
  intros He. apply existsb_exists. exists e. split; auto.
  apply String.eqb_refl.
Qed.

Lemma In_consumes r e :
  In e (ingredientEntries r) -> consumes r (name e) = true.
Proof.
  unfold ingredientEntries, consumes.
  destruct (ingredients r) as [ins|]; [|intros []].
  intros He. apply existsb_exists. exists e. split; auto.
  apply String.eqb_refl.
Qed.

Section SubgraphInvariant.
Variable data : factorioData.
Variable maxDepth : Z.
Variable recur : string -> Z -> list string -> Graph.state
                 -> completion Graph.state.
Hypothesis recur_keeps :
  forall n d v s s',
    subgraphInvariant data s -> recur n d v s = Normal s' ->
    subgraphInvariant data s'.

Lemma exploreIngredient_keeps k r cd visited e s s' :
  In (k, r) (recipes data) -> In e (ingredientEntries r) ->
  subgraphInvariant data s ->
  ItemSubgraph.exploreIngredient data maxDepth recur (Graph.recipeId k) cd
    visited e s = Normal s' ->
  subgraphInvariant data s'.
Proof.
  intros Hkr He Hs. unfold ItemSubgraph.exploreIngredient.
  assert (H2 : subgraphInvariant data
                 (ItemSubgraph.addLink (Graph.itemId (name e))
                    (Graph.recipeId k) Graph.ConsumedBy (amount e)
                    (Graph.addNode (Graph.itemId (name e)) Graph.itemType
                       (name e) (Graph.itemPropertiesOf data (name e)) s))).
  { apply subgraph_addLink; [now apply subgraph_addItem|].
    exists k, r, (name e). split; auto. split; auto. split; auto.
    now apply In_consumes. }
  destruct (Z.ltb cd maxDepth).
  - apply recur_keeps. exact H2.
  - intros [= <-]. exact H2.
Qed.

Lemma exploreProduct_keeps k r cd visited e s s' :
  In (k, r) (recipes data) -> In e (resultEntries r) ->
  subgraphInvariant data s ->
  ItemSubgraph.exploreProduct data maxDepth recur (Graph.recipeId k) cd
    visited e s = Normal s' ->
  subgraphInvariant data s'.
Proof.
  intros Hkr He Hs. unfold ItemSubgraph.exploreProduct.
  assert (H2 : subgraphInvariant data
                 (ItemSubgraph.addLink (Graph.recipeId k)
                    (Graph.itemId (name e)) Graph.Produces
                    (Some (or_default (amount e) 1))
                    (Graph.addNode (Graph.itemId (name e)) Graph.itemType
                       (name e) (Graph.itemPropertiesOf data (name e)) s))).
  { apply subgraph_addLink; [now apply subgraph_addItem|].
    exists k, r, (name e). split; auto. split; auto. split; auto.
    now apply In_produces. }
  destruct (Z.ltb cd maxDepth).
  - apply recur_keeps. exact H2.
  - intros [= <-]. exact H2.
Qed.

Lemma exploreRecipe_keeps itemName cd visited k r s s' :
  In (k, r) (recipes data) ->
  subgraphInvariant data s ->
  ItemSubgraph.exploreRecipe data maxDepth recur itemName cd visited (k, r) s
    = Normal s' ->
  subgraphInvariant data s'.
Proof.
  intros Hkr Hs. unfold ItemSubgraph.exploreRecipe.
  match goal with
  | |- bind ?c _ = _ -> _ => destruct c as [s1|] eqn:E1; cbn [bind];
                             [|discriminate]
  end.
  assert (Hs1 : subgraphInvariant data s1).
  { destruct (produces r itemName) eqn:Hp; [|now injection E1 as <-].
    match type of E1 with
    | match _ with Some _ => _ | None => Normal ?st end = _ =>
        assert (H2 : subgraphInvariant data st)
    end.
    { apply subgraph_addLink; [now apply (subgraph_addRecipeNode data k r)|].
      exists k, r, itemName. auto. }
    unfold ingredientEntries in *.
    pose proof (exploreIngredient_keeps k r cd visited) as Hstep.
    unfold ingredientEntries in Hstep.
    destruct (ingredients r) as [ins|]; [|now injection E1 as <-].
    eapply (forEach_preserves (subgraphInvariant data)); [|exact H2|exact E1].
    intros e s0 s0' He. now apply Hstep. }
  destruct (consumes r itemName) eqn:Hc; [|now intros [= <-]].
  match goal with
  | |- match _ with Some _ => _ | None => Normal ?st end = _ -> _ =>
      assert (H2 : subgraphInvariant data st)
  end.
  { apply subgraph_addLink; [now apply (subgraph_addRecipeNode data k r)|].
    exists k, r, itemName. auto. }
  pose proof (exploreProduct_keeps k r cd visited) as Hstep.
  unfold resultEntries in Hstep.
  destruct (results r) as [rs|]; [|now intros [= <-]].
  intros E2.
  eapply (forEach_preserves (subgraphInvariant data)); [|exact H2|exact E2].
  intros e s0 s0' He. now apply Hstep.
Qed.

End SubgraphInvariant.

Lemma exploreItem_keeps data maxDepth fuel :
  forall itemName cd visited st st',
    subgraphInvariant data st ->
    ItemSubgraph.exploreItem data maxDepth fuel itemName cd visited st
      = Normal st' ->
    subgraphInvariant data st'.
Proof.
  induction fuel as [|fuel IH]; intros itemName cd visited st st' Hinv;
    [discriminate|].
  cbn [ItemSubgraph.exploreItem].
  destruct (Z.ltb maxDepth cd); [now intros [= <-]|].
  destruct (Set_has visited itemName); [now intros [= <-]|].
  apply (forEach_preserves (subgraphInvariant data)).
  - intros [k r] s s' Hkr Hs. apply exploreRecipe_keeps; auto.
  - now apply subgraph_addItem.
Qed.

Lemma resolveLinks_resolved ns f ls :
  forall out,
    Graph.resolveLinks ns f ls = Normal out ->
    Forall2 (resolved (map Graph.node_id ns) f) ls out.
Proof.
  induction ls as [|l ls IH]; intros out; cbn [Graph.resolveLinks].
  - intros [= <-]. constructor.
  - unfold Graph.idAt.
    destruct (nth_error ns (Graph.sourceIndex l)) as [a|] eqn:Es; cbn [bind];
      [|discriminate].
    destruct (nth_error ns (Graph.targetIndex l)) as [b|] eqn:Et; cbn [bind];
      [|discriminate].
    destruct (Graph.resolveLinks ns f ls) as [rest|]; cbn [bind];
      [|discriminate].
    intros [= <-]. constructor; auto.
    unfold resolved. cbn [Graph.source Graph.target Graph.link_rel
                          Graph.link_amount].
    rewrite !nth_error_map, Es, Et. auto.
Qed.

Lemma Forall2_In_r {A B} (R : A -> B -> Prop) l l' b :
  Forall2 R l l' -> In b l' -> exists a, In a l /\ R a b.
Proof.
  induction 1 as [|a0 b0 l l' H0 _ IH]; [intros []|].
  intros [<-|Hb].
  - exists a0. split; auto. now left.
  - destruct (IH Hb) as (a & Ha & HR). exists a. split; auto. now right.
Qed.

Lemma resolved_distinct ids f ls out :
  NoDup ids ->
  Forall2 (resolved ids f) ls out ->
  NoDup (map indexTriple ls) -> NoDup (map triple out).
Proof.
  intros Hids H. induction H as [|l o ls out Hlo Hrest IH]; cbn [map];
    [constructor|].
  intros Hnd. inversion Hnd as [|? ? Hnotin Hnd']. subst.
  constructor; auto.
  intros Hin. apply Hnotin. apply in_map_iff in Hin.
  destruct Hin as (o' & Heq & Ho').
  destruct (Forall2_In_r _ _ _ _ Hrest Ho') as (l' & Hl' & Hl'o').
  apply in_map_iff. exists l'. split; auto.
  unfold triple in Heq. injection Heq as Hs Ht Hr.
  destruct Hlo as (Hs1 & Ht1 & Hr1 & _). destruct Hl'o' as (Hs2 & Ht2 & Hr2 & _).
  assert (Hinj : forall i j x, nth_error ids i = Some x ->
                               nth_error ids j = Some x -> i = j).
  { intros i j x Hi Hj.
    apply (proj1 (NoDup_nth_error ids) Hids); [|congruence].
    apply nth_error_Some. congruence. }
  unfold indexTriple. f_equal; [f_equal|].
  - apply (Hinj _ _ (Graph.source o)); congruence.
  - apply (Hinj _ _ (Graph.target o)); congruence.
  - congruence.
Qed.

Lemma produces_link k r i :
  produces r i = true ->
  exists e, In e (resultEntries r) /\
            triple (producesLink k e)
            = (Graph.recipeId k, Graph.itemId i, Graph.Produces).
Proof.
  unfold produces, resultEntries. destruct (results r) as [rs|];
    [|discriminate].
  intros H. apply existsb_exists in H. destruct H as (e & He & Hn).
  apply String.eqb_eq in Hn. subst i. exists e. split; auto.
Qed.

Lemma consumes_link k r i :
  consumes r i = true ->
  exists e, In e (ingredientEntries r) /\
            triple (consumedByLink k e)
            = (Graph.itemId i, Graph.recipeId k, Graph.ConsumedBy).
Proof.
  unfold consumes, ingredientEntries. destruct (ingredients r) as [ins|];
    [|discriminate].
  intros H. apply existsb_exists in H. destruct H as (e & He & Hn).
  apply String.eqb_eq in Hn. subst i. exists e. split; auto.
Qed.

(** X8. An item subgraph is well formed and lies inside the complete
    graph. Node ids are not repeated; every node is an item node or the
    node of a recipe of the dataset. No two links share source, target
    and relationship; every link joins two nodes of the subgraph, carries
    an amount, and has the source, target and relationship of one of the
    links the complete graph draws for the dataset. *)
Theorem item_subgraph_within_complete_graph
  (data : factorioData) (itemName : string) (maxDepth : Z) (g : Graph.graph) :
  generateItemSubgraph data itemName maxDepth = Normal g ->
  NoDup (map Graph.node_id (Graph.graph_nodes g)) /\
  (forall n, In n (Graph.graph_nodes g) -> nodeOfDataset data n) /\
  NoDup (map triple (Graph.graph_links g)) /\
  (forall l, In l (Graph.graph_links g) ->
     In (Graph.source l) (map Graph.node_id (Graph.graph_nodes g)) /\
     In (Graph.target l) (map Graph.node_id (Graph.graph_nodes g)) /\
     Graph.link_amount l <> None /\
     exists l', In l' (flat_map recipeLinks (recipes data)) /\
                triple l' = triple l).
Proof.
  unfold generateItemSubgraph.
  destruct (ItemSubgraph.exploreItem data maxDepth (S (Z.to_nat maxDepth))
              itemName 0%Z [] Graph.empty) as [st|] eqn:Est; cbn [bind];
    [|discriminate].
  destruct (Graph.resolveLinks (Graph.nodes st)
              (fun a => Some (or_default a 1)) (Graph.links st))
    as [ls|] eqn:Els; cbn [bind]; [|discriminate].
  intros [= <-]. cbn [Graph.graph_nodes Graph.graph_links].
  destruct (exploreItem_keeps _ _ _ _ _ _ _ _ (subgraphInvariant_empty data)
              Est) as [Hg Hd Hj Hn].
  pose proof (resolveLinks_resolved _ _ _ _ Els) as Hres.
  split; [apply (inv_ids st Hg)|]. split; [exact Hn|].
  split; [eapply resolved_distinct; eauto; apply (inv_ids st Hg)|].
  intros o Ho.
  destruct (Forall2_In_r _ _ _ _ Hres Ho) as (l & Hl & Hs & Ht & Hr & Ha).
  split; [eapply nth_error_In; eauto|].
  split; [eapply nth_error_In; eauto|].
  split; [rewrite Ha; discriminate|].
  destruct (Hj l Hl) as (k & r & i & Hkr & Hends).
  assert (Hlinks : forall l', In l' (recipeLinks (k, r)) ->
                              In l' (flat_map recipeLinks (recipes data))).
  { intros l' Hl'. apply in_flat_map. now exists (k, r). }
  unfold triple at 2. rewrite Hr.
  destruct (Graph.rel l); destruct Hends as (Hs' & Ht' & Hp).
  - destruct (produces_link k r i Hp) as (e & He & Htr).
    exists (producesLink k e). split.
    + apply Hlinks. unfold recipeLinks. apply in_or_app. left.
      now apply in_map.
    + rewrite Htr. congruence.
  - destruct (consumes_link k r i Hp) as (e & He & Htr).
    exists (consumedByLink k e). split.
    + apply Hlinks. unfold recipeLinks. apply in_or_app. right.
      now apply in_map.
    + rewrite Htr. congruence.
Qed.

Lemma item_subgraph_within_complete_graph_witness :
  exists g,
    generateItemSubgraph Examples.sharedRaw "T" 2 = Normal g /\
    NoDup (map Graph.node_id (Graph.graph_nodes g)) /\
    (forall n, In n (Graph.graph_nodes g) ->
               nodeOfDataset Examples.sharedRaw n) /\
    NoDup (map triple (Graph.graph_links g)) /\
    (forall l, In l (Graph.graph_links g) ->
       In (Graph.source l) (map Graph.node_id (Graph.graph_nodes g)) /\
       In (Graph.target l) (map Graph.node_id (Graph.graph_nodes g)) /\
       Graph.link_amount l <> None /\
       exists l', In l' (flat_map recipeLinks (recipes Examples.sharedRaw)) /\
                  triple l' = triple l).
Proof.
  eexists. split; [vm_compute; reflexivity|].
  apply (item_subgraph_within_complete_graph Examples.sharedRaw "T" 2%Z).
  reflexivity.
Defined.

(* ================================================================== *)
(** ** Further properties: the merge of several item subgraphs *)
(* ================================================================== *)

Lemma mergeNode_sound Qn Ql st n :
  Qn n -> soundMerge Qn Ql st ->
  soundMerge Qn Ql (MultiItemGraph.mergeNode st n).
Proof.
  intros Hq (Hm & Hids & Hkeys & Hn & Hl).
  destruct (mergeNode_spec st n Hm) as (Hm' & _ & _).
  split; [exact Hm'|]. clear Hm'. unfold MultiItemGraph.mergeNode.
  destruct (Set_has (MultiItemGraph.allNodes st) (Graph.node_id n)) eqn:E;
    [auto|].
  cbn [MultiItemGraph.nodes MultiItemGraph.links].
  split; [|split; [exact Hkeys|split; [|exact Hl]]].
  - rewrite map_app. cbn [map]. apply NoDup_app; auto.
    + constructor; [intros []|constructor].
    + intros x Hx [<-|[]]. apply (proj1 Hm) in Hx. congruence.
  - intros m Hin. apply in_app_or in Hin. destruct Hin as [Hin|[<-|[]]]; auto.
Qed.

Lemma mergeLink_sound Qn Ql st l :
  Ql l -> soundMerge Qn Ql st ->
  soundMerge Qn Ql (MultiItemGraph.mergeLink st l).
Proof.
  intros Hq (Hm & Hids & Hkeys & Hn & Hl).
  destruct (mergeLink_spec st l Hm) as (Hm' & _ & _).
  split; [exact Hm'|]. clear Hm'. unfold MultiItemGraph.mergeLink.
  destruct (Set_has (MultiItemGraph.allLinks st) (MultiItemGraph.linkId l))
    eqn:E; [auto|].
  cbn [MultiItemGraph.nodes MultiItemGraph.links].
  assert (Hcopy : {| Graph.source := Graph.source l;
                     Graph.target := Graph.target l;
                     Graph.link_rel := Graph.link_rel l;
                     Graph.link_amount := Graph.link_amount l |} = l)
    by (destruct l; reflexivity).
  rewrite Hcopy.
  split; [exact Hids|split; [|split; [exact Hn|]]].
  - rewrite map_app. cbn [map]. apply NoDup_app; auto.
    + constructor; [intros []|constructor].
    + intros x Hx [<-|[]]. apply (proj2 Hm) in Hx. congruence.
  - intros m Hin. apply in_app_or in Hin. destruct Hin as [Hin|[<-|[]]]; auto.
Qed.

Lemma fold_mergeNode_sound Qn Ql ns :
  forall st,
    (forall n, In n ns -> Qn n) -> soundMerge Qn Ql st ->
    soundMerge Qn Ql (fold_left MultiItemGraph.mergeNode ns st).
Proof.
  induction ns as [|n ns IH]; intros st Hq Hst; cbn [fold_left]; auto.
  apply IH; [intros m Hm; apply Hq; now right|].
  apply mergeNode_sound; auto. apply Hq. now left.
Qed.

Lemma fold_mergeLink_sound Qn Ql ls :
  forall st,
    (forall l, In l ls -> Ql l) -> soundMerge Qn Ql st ->
    soundMerge Qn Ql (fold_left MultiItemGraph.mergeLink ls st).
Proof.
  induction ls as [|l ls IH]; intros st Hq Hst; cbn [fold_left]; auto.
  apply IH; [intros m Hm; apply Hq; now right|].
  apply mergeLink_sound; auto. apply Hq. now left.
Qed.

(** X9. The merge of the item subgraphs of several seeds always
    completes and is their union up to the merge keys: node ids are not
    repeated, nor are the keys source|target|relationship of the links;
    every node and every link of the answer is a node or link of the
    subgraph of one of the seeds; and for every seed, each node id of its
    subgraph is the id of a node of the answer and each link key of its
    subgraph is the key of a link of the answer. *)
Theorem multi_item_graph_is_a_union
  (data : factorioData) (seeds : list string) (depth : Z) :
  exists g,
    multiItemGraph data seeds depth = Normal g /\
    NoDup (map Graph.node_id (Graph.graph_nodes g)) /\
    NoDup (map MultiItemGraph.linkId (Graph.graph_links g)) /\
    (forall n, In n (Graph.graph_nodes g) ->
       exists seed sg,
         In seed seeds /\ generateItemSubgraph data seed depth = Normal sg /\
         In n (Graph.graph_nodes sg)) /\
    (forall l, In l (Graph.graph_links g) ->
       exists seed sg,
         In seed seeds /\ generateItemSubgraph data seed depth = Normal sg /\
         In l (Graph.graph_links sg)) /\
    (forall seed sg,
       In seed seeds -> generateItemSubgraph data seed depth = Normal sg ->
       (forall n, In n (Graph.graph_nodes sg) ->
          In (Graph.node_id n) (map Graph.node_id (Graph.graph_nodes g))) /\
       (forall l, In l (Graph.graph_links sg) ->
          In (MultiItemGraph.linkId l)
             (map MultiItemGraph.linkId (Graph.graph_links g)))).
Proof.
  set (Qn := fun n : Graph.node =>
               exists seed sg,
                 In seed seeds /\
                 generateItemSubgraph data seed depth = Normal sg /\
                 In n (Graph.graph_nodes sg)).
  set (Ql := fun l : Graph.link =>
               exists seed sg,
                 In seed seeds /\
                 generateItemSubgraph data seed depth = Normal sg /\
                 In l (Graph.graph_links sg)).
  assert (Hempty : soundMerge Qn Ql MultiItemGraph.empty).
  { split; [split; intros x; simpl; (split; [discriminate|intros []])|].
    simpl. repeat split; try constructor; intros ? []. }
  destruct (forEach_total (soundMerge Qn Ql) seeds
              (MultiItemGraph.mergeItem data depth)) with (s := MultiItemGraph.empty)
    as (st & Est & Hst); auto.
  { intros seed s Hseed Hs. unfold MultiItemGraph.mergeItem.
    destruct (generateItemSubgraph_total data seed depth) as (sg & Esg).
    rewrite Esg. cbn [bind]. eexists. split; [reflexivity|].
    apply fold_mergeLink_sound; [intros l Hl; exists seed, sg; auto|].
    apply fold_mergeNode_sound; [intros n Hn; exists seed, sg; auto|].
    exact Hs. }
  unfold multiItemGraph. rewrite Est. cbn [bind].
  eexists. split; [reflexivity|].
  cbn [Graph.graph_nodes Graph.graph_links].
  destruct Hst as (Hm & Hids & Hkeys & Hn & Hl).
  repeat (split; [assumption|]).
  intros seed sg Hseed Hsg.
  destruct (multiItemGraph_covers data depth seeds _ _ (proj1 Hempty) Est)
    as (_ & _ & Hcov).
  exact (Hcov seed sg Hseed Hsg).
Qed.

(* ================================================================== *)
(** ** Further properties: the list of full requirements *)
(* ================================================================== *)

Lemma fold_addRequirement_NoDup cs :
  forall req,
    NoDup (keys req) ->
    NoDup (keys (fold_left (fun acc c => addRequirement acc (fst c) (snd c))
                   cs req)).
Proof.
  induction cs as [|c cs IH]; intros req Hreq; cbn [fold_left]; auto.
  apply IH. unfold addRequirement. now apply NoDup_keys_set.
Qed.

Lemma contributions_consumed data fuel :
  forall r rate seen i,
    fromDataset data r ->
    In i (map fst (contributions data fuel r rate seen)) ->
    exists k rc, In (k, rc) (recipes data) /\ consumes rc i = true.
Proof.
  induction fuel as [|fuel IH]; intros r rate seen i Hr; [intros []|].
  cbn [contributions].
  destruct (ingredients (def r)) as [ins|] eqn:Hins; [|intros []].
  destruct (primaryOutput (def r)) as [out|]; [|intros []].
  destruct (Set_has seen (key r)); [intros []|].
  intros Hi. apply in_map_iff in Hi. destruct Hi as ([i' a] & <- & Hi).
  apply in_flat_map in Hi. destruct Hi as (x & Hx & [Hi|Hi]).
  - injection Hi as <- _. exists (key r), (def r). split; [apply Hr|].
    apply In_consumes. unfold ingredientEntries. now rewrite Hins.
  - destruct (findRecipeForItem data (name x)) as [ir|] eqn:Hfind;
      [|destruct Hi].
    eapply IH.
    + eapply findRecipeForItem_fromDataset; eauto.
    + apply in_map_iff. exists (i', a). split; [reflexivity|exact Hi].
Qed.

(** X10. The list fullRequirements names every item at most once and
    names only items that some recipe of the dataset consumes; on a
    dataset whose names are plain (none inherited from Object.prototype,
    none integer-like) it names every direct ingredient of the recipe. *)
Theorem full_requirements_items
  (data : factorioData) (itemName : string) (r : keyedRecipe) (rate : number)
  (res : requirementsResult) :
  findRecipeForItem data itemName = Some r ->
  calculateRequirements data r rate = Normal res ->
  NoDup (map fst (rq_fullRequirements res)) /\
  (plainNames data = true ->
   forall ing, In ing (rq_ingredients res) ->
               In (ir_name ing) (map fst (rq_fullRequirements res))) /\
  (forall i, In i (map fst (rq_fullRequirements res)) ->
             exists k rc, In (k, rc) (recipes data) /\ consumes rc i = true).
Proof.
  intros Hfind. pose proof (findRecipeForItem_fromDataset _ _ _ Hfind) as Hr.
  unfold calculateRequirements.
  destruct (primaryOutput (def r)) as [out|] eqn:Hout; cbn [bind];
    [|discriminate].
  unfold ingredientList.
  destruct (ingredients (def r)) as [ins|] eqn:Hins; cbn [bind];
    [|discriminate].
  destruct (calculateFullRequirements data (enoughFuel data) r rate [] [])
    as [totals|] eqn:Etotals; cbn [bind]; [|discriminate].
  intros [= <-]. cbn [rq_fullRequirements rq_ingredients].
  pose proof (calculateFullRequirements_contributions _ _ _ _ _ _ _ Etotals)
    as Htotals.
  assert (Hperm : Permutation (map fst (finalRequirements totals))
                    (keys totals)).
  { unfold finalRequirements.
    rewrite (Permutation_map fst (Array_sort_Permutation _ _)).
    rewrite map_map. cbn [fst]. apply Permutation_refl. }
  assert (Hkeys : forall i, In i (map fst (finalRequirements totals)) <->
                            In i (map fst (contributions data (enoughFuel data)
                                             r rate []))).
  { intros i. split.
    - intros Hi. apply (Permutation_in _ Hperm) in Hi.
      apply has_keys in Hi. rewrite Htotals in Hi.
      apply fold_addRequirement_has in Hi. destruct Hi as [Hi|Hi]; auto.
      discriminate.
    - intros Hi. apply (Permutation_in _ (Permutation_sym Hperm)).
      apply has_keys. rewrite Htotals. apply fold_addRequirement_has. auto. }
  split; [|split].
  - apply (Permutation_NoDup (Permutation_sym Hperm)). rewrite Htotals.
    apply fold_addRequirement_NoDup. constructor.
  - intros _ ing Hing. apply in_map_iff in Hing.
    destruct Hing as (x & <- & Hx).
    cbn [ir_name]. apply Hkeys. unfold enoughFuel. cbn [contributions].
    rewrite Hins, Hout. cbn [Set_has existsb].
    apply in_map_iff.
    exists (name x, ingredientRateOf x rate (or_default (amount out) 1)).
    split; auto. apply in_flat_map. exists x. split; auto. now left.
  - intros i Hi. apply Hkeys in Hi. eapply contributions_consumed; eauto.
Qed.

Lemma full_requirements_items_witness :
  exists res,
    calculateRequirements Examples.sharedRaw Examples.keyedT 1 = Normal res /\
    plainNames Examples.sharedRaw = true /\
    NoDup (map fst (rq_fullRequirements res)) /\
    (forall ing, In ing (rq_ingredients res) ->
                 In (ir_name ing) (map fst (rq_fullRequirements res))) /\
    (forall i, In i (map fst (rq_fullRequirements res)) ->
               exists k rc, In (k, rc) (recipes Examples.sharedRaw) /\
                            consumes rc i = true).
Proof.
  eexists. split; [vm_compute; reflexivity|]. split; [reflexivity|].
  destruct (full_requirements_items Examples.sharedRaw "T" Examples.keyedT 1
              _ eq_refl eq_refl) as (Hnames & Hdirect & Hconsumed).
  split; [exact Hnames|]. split; [apply Hdirect; reflexivity|exact Hconsumed].
Defined.

(* ================================================================== *)
(** ** Further properties: the producer column of the table *)
(* ================================================================== *)

Lemma foundByFirstResult_spec data i r out :
  foundByFirstResult data = true ->
  findRecipeForItem data i = Some r ->
  primaryOutput (def r) = Normal out ->
  name out = i.
Proof.
  unfold foundByFirstResult. rewrite forallb_forall. intros H Hfind Hout.
  pose proof (findRecipeIn_sound _ _ _ Hfind) as [Hin Hp].
  specialize (H _ Hin). cbn [snd] in H. rewrite forallb_forall in H.
  unfold produces in Hp. unfold resultEntries in H.
  destruct (results (def r)) as [rs|]; [|discriminate].
  apply existsb_exists in Hp. destruct Hp as (e & He & Hn).
  apply String.eqb_eq in Hn. specialize (H e He). rewrite Hn, Hfind, Hout in H.
  now apply String.eqb_eq in H.
Qed.

Lemma producer_addProduced root rootKey k out rate t :
  producerOnlyAtRoot root rootKey t ->
  has (Table.items t) out = true ->
  producerOnlyAtRoot root rootKey (Table.addProduced k out rate t).
Proof.
  intros (Hnd & Hroot & Hrows) Hout. unfold Table.addProduced, has in *.
  destruct (get (Table.items t) out) as [old|] eqn:E; [|discriminate].
  unfold producerOnlyAtRoot. cbn [Table.items].
  split; [now apply NoDup_keys_set|]. split.
  - fold (has (set (Table.items t) out
                 {| Table.i_name := Table.i_name old;
                    Table.i_producedBy := Table.i_producedBy old;
                    Table.i_producedRate := Table.i_producedRate old + rate;
                    Table.i_consumedBy := Table.i_consumedBy old;
                    Table.i_consumedRate := Table.i_consumedRate old |}) root).
    rewrite has_set. unfold has.
    destruct (get (Table.items t) root); [reflexivity|discriminate].
  - intros i row. destruct (String.eqb out i) eqn:Ei.
    + apply String.eqb_eq in Ei. subst i. rewrite get_set_same.
      intros [= <-]. cbn [Table.i_name Table.i_producedBy]. now apply Hrows.
    + apply String.eqb_neq in Ei. rewrite get_set_other by auto. apply Hrows.
Qed.

Lemma producer_addConsumed root rootKey k i v t :
  producerOnlyAtRoot root rootKey t ->
  producerOnlyAtRoot root rootKey (Table.addConsumed k i v t) /\
  has (Table.items (Table.addConsumed k i v t)) i = true.
Proof.
  intros (Hnd & Hroot & Hrows).
  assert (Hhas : has (Table.items (Table.addConsumed k i v t)) i = true).
  { unfold Table.addConsumed. cbn [Table.items].
    destruct (get (Table.items t) i); rewrite has_set, String.eqb_refl;
      apply orb_true_r. }
  split; [|exact Hhas]. unfold producerOnlyAtRoot.
  split; [|split].
  - unfold Table.addConsumed. cbn [Table.items].
    destruct (get (Table.items t) i); now apply NoDup_keys_set.
  - unfold Table.addConsumed. cbn [Table.items].
    destruct (get (Table.items t) i); rewrite has_set, Hroot; reflexivity.
  - intros j row. unfold Table.addConsumed. cbn [Table.items].
    destruct (String.eqb i j) eqn:Ej.
    + apply String.eqb_eq in Ej. subst j.
      destruct (get (Table.items t) i) as [old|] eqn:E;
        rewrite get_set_same; intros [= <-];
        cbn [Table.i_name Table.i_producedBy].
      * now apply Hrows.
      * split; auto. destruct (String.eqb i root) eqn:Er; auto.
        apply String.eqb_eq in Er. subst i. unfold has in Hroot.
        rewrite E in Hroot. discriminate.
    + apply String.eqb_neq in Ej.
      destruct (get (Table.items t) i); rewrite get_set_other by auto;
        apply Hrows.
Qed.

Lemma pushIngredient_items k i v t t' :
  Table.pushIngredient k i v t = Normal t' -> Table.items t' = Table.items t.
Proof.
  unfold Table.pushIngredient.
  destruct (get (Table.recipes t) k); [|discriminate]. now intros [= <-].
Qed.

Section ProducerColumn.
Variable data : factorioData.
Variables root rootKey : string.
Hypothesis first_result : foundByFirstResult data = true.

Section Loop.
Variable fuel : nat.
Hypothesis call_keeps :
  forall r rate seen t t',
    (forall out, primaryOutput (def r) = Normal out ->
                 has (Table.items t) (name out) = true) ->
    producerOnlyAtRoot root rootKey t ->
    Table.processRecipe data fuel r rate seen t = Normal t' ->
    producerOnlyAtRoot root rootKey t'.

Lemma producer_ingredients k rate outputAmount seen ins :
  forall s s',
    producerOnlyAtRoot root rootKey s ->
    forEach ins
      (Table.ingredientStep data (Table.processRecipe data fuel) k rate
         outputAmount seen) s = Normal s' ->
    producerOnlyAtRoot root rootKey s'.
Proof.
  apply forEach_preserves. intros x s s' _ Hs. unfold Table.ingredientStep.
  destruct (Table.pushIngredient _ _ _ s) as [s1|] eqn:Hpush; cbn [bind];
    [|discriminate].
  assert (Hs1 : producerOnlyAtRoot root rootKey s1).
  { unfold producerOnlyAtRoot. now rewrite (pushIngredient_items _ _ _ _ _ Hpush). }
  destruct (producer_addConsumed root rootKey k (name x)
              (ingredientRateOf x rate outputAmount) s1 Hs1) as [Hs2 Hhas].
  destruct (findRecipeForItem data (name x)) as [ir|] eqn:Hfind.
  - apply call_keeps; auto. intros out Hout.
    now rewrite (foundByFirstResult_spec _ _ _ _ first_result Hfind Hout).
  - intros [= <-]. exact Hs2.
Qed.

End Loop.

Lemma producer_processRecipe fuel :
  forall r rate seen t t',
    (forall out, primaryOutput (def r) = Normal out ->
                 has (Table.items t) (name out) = true) ->
    producerOnlyAtRoot root rootKey t ->
    Table.processRecipe data fuel r rate seen t = Normal t' ->
    producerOnlyAtRoot root rootKey t'.
Proof.
  induction fuel as [|fuel IH]; intros r rate seen t t' Hhas Ht;
    [discriminate|].
  cbn [Table.processRecipe].
  destruct (primaryOutput (def r)) as [out|] eqn:Hout; cbn [bind];
    [|discriminate].
  destruct (Set_has seen (key r)); [now intros [= <-]|].
  destruct (ingredientList (def r)) as [ins|]; cbn [bind]; [|discriminate].
  apply (producer_ingredients fuel IH).
  apply producer_addProduced; [exact Ht|].
  cbn [Table.addRecipe Table.items]. now apply Hhas.
Qed.

End ProducerColumn.

(** X11. The producer column of the table is filled in for the requested
    item only. In a dataset with plain names (none inherited from
    Object.prototype, none integer-like) where every item with a recipe
    is the first result of the recipe found for it, the table has
    exactly one row per item name, the requested item has a row, and a
    row names a producer (the requested item's recipe) exactly when it is
    the row of the requested item: every other item, crafted or raw, is listed with
    producedBy null, because its row is created when it is first
    consumed and the later production only adds to its produced rate. *)
Theorem producer_recorded_for_the_target_only
  (data : factorioData) (itemName : string) (r : keyedRecipe) (rate : number)
  (tb : Table.table) :
  plainNames data = true ->
  foundByFirstResult data = true ->
  findRecipeForItem data itemName = Some r ->
  generateRecipeTable data r rate = Normal tb ->
  NoDup (map Table.i_name (Table.table_items tb)) /\
  (exists row, In row (Table.table_items tb) /\ Table.i_name row = itemName) /\
  (forall row, In row (Table.table_items tb) ->
     Table.i_producedBy row
     = if String.eqb (Table.i_name row) itemName then Some (key r) else None).
Proof.
  intros _ Hfirst Hfind. unfold generateRecipeTable, enoughFuel.
  cbn [Table.processRecipe].
  destruct (primaryOutput (def r)) as [out|] eqn:Hout; cbn [bind];
    [|discriminate].
  pose proof (foundByFirstResult_spec _ _ _ _ Hfirst Hfind Hout) as Hname.
  cbn [Set_has existsb].
  destruct (ingredientList (def r)) as [ins|]; cbn [bind]; [|discriminate].
  match goal with
  | |- context [forEach ins ?f ?s] =>
      destruct (forEach ins f s) as [t|] eqn:Et; cbn [bind]; [|discriminate]
  end.
  intros [= <-]. cbn [Table.table_items].
  apply (producer_ingredients data itemName (key r) Hfirst _
           (producer_processRecipe data itemName (key r) Hfirst _)) in Et.
  - destruct Et as (Hnd & Hroot & Hrows).
    assert (Hin : forall i row, In (i, row) (Table.items t) ->
                                Table.i_name row = i /\
                                Table.i_producedBy row
                                = if String.eqb i itemName then Some (key r)
                                  else None).
    { intros i row Hi. apply Hrows. now apply NoDup_keys_get. }
    assert (Hnames : map Table.i_name (values (Table.items t))
                     = keys (Table.items t)).
    { unfold values, keys. rewrite map_map. apply map_ext_in.
      intros [i row] Hi. cbn [fst snd]. now apply Hin. }
    split; [now rewrite Hnames|]. split.
    + unfold has in Hroot.
      destruct (get (Table.items t) itemName) as [row|] eqn:E; [|discriminate].
      exists row. split; [|now apply Hrows].
      apply In_values. exists itemName. now apply get_In.
    + intros row Hrow. apply In_values in Hrow. destruct Hrow as (i & Hi).
      destruct (Hin i row Hi) as [-> Hp]. exact Hp.
  - unfold producerOnlyAtRoot, Table.addProduced, Table.addRecipe.
    cbn [Table.items Table.empty get set keys map fst has].
    rewrite Hname.
    split; [repeat constructor; intros []|].
    split; [unfold has; cbn [get]; now rewrite String.eqb_refl|].
    intros i row. destruct (String.eqb itemName i) eqn:Ei; [|discriminate].
    apply String.eqb_eq in Ei. subst i. intros [= <-].
    cbn [Table.i_name Table.i_producedBy]. now rewrite String.eqb_refl.
Qed.

Lemma producer_recorded_for_the_target_only_witness :
  exists tb,
    plainNames Examples.sharedRaw = true /\
    generateRecipeTable Examples.sharedRaw Examples.keyedT 1 = Normal tb /\
    NoDup (map Table.i_name (Table.table_items tb)) /\
    (exists row, In row (Table.table_items tb) /\ Table.i_name row = "T") /\
    (forall row, In row (Table.table_items tb) ->
       Table.i_producedBy row
       = if String.eqb (Table.i_name row) "T"
         then Some (key Examples.keyedT) else None).
Proof.
  eexists. split; [reflexivity|]. split; [vm_compute; reflexivity|].
  apply (producer_recorded_for_the_target_only Examples.sharedRaw "T"
           Examples.keyedT 1); reflexivity.
Defined.

(* ================================================================== *)
(** ** Further properties: the tree against the table *)
(* ================================================================== *)

Lemma extends_any data seen t t' : extends data seen t t' -> extends data [] t t'.
Proof. apply extends_weaken. intros k H. discriminate. Qed.

Lemma servedEntry_mono data t t' e :
  extends data [] t t' -> servedEntry data t e -> servedEntry data t' e.
Proof.
  intros Hext. unfold servedEntry.
  destruct (findRecipeForItem data (name e)).
  - apply (ext_rows _ _ _ _ Hext).
  - apply (ext_raw _ _ _ _ Hext).
Qed.

Lemma served_mono data t t' rc :
  extends data [] t t' -> served data t rc -> served data t' rc.
Proof. intros Hext Hs e He. eapply servedEntry_mono; eauto. Qed.

Lemma pushIngredient_has k i v t t' :
  Table.pushIngredient k i v t = Normal t' ->
  forall k', has (Table.recipes t') k' = has (Table.recipes t) k'.
Proof.
  unfold Table.pushIngredient.
  destruct (get (Table.recipes t) k) as [row|] eqn:E; [|discriminate].
  intros [= <-] k'. cbn [Table.recipes]. rewrite has_set.
  destruct (String.eqb k k') eqn:Ek; [|apply orb_false_r].
  apply String.eqb_eq in Ek. subst k'. unfold has. now rewrite E.
Qed.

Lemma addRecipe_has k out time machines rate t k' :
  has (Table.recipes (Table.addRecipe k out time machines rate t)) k'
  = has (Table.recipes t) k' || String.eqb k k'.
Proof.
  unfold Table.addRecipe. cbn [Table.recipes].
  destruct (get (Table.recipes t) k); apply has_set.
Qed.

Section TableClosure.
Variable data : factorioData.
Hypothesis keys_distinct : NoDup (keys (recipes data)).

Section Loop.
Variable fuel : nat.
Hypothesis call_closed :
  forall r rate seen t t',
    rowsNamed t -> fromDataset data r ->
    (forall k, Set_has seen k = true -> has (Table.recipes t) k = true) ->
    Table.processRecipe data fuel r rate seen t = Normal t' ->
    has (Table.recipes t') (key r) = true /\ newRowsServed data t t'.

Lemma closed_ingredients k rate outputAmount seen ins :
  forall s s',
    rowsNamed s ->
    (forall k', Set_has seen k' = true -> has (Table.recipes s) k' = true) ->
    forEach ins
      (Table.ingredientStep data (Table.processRecipe data fuel) k rate
         outputAmount seen) s = Normal s' ->
    extends data [] s s' /\
    (forall e, In e ins -> servedEntry data s' e) /\
    newRowsServed data s s'.
Proof.
  induction ins as [|x ins IHins]; intros s s' Hnamed Hseen; cbn [forEach].
  - intros [= <-]. split; [apply extends_refl|]. split; [intros ? []|].
    intros k0 rc _ H1 H2. congruence.
  - unfold Table.ingredientStep at 1.
    destruct (Table.pushIngredient _ _ _ s) as [s1|] eqn:Hpush; cbn [bind];
      [|discriminate].
    pose proof (extends_pushIngredient data [] s s1 _ _ _ eq_refl Hnamed Hpush)
      as E1.
    pose proof (pushIngredient_has _ _ _ _ _ Hpush) as Hhas1.
    set (s2 := Table.addConsumed k (name x)
                 (ingredientRateOf x rate outputAmount) s1).
    assert (E2 : extends data [] s s2).
    { apply (extends_trans data [] s s1 s2 E1). apply extends_items. }
    assert (Hhas2 : forall k', has (Table.recipes s2) k'
                               = has (Table.recipes s) k')
      by (intros k'; apply Hhas1).
    pose proof (ext_named _ _ _ _ E2 Hnamed) as Hnamed2.
    assert (Hfinish :
      forall s3,
        extends data [] s2 s3 ->
        servedEntry data s3 x ->
        newRowsServed data s2 s3 ->
        forEach ins
          (Table.ingredientStep data (Table.processRecipe data fuel) k rate
             outputAmount seen) s3 = Normal s' ->
        extends data [] s s' /\
        (forall e, In e (x :: ins) -> servedEntry data s' e) /\
        newRowsServed data s s').
    { intros s3 E3 Hx Hnew3 Hrest.
      pose proof (ext_named _ _ _ _ E3 Hnamed2) as Hnamed3.
      destruct (IHins s3 s' Hnamed3) as (E4 & Hins & Hnew4); auto.
      { intros k' Hk'. apply (ext_rows _ _ _ _ E3). rewrite Hhas2. auto. }
      split; [|split].
      - eapply extends_trans; [exact E2|]. eapply extends_trans; eauto.
      - intros e [<-|He]; auto. eapply servedEntry_mono; eauto.
      - intros k0 rc Hin H1 H0.
        destruct (has (Table.recipes s3) k0) eqn:H3.
        + eapply served_mono; [exact E4|]. apply (Hnew3 k0); auto.
          now rewrite Hhas2.
        + apply (Hnew4 k0); auto. }
    destruct (findRecipeForItem data (name x)) as [ir|] eqn:Hfind.
    + destruct (Table.processRecipe data fuel ir _ seen s2) as [s3|] eqn:Ecall;
        cbn [bind]; [|discriminate].
      assert (Hseen2 : forall k', Set_has seen k' = true ->
                                  has (Table.recipes s2) k' = true)
        by (intros k' Hk'; rewrite Hhas2; auto).
      destruct (call_closed _ _ _ _ _ Hnamed2
                  (findRecipeForItem_fromDataset _ _ _ Hfind) Hseen2 Ecall)
        as (Hrow & Hnew3).
      apply Hfinish; auto.
      * eapply extends_any. eapply processRecipe_extends; eauto.
      * unfold servedEntry. now rewrite Hfind.
    + cbn [bind]. apply Hfinish.
      * now apply extends_addRawMaterial.
      * unfold servedEntry. rewrite Hfind.
        unfold Table.addRawMaterial. cbn [Table.rawMaterials].
        rewrite has_set, String.eqb_refl. apply orb_true_r.
      * intros k0 rc _ H1 H0. cbn [Table.addRawMaterial Table.recipes] in H1.
        congruence.
Qed.

End Loop.

Lemma processRecipe_closed fuel :
  forall r rate seen t t',
    rowsNamed t -> fromDataset data r ->
    (forall k, Set_has seen k = true -> has (Table.recipes t) k = true) ->
    Table.processRecipe data fuel r rate seen t = Normal t' ->
    has (Table.recipes t') (key r) = true /\ newRowsServed data t t'.
Proof.
  induction fuel as [|fuel IH]; intros r rate seen t t' Hnamed Hr Hseen;
    [discriminate|].
  cbn [Table.processRecipe].
  destruct (primaryOutput (def r)) as [out|] eqn:Hout; cbn [bind];
    [|discriminate].
  destruct (Set_has seen (key r)) eqn:Hk.
  { intros [= <-]. split; auto. intros k0 rc _ H1 H0. congruence. }
  destruct (ingredientList (def r)) as [ins|] eqn:Hins; cbn [bind];
    [|discriminate].
  set (t1 := Table.addProduced _ _ _ _).
  assert (Hhas1 : forall k', has (Table.recipes t1) k'
                             = has (Table.recipes t) k' || String.eqb (key r) k')
    by (intros k'; apply addRecipe_has).
  assert (E1 : extends data [] t t1).
  { eapply extends_trans; [|apply extends_items].
    now apply extends_addRecipe. }
  pose proof (ext_named _ _ _ _ E1 Hnamed) as Hnamed1.
  intros Hloop.
  destruct (closed_ingredients fuel IH (key r) rate
              (or_default (amount out) 1) (Set_add seen (key r)) ins t1 t'
              Hnamed1) as (E2 & Hserved & Hnew); auto.
  { intros k' Hk'. rewrite Hhas1. rewrite Set_has_add in Hk'.
    apply orb_true_iff in Hk'. destruct Hk' as [Hk'|Hk'].
    - now rewrite (Hseen _ Hk').
    - rewrite Hk'. apply orb_true_r. }
  split.
  - apply (ext_rows _ _ _ _ E2). rewrite Hhas1, String.eqb_refl.
    apply orb_true_r.
  - intros k0 rc Hin H1 H0.
    destruct (String.eqb (key r) k0) eqn:Ek.
    + apply String.eqb_eq in Ek. subst k0.
      assert (Hrc : rc = def r).
      { pose proof (NoDup_keys_get _ _ _ keys_distinct Hin) as G1.
        pose proof (NoDup_keys_get _ _ _ keys_distinct (proj1 Hr)) as G2.
        congruence. }
      subst rc. intros e He. apply Hserved.
      unfold ingredientEntries, ingredientList in *.
      destruct (ingredients (def r)); [|discriminate].
      now injection Hins as <-.
    + apply (Hnew k0); auto. now rewrite Hhas1, H0, Ek.
Qed.

(** In a table whose rows are all served, the tree of a recipe with a
    row shows only recipes with rows and only listed raw materials. *)
Lemma tree_within_closed (T : Table.state) :
  (forall k rc, In (k, rc) (recipes data) ->
                has (Table.recipes T) k = true -> served data T rc) ->
  forall depth r rate t,
    fromDataset data r -> has (Table.recipes T) (key r) = true ->
    generateRecipeTree data depth r rate = Normal t ->
    (forall k, In k (recipeKeys t) -> has (Table.recipes T) k = true) /\
    (forall i, In i (rawItems t) -> has (Table.rawMaterials T) i = true).
Proof.
  intros Hclosed.
  induction depth as [|depth IH]; intros r rate t Hr Hrow;
    cbn [generateRecipeTree];
    destruct (primaryOutput (def r)) as [out|]; cbn [bind]; try discriminate.
  - intros [= <-]. cbn [recipeKeys rawItems flat_map].
    split; [intros k [<-|[]]; auto|intros i []].
  - unfold ingredientList.
    destruct (ingredients (def r)) as [ins|] eqn:Hins; cbn [bind];
      [|discriminate].
    match goal with
    | |- context [forEach ins ?f []] =>
        destruct (forEach ins f []) as [children|] eqn:Hchildren; cbn [bind];
        [|discriminate];
        pose proof (forEach_preserves
                      (fun cs =>
                         (forall k, In k (flat_map recipeKeys cs) ->
                                    has (Table.recipes T) k = true) /\
                         (forall i, In i (flat_map rawItems cs) ->
                                    has (Table.rawMaterials T) i = true))
                      ins f) as Hloop
    end.
    intros [= <-]. cbn [recipeKeys rawItems].
    destruct (Hloop) with (s := @nil treeNode) (s' := children)
      as [Hkeys Hraw]; auto.
    + intros x cs cs' Hx [Hk Hw].
      assert (Hsx : servedEntry data T x).
      { destruct Hr as [Hin _]. apply (Hclosed _ _ Hin Hrow).
        unfold ingredientEntries. now rewrite Hins. }
      unfold servedEntry in Hsx.
      destruct (findRecipeForItem data (name x)) as [ir|] eqn:Hfind.
      * destruct (generateRecipeTree data depth ir _) as [sub|] eqn:Hsub;
          cbn [bind]; [|discriminate].
        intros [= <-].
        destruct (IH _ _ _ (findRecipeForItem_fromDataset _ _ _ Hfind) Hsx
                    Hsub) as [Hk1 Hw1].
        rewrite !flat_map_app. cbn [flat_map]. rewrite !app_nil_r.
        pose proof (generateRecipeTree_crafted _ _ _ _ _ Hsub) as Hcrafted.
        destruct sub as [it rk rt m tm cs0|]; [|destruct Hcrafted].
        cbn [assignSubTree recipeKeys rawItems] in *.
        split; intros z Hz; apply in_app_or in Hz; destruct Hz as [Hz|Hz];
          auto.
      * intros [= <-]. rewrite !flat_map_app. cbn [flat_map recipeKeys rawItems].
        rewrite !app_nil_r. split; [exact Hk|].
        intros z Hz. apply in_app_or in Hz. destruct Hz as [Hz|[<-|[]]]; auto.
    + split.
      * intros k [<-|Hk]; auto.
      * exact Hraw.
Qed.

End TableClosure.

(** X12. The tree stays within the table. In a dataset with plain names
    (none inherited from Object.prototype, none integer-like) whose recipe
    keys are not repeated, for one target recipe, every recipe key shown in
    the tree (at any depth limit and for any rate) is the name of a row
    of table.recipes, and every raw item of the tree is listed in
    table.rawMaterials. *)
Theorem tree_within_table
  (data : factorioData) (itemName : string) (r : keyedRecipe)
  (depth : nat) (treeRate tableRate : number)
  (t : treeNode) (tb : Table.table) :
  plainNames data = true ->
  NoDup (keys (recipes data)) ->
  findRecipeForItem data itemName = Some r ->
  generateRecipeTree data depth r treeRate = Normal t ->
  generateRecipeTable data r tableRate = Normal tb ->
  (forall k, In k (recipeKeys t) ->
             In k (map Table.r_name (Table.table_recipes tb))) /\
  (forall i, In i (rawItems t) ->
             In i (map fst (Table.table_rawMaterials tb))).
Proof.
  intros _ Hkeys Hfind Htree. unfold generateRecipeTable.
  destruct (Table.processRecipe data (enoughFuel data) r tableRate []
              Table.empty) as [T|] eqn:ET; cbn [bind]; [|discriminate].
  intros [= <-]. cbn [Table.table_recipes Table.table_rawMaterials].
  pose proof (findRecipeForItem_fromDataset _ _ _ Hfind) as Hr.
  assert (Hseen : forall k, Set_has [] k = true ->
                            has (Table.recipes Table.empty) k = true)
    by (intros k Hk; discriminate).
  destruct (processRecipe_closed data Hkeys _ _ _ _ _ _ rowsNamed_empty Hr
              Hseen ET) as [Hrow Hnew].
  pose proof (ext_named _ _ _ _
                (processRecipe_extends data _ _ _ _ _ _ rowsNamed_empty ET)
                rowsNamed_empty) as [Hnd Hrows].
  destruct (tree_within_closed data T) with (depth := depth) (r := r)
    (rate := treeRate) (t := t) as [Hk Hw]; auto.
  { intros k rc Hin Hhas. apply (Hnew k rc Hin Hhas). reflexivity. }
  split.
  - intros k Hin. apply Hk in Hin. unfold has in Hin.
    destruct (get (Table.recipes T) k) as [row|] eqn:E; [|discriminate].
    apply get_In in E. apply in_map_iff. exists row.
    split; [now apply Hrows|]. apply In_values. eauto.
  - intros i Hin. apply Hw in Hin. apply In_keys_Array_sort.
    now apply has_keys.
Qed.

Lemma tree_within_table_witness :
  exists t tb,
    plainNames Examples.sharedRaw = true /\
    generateRecipeTree Examples.sharedRaw 5 Examples.keyedT 1 = Normal t /\
    generateRecipeTable Examples.sharedRaw Examples.keyedT 2 = Normal tb /\
    (forall k, In k (recipeKeys t) ->
               In k (map Table.r_name (Table.table_recipes tb))) /\
    (forall i, In i (rawItems t) ->
               In i (map fst (Table.table_rawMaterials tb))).
Proof.
  eexists. eexists. split; [reflexivity|].
  split; [vm_compute; reflexivity|]. split; [vm_compute; reflexivity|].
  apply (tree_within_table Examples.sharedRaw "T" Examples.keyedT 5 1 2);
    try reflexivity.
  repeat constructor; simpl; intuition discriminate.
Defined.

(* ================================================================== *)
(** ** Further properties: recipe rows and item rows of the table *)
(* ================================================================== *)

Lemma get_set_cases {V} (o : object V) k v k' v' :
  get (set o k v) k' = Some v' ->
  (k' = k /\ v' = v) \/ (k' <> k /\ get o k' = Some v').
Proof.
  destruct (String.eqb k k') eqn:E.
  - apply String.eqb_eq in E. subst k'. rewrite get_set_same.
    intros [= <-]. now left.
  - apply String.eqb_neq in E. rewrite get_set_other by auto.
    intros H. right. split; auto.
Qed.

Lemma set_nonempty {V} (o : object V) k v : set o k v <> [].
Proof. destruct o as [|[k' v'] o]; simpl; [|destruct (String.eqb k' k)]; discriminate. Qed.

Lemma get_has {V} (o : object V) k v : get o k = Some v -> has o k = true.
Proof. unfold has. now intros ->. Qed.

Section TableSteps.
Variable data : factorioData.
Variable Q : Table.state -> Prop.
Hypothesis Q_recipe :
  forall r out time machines rate t,
    fromDataset data r -> primaryOutput (def r) = Normal out -> Q t ->
    Q (Table.addProduced (key r) (name out) rate
         (Table.addRecipe (key r) (name out) time machines rate t)).
Hypothesis Q_ingredient :
  forall k i v w t t1,
    Q t -> Table.pushIngredient k i v t = Normal t1 ->
    Q (Table.addConsumed k i w t1).
Hypothesis Q_raw :
  forall i v t, Q t -> Q (Table.addRawMaterial i v t).

(** A property kept by the row updates of [processRecipe], the two
    updates for an ingredient taken together, is kept by a completed
    call. *)
Lemma processRecipe_keeps fuel :
  forall r rate seen t t',
    fromDataset data r -> Q t ->
    Table.processRecipe data fuel r rate seen t = Normal t' -> Q t'.
Proof.
  induction fuel as [|fuel IH]; intros r rate seen t t' Hr Ht; [discriminate|].
  cbn [Table.processRecipe].
  destruct (primaryOutput (def r)) as [out|] eqn:Hout; cbn [bind];
    [|discriminate].
  destruct (Set_has seen (key r)); [now intros [= <-]|].
  destruct (ingredientList (def r)) as [ins|]; cbn [bind]; [|discriminate].
  apply forEach_preserves; [|now apply Q_recipe].
  intros x s s' _ Hs. unfold Table.ingredientStep.
  destruct (Table.pushIngredient _ _ _ s) as [s1|] eqn:Hpush; cbn [bind];
    [|discriminate].
  pose proof (Q_ingredient _ _ _ (ingredientRateOf x rate
                                    (or_default (amount out) 1)) _ _ Hs Hpush)
    as Hs2.
  destruct (findRecipeForItem data (name x)) as [ir|] eqn:Hfind.
  - apply IH; auto. eapply findRecipeForItem_fromDataset; eauto.
  - intros [= <-]. now apply Q_raw.
Qed.

End TableSteps.

Lemma crossReferenced_empty data : crossReferenced data Table.empty.
Proof.
  constructor; cbn [Table.empty Table.items Table.recipes keys map get];
    try discriminate.
  constructor.
Qed.

Lemma cross_recipe data r out time machines rate t :
  fromDataset data r -> primaryOutput (def r) = Normal out ->
  crossReferenced data t ->
  crossReferenced data
    (Table.addProduced (key r) (name out) rate
       (Table.addRecipe (key r) (name out) time machines rate t)).
Proof.
  intros [Hin _] Hout [Hnd Hname Hprod Hcre Hcons Hpro Hing].
  set (t1 := Table.addRecipe (key r) (name out) time machines rate t).
  assert (R2 : forall k' rr',
            get (Table.recipes t1) k' = Some rr' ->
            (exists rr0, get (Table.recipes t) k' = Some rr0 /\
                         Table.r_produces rr' = Table.r_produces rr0 /\
                         Table.r_ingredients rr' = Table.r_ingredients rr0) \/
            (k' = key r /\ Table.r_produces rr' = name out /\
             Table.r_ingredients rr' = [])).
  { intros k' rr'. unfold t1, Table.addRecipe. cbn [Table.recipes].
    destruct (get (Table.recipes t) (key r)) as [row|] eqn:E; intros H;
      apply get_set_cases in H; destruct H as [[-> ->]|[Hne H]];
      cbn [Table.r_produces Table.r_ingredients]; eauto 6. }
  assert (R3 : forall k' rr0,
            get (Table.recipes t) k' = Some rr0 ->
            exists rr', get (Table.recipes t1) k' = Some rr' /\
                        Table.r_ingredients rr' = Table.r_ingredients rr0).
  { intros k' rr0 H. unfold t1, Table.addRecipe. cbn [Table.recipes].
    destruct (String.eqb (key r) k') eqn:Ek.
    - apply String.eqb_eq in Ek. subst k'. rewrite H, get_set_same.
      eexists. split; [reflexivity|reflexivity].
    - apply String.eqb_neq in Ek.
      destruct (get (Table.recipes t) (key r)); rewrite get_set_other by auto;
        eauto. }
  assert (Hitems1 : Table.items t1 = Table.items t) by reflexivity.
  set (t2 := Table.addProduced (key r) (name out) rate t1).
  assert (Hrecipes2 : Table.recipes t2 = Table.recipes t1) by reflexivity.
  assert (I2 : forall i row',
            get (Table.items t2) i = Some row' ->
            (exists row0, get (Table.items t) i = Some row0 /\
                          Table.i_name row' = Table.i_name row0 /\
                          Table.i_producedBy row' = Table.i_producedBy row0 /\
                          Table.i_consumedBy row' = Table.i_consumedBy row0) \/
            (i = name out /\ Table.i_name row' = name out /\
             Table.i_producedBy row' = Some (key r) /\
             Table.i_consumedBy row' = [])).
  { intros i row'. unfold t2, Table.addProduced. cbn [Table.items].
    rewrite Hitems1.
    destruct (get (Table.items t) (name out)) as [row|] eqn:E; intros H;
      apply get_set_cases in H; destruct H as [[-> ->]|[Hne H]];
      cbn [Table.i_name Table.i_producedBy Table.i_consumedBy]; eauto 8. }
  assert (I3 : forall i row0,
            get (Table.items t) i = Some row0 ->
            exists row', get (Table.items t2) i = Some row' /\
                         Table.i_consumedBy row' = Table.i_consumedBy row0).
  { intros i row0 H. unfold t2, Table.addProduced. cbn [Table.items].
    rewrite Hitems1.
    destruct (String.eqb (name out) i) eqn:Ei.
    - apply String.eqb_eq in Ei. subst i. rewrite H, get_set_same.
      eexists. split; reflexivity.
    - apply String.eqb_neq in Ei.
      destruct (get (Table.items t) (name out));
        rewrite get_set_other by auto; eauto. }
  assert (I1 : forall i, has (Table.items t2) i
                         = has (Table.items t) i || String.eqb (name out) i).
  { intros i. unfold t2, Table.addProduced. cbn [Table.items].
    rewrite Hitems1. destruct (get (Table.items t) (name out)); apply has_set. }
  constructor.
  - unfold t2, Table.addProduced. cbn [Table.items]. rewrite Hitems1.
    destruct (get (Table.items t) (name out)); now apply NoDup_keys_set.
  - intros i row H. destruct (I2 _ _ H) as [(row0 & H0 & Hn & _)|(-> & Hn & _)].
    + rewrite Hn. eauto.
    + exact Hn.
  - intros i row k H Hk. rewrite Hrecipes2.
    destruct (I2 _ _ H) as [(row0 & H0 & _ & Hp & _)|(-> & _ & Hp & _)].
    + rewrite Hp in Hk. destruct (Hprod _ _ _ H0 Hk) as [Hhas Hds].
      split; auto. unfold t1. rewrite addRecipe_has, Hhas. reflexivity.
    + rewrite Hp in Hk. injection Hk as <-. split.
      * unfold t1. rewrite addRecipe_has, String.eqb_refl. apply orb_true_r.
      * exists (def r), out. auto.
  - intros i row H Hnone.
    destruct (I2 _ _ H) as [(row0 & H0 & _ & Hp & Hc)|(-> & _ & Hp & _)].
    + rewrite Hc. apply (Hcre _ _ H0). congruence.
    + congruence.
  - intros i row k H Hk. rewrite Hrecipes2.
    destruct (I2 _ _ H) as [(row0 & H0 & _ & _ & Hc)|(-> & _ & _ & Hc)].
    + rewrite Hc in Hk. destruct (Hcons _ _ _ H0 Hk) as (rr & Hrr & Hi).
      destruct (R3 _ _ Hrr) as (rr' & Hrr' & Hi'). exists rr'.
      split; auto. now rewrite Hi'.
    + rewrite Hc in Hk. discriminate.
  - intros k rr H. rewrite Hrecipes2 in H. rewrite I1.
    destruct (R2 _ _ H) as [(rr0 & H0 & Hp & _)|(-> & Hp & _)].
    + rewrite Hp, (Hpro _ _ H0). reflexivity.
    + rewrite Hp, String.eqb_refl. apply orb_true_r.
  - intros k rr i H Hi. rewrite Hrecipes2 in H.
    destruct (R2 _ _ H) as [(rr0 & H0 & _ & Hg)|(-> & _ & Hg)].
    + rewrite Hg in Hi. destruct (Hing _ _ _ H0 Hi) as (row & Hrow & Hk).
      destruct (I3 _ _ Hrow) as (row' & Hrow' & Hc). exists row'.
      split; auto. now rewrite Hc.
    + rewrite Hg in Hi. destruct Hi.
Qed.

Lemma cross_ingredient data k i v w t t1 :
  crossReferenced data t -> Table.pushIngredient k i v t = Normal t1 ->
  crossReferenced data (Table.addConsumed k i w t1).
Proof.
  intros [Hnd Hname Hprod Hcre Hcons Hpro Hing]. unfold Table.pushIngredient.
  destruct (get (Table.recipes t) k) as [rowk|] eqn:Ek; [|discriminate].
  intros [= <-].
  set (rowP := {| Table.r_name := Table.r_name rowk;
                  Table.r_time := Table.r_time rowk;
                  Table.r_machines := Table.r_machines rowk;
                  Table.r_outputRate := Table.r_outputRate rowk;
                  Table.r_produces := Table.r_produces rowk;
                  Table.r_ingredients := Table.r_ingredients rowk ++ [(i, v)] |}).
  set (t1 := {| Table.recipes := set (Table.recipes t) k rowP;
                Table.items := Table.items t;
                Table.rawMaterials := Table.rawMaterials t |}).
  set (t2 := Table.addConsumed k i w t1).
  assert (Hrecipes2 : Table.recipes t2 = set (Table.recipes t) k rowP)
    by reflexivity.
  assert (R2 : forall k' rr',
            get (Table.recipes t2) k' = Some rr' ->
            exists rr0,
              get (Table.recipes t) k' = Some rr0 /\
              Table.r_produces rr' = Table.r_produces rr0 /\
              forall j, In j (map fst (Table.r_ingredients rr')) ->
                        In j (map fst (Table.r_ingredients rr0)) \/
                        (k' = k /\ j = i)).
  { intros k' rr'. rewrite Hrecipes2. intros H. apply get_set_cases in H.
    destruct H as [[-> ->]|[Hne H]].
    - exists rowk. split; auto. split; auto.
      intros j. cbn [rowP Table.r_ingredients]. rewrite map_app, in_app_iff.
      cbn [map fst In]. intuition auto.
    - exists rr'. auto. }
  assert (R3 : forall k' rr0,
            get (Table.recipes t) k' = Some rr0 ->
            exists rr',
              get (Table.recipes t2) k' = Some rr' /\
              (forall j, In j (map fst (Table.r_ingredients rr0)) ->
                         In j (map fst (Table.r_ingredients rr'))) /\
              (k' = k -> In i (map fst (Table.r_ingredients rr')))).
  { intros k' rr0 H. rewrite Hrecipes2.
    destruct (String.eqb k k') eqn:Ekk.
    - apply String.eqb_eq in Ekk. subst k'. rewrite get_set_same.
      exists rowP. split; auto. rewrite Ek in H. injection H as <-.
      cbn [rowP Table.r_ingredients].
      split; [intros j Hj|intros _]; rewrite map_app, in_app_iff;
        cbn [map fst In]; auto.
    - apply String.eqb_neq in Ekk. rewrite get_set_other by auto.
      exists rr0. split; auto. split; auto. congruence. }
  assert (Hitems2 :
    Table.items t2 =
    match get (Table.items t) i with
    | None =>
        set (Table.items t) i
          {| Table.i_name := i; Table.i_producedBy := None;
             Table.i_producedRate := 0;
             Table.i_consumedBy := [(k, round2 w)];
             Table.i_consumedRate := w |}
    | Some row =>
        set (Table.items t) i
          {| Table.i_name := Table.i_name row;
             Table.i_producedBy := Table.i_producedBy row;
             Table.i_producedRate := Table.i_producedRate row;
             Table.i_consumedBy :=
               set (Table.i_consumedBy row) k
                 (or_default (get (Table.i_consumedBy row) k) 0 + round2 w);
             Table.i_consumedRate := Table.i_consumedRate row + w |}
    end) by reflexivity.
  assert (I2 : forall j row',
            get (Table.items t2) j = Some row' ->
            (exists row0,
               get (Table.items t) j = Some row0 /\
               Table.i_name row' = Table.i_name row0 /\
               Table.i_producedBy row' = Table.i_producedBy row0 /\
               (Table.i_consumedBy row0 <> [] ->
                Table.i_consumedBy row' <> []) /\
               (j = i -> Table.i_consumedBy row' <> []) /\
               (forall k', has (Table.i_consumedBy row') k' = true ->
                           has (Table.i_consumedBy row0) k' = true \/
                           (j = i /\ k' = k))) \/
            (j = i /\ Table.i_name row' = i /\
             Table.i_producedBy row' = None /\
             Table.i_consumedBy row' <> [] /\
             (forall k', has (Table.i_consumedBy row') k' = true -> k' = k))).
  { intros j row'. rewrite Hitems2.
    destruct (get (Table.items t) i) as [row|] eqn:E; intros H;
      apply get_set_cases in H; destruct H as [[-> ->]|[Hne H]];
      cbn [Table.i_name Table.i_producedBy Table.i_consumedBy].
    - left. exists row. repeat split; auto using set_nonempty.
      intros k'. rewrite has_set. intros Hk'. apply orb_true_iff in Hk'.
      destruct Hk' as [Hk'|Hk']; auto. apply String.eqb_eq in Hk'. auto.
    - left. exists row'. repeat split; auto; try contradiction.
    - right. repeat split; auto; [discriminate|].
      intros k'. unfold has. cbn [get].
      destruct (String.eqb k k') eqn:Ekk; [|discriminate].
      apply String.eqb_eq in Ekk. auto.
    - left. exists row'. repeat split; auto; try contradiction. }
  assert (I3 : forall j row0,
            get (Table.items t) j = Some row0 ->
            exists row',
              get (Table.items t2) j = Some row' /\
              forall k', has (Table.i_consumedBy row0) k' = true ->
                         has (Table.i_consumedBy row') k' = true).
  { intros j row0 H. rewrite Hitems2.
    destruct (String.eqb i j) eqn:Eij.
    - apply String.eqb_eq in Eij. subst j. rewrite H, get_set_same.
      eexists. split; [reflexivity|]. cbn [Table.i_consumedBy].
      intros k' Hk'. now rewrite has_set, Hk'.
    - apply String.eqb_neq in Eij.
      destruct (get (Table.items t) i); rewrite get_set_other by auto;
        eauto. }
  assert (I4 : exists row', get (Table.items t2) i = Some row' /\
                            has (Table.i_consumedBy row') k = true).
  { rewrite Hitems2.
    destruct (get (Table.items t) i); rewrite get_set_same; eexists;
      (split; [reflexivity|]); cbn [Table.i_consumedBy].
    - rewrite has_set, String.eqb_refl. apply orb_true_r.
    - unfold has. cbn [get]. now rewrite String.eqb_refl. }
  constructor.
  - rewrite Hitems2. destruct (get (Table.items t) i); now apply NoDup_keys_set.
  - intros j row H.
    destruct (I2 _ _ H) as [(row0 & H0 & Hn & _)|(-> & Hn & _)]; auto.
    rewrite Hn. eauto.
  - intros j row k0 H Hk0.
    destruct (I2 _ _ H) as [(row0 & H0 & _ & Hp & _)|(-> & _ & Hp & _)];
      [|congruence].
    rewrite Hp in Hk0. destruct (Hprod _ _ _ H0 Hk0) as [Hhas Hds].
    split; auto. unfold has in Hhas.
    destruct (get (Table.recipes t) k0) as [rr0|] eqn:E0; [|discriminate].
    destruct (R3 _ _ E0) as (rr' & Hrr' & _). eapply get_has; eauto.
  - intros j row H Hnone.
    destruct (I2 _ _ H) as [(row0 & H0 & _ & Hp & Hne & _)|(-> & _ & _ & Hne & _)];
      auto.
    apply Hne. apply (Hcre _ _ H0). congruence.
  - intros j row k0 H Hk0.
    destruct (I2 _ _ H) as [(row0 & H0 & _ & _ & _ & _ & Hc)|(-> & _ & _ & _ & Hc)].
    + destruct (Hc _ Hk0) as [Hold|[-> ->]].
      * destruct (Hcons _ _ _ H0 Hold) as (rr & Hrr & Hj).
        destruct (R3 _ _ Hrr) as (rr' & Hrr' & Hmono & _). eauto.
      * destruct (R3 _ _ Ek) as (rr' & Hrr' & _ & Hi). eauto.
    + rewrite (Hc _ Hk0).
      destruct (R3 _ _ Ek) as (rr' & Hrr' & _ & Hi). eauto.
  - intros k0 rr H. destruct (R2 _ _ H) as (rr0 & H0 & Hp & _).
    rewrite Hp. pose proof (Hpro _ _ H0) as Hhas. unfold has in Hhas.
    destruct (get (Table.items t) (Table.r_produces rr0)) as [row0|] eqn:E0;
      [|discriminate].
    destruct (I3 _ _ E0) as (row' & Hrow' & _). eapply get_has; eauto.
  - intros k0 rr j H Hj. destruct (R2 _ _ H) as (rr0 & H0 & _ & Hg).
    destruct (Hg _ Hj) as [Hold|[-> ->]].
    + destruct (Hing _ _ _ H0 Hold) as (row & Hrow & Hk0).
      destruct (I3 _ _ Hrow) as (row' & Hrow' & Hmono). eauto.
    + exact I4.
Qed.

Lemma processRecipe_crossReferenced data fuel r rate seen t t' :
  fromDataset data r -> crossReferenced data t ->
  Table.processRecipe data fuel r rate seen t = Normal t' ->
  crossReferenced data t'.
Proof.
  apply processRecipe_keeps.
  - intros. now apply cross_recipe.
  - intros. eapply cross_ingredient; eauto.
  - intros i v t0 [Hnd Hname Hprod Hcre Hcons Hpro Hing].
    constructor; auto.
Qed.

(** X13. The recipe rows and the item rows of a table refer to each
    other consistently, on a dataset with plain names (none inherited
    from Object.prototype, none integer-like). A producer named by an
    item row is the name of a recipe row, and a recipe of the dataset
    whose first result is that item; an item row without producer names at least one consumer; every
    consumer named by an item row is the name of a recipe row that lists
    the item among its ingredients; the product of every recipe row has
    an item row; and every ingredient listed in a recipe row has an item
    row that names the recipe among its consumers. *)
Theorem table_rows_refer_to_each_other
  (data : factorioData) (itemName : string) (r : keyedRecipe) (rate : number)
  (tb : Table.table) :
  plainNames data = true ->
  findRecipeForItem data itemName = Some r ->
  generateRecipeTable data r rate = Normal tb ->
  (forall row k,
     In row (Table.table_items tb) -> Table.i_producedBy row = Some k ->
     (exists rr, In rr (Table.table_recipes tb) /\ Table.r_name rr = k) /\
     (exists rc out, In (k, rc) (recipes data) /\
                     primaryOutput rc = Normal out /\
                     name out = Table.i_name row)) /\
  (forall row,
     In row (Table.table_items tb) -> Table.i_producedBy row = None ->
     Table.i_consumedBy row <> []) /\
  (forall row k,
     In row (Table.table_items tb) -> In k (keys (Table.i_consumedBy row)) ->
     exists rr, In rr (Table.table_recipes tb) /\ Table.r_name rr = k /\
                In (Table.i_name row) (map fst (Table.r_ingredients rr))) /\
  (forall rr,
     In rr (Table.table_recipes tb) ->
     exists row, In row (Table.table_items tb) /\
                 Table.i_name row = Table.r_produces rr) /\
  (forall rr i,
     In rr (Table.table_recipes tb) ->
     In i (map fst (Table.r_ingredients rr)) ->
     exists row, In row (Table.table_items tb) /\ Table.i_name row = i /\
                 In (Table.r_name rr) (keys (Table.i_consumedBy row))).
Proof.
  intros _ Hfind. unfold generateRecipeTable.
  destruct (Table.processRecipe data (enoughFuel data) r rate [] Table.empty)
    as [T|] eqn:ET; cbn [bind]; [|discriminate].
  intros [= <-]. cbn [Table.table_recipes Table.table_items].
  pose proof (findRecipeForItem_fromDataset _ _ _ Hfind) as Hr.
  pose proof (ext_named _ _ _ _
                (processRecipe_extends data _ _ _ _ _ _ rowsNamed_empty ET)
                rowsNamed_empty) as [Hrnd Hrnames].
  destruct (processRecipe_crossReferenced _ _ _ _ _ _ _ Hr
              (crossReferenced_empty data) ET)
    as [Hnd Hname Hprod Hcre Hcons Hpro Hing].
  assert (Hitem : forall row, In row (values (Table.items T)) ->
                              get (Table.items T) (Table.i_name row) = Some row).
  { intros row Hrow. apply In_values in Hrow. destruct Hrow as (i & Hi).
    pose proof (NoDup_keys_get _ _ _ Hnd Hi) as Hg.
    now rewrite (Hname _ _ Hg). }
  assert (Hrecipe : forall rr, In rr (values (Table.recipes T)) ->
                               get (Table.recipes T) (Table.r_name rr) = Some rr).
  { intros rr Hrr. apply In_values in Hrr. destruct Hrr as (k & Hk).
    rewrite (Hrnames _ _ Hk). now apply NoDup_keys_get. }
  assert (Hitem' : forall i row, get (Table.items T) i = Some row ->
                                 In row (values (Table.items T)) /\
                                 Table.i_name row = i).
  { intros i row H. split; [|eauto]. apply In_values. exists i.
    now apply get_In. }
  assert (Hrecipe' : forall k rr, get (Table.recipes T) k = Some rr ->
                                  In rr (values (Table.recipes T)) /\
                                  Table.r_name rr = k).
  { intros k rr H. apply get_In in H. split; [|eauto]. apply In_values. eauto. }
  repeat split.
  - apply Hitem in H. destruct (Hprod _ _ _ H H0) as [Hhas _].
    unfold has in Hhas.
    destruct (get (Table.recipes T) k) as [rr|] eqn:E; [|discriminate].
    exists rr. now apply Hrecipe'.
  - apply Hitem in H. destruct (Hprod _ _ _ H H0) as [_ Hds]. exact Hds.
  - intros row Hrow Hnone. apply Hitem in Hrow. eauto.
  - intros row k Hrow Hk. apply Hitem in Hrow. apply has_keys in Hk.
    destruct (Hcons _ _ _ Hrow Hk) as (rr & Hrr & Hi).
    exists rr. destruct (Hrecipe' _ _ Hrr). auto.
  - intros rr Hrr. apply Hrecipe in Hrr. pose proof (Hpro _ _ Hrr) as Hhas.
    unfold has in Hhas.
    destruct (get (Table.items T) (Table.r_produces rr)) as [row|] eqn:E;
      [|discriminate].
    exists row. now apply Hitem'.
  - intros rr i Hrr Hi. apply Hrecipe in Hrr.
    destruct (Hing _ _ _ Hrr Hi) as (row & Hrow & Hk).
    exists row. destruct (Hitem' _ _ Hrow). split; auto. split; auto.
    now apply has_keys.
Qed.

Lemma table_rows_refer_to_each_other_witness :
  exists tb,
    generateRecipeTable Examples.sharedRaw Examples.keyedT 1 = Normal tb /\
    (forall rr,
       In rr (Table.table_recipes tb) ->
       exists row, In row (Table.table_items tb) /\
                   Table.i_name row = Table.r_produces rr).
Proof.
  eexists. split; [vm_compute; reflexivity|].
  apply (table_rows_refer_to_each_other Examples.sharedRaw "T"
           Examples.keyedT 1); reflexivity.
Defined.

(* ================================================================== *)
(** ** Further properties: the seed of an item subgraph *)
(* ================================================================== *)

Lemma forEach_establishes {A S} (P R : S -> Prop) (xs : list A)
  (body : A -> S -> completion S) (x : A) :
  In x xs ->
  (forall y s s', P s -> body y s = Normal s' -> P s') ->
  (forall s s', P s -> body x s = Normal s' -> R s') ->
  (forall y s s', R s -> body y s = Normal s' -> R s') ->
  forall s s', P s -> forEach xs body s = Normal s' -> R s'.
Proof.
  intros Hx HP Hest HR.
  induction xs as [|y xs IH]; [destruct Hx|]. intros s s' Hs. cbn [forEach].
  destruct (body y s) as [s1|] eqn:E; cbn [bind]; [|discriminate].
  destruct Hx as [->|Hx].
  - apply (forEach_preserves R); eauto.
  - apply IH; eauto.
Qed.

Lemma addLink_nodes s t r a st :
  Graph.nodes (ItemSubgraph.addLink s t r a st) = Graph.nodes st.
Proof.
  unfold ItemSubgraph.addLink.
  destruct (get (Graph.nodeMap st) s); auto.
  destruct (get (Graph.nodeMap st) t); auto.
  destruct (ItemSubgraph.linkExists _ _ _ _); auto.
Qed.

Lemma addNode_nodes i t n p st :
  exists more, Graph.nodes (Graph.addNode i t n p st) = Graph.nodes st ++ more.
Proof.
  unfold Graph.addNode. destruct (has (Graph.nodeMap st) i).
  - exists []. now rewrite app_nil_r.
  - eexists. reflexivity.
Qed.

Lemma addLink_links s t r a st :
  exists more,
    Graph.links (ItemSubgraph.addLink s t r a st) = Graph.links st ++ more.
Proof.
  unfold ItemSubgraph.addLink.
  destruct (get (Graph.nodeMap st) s); [|exists []; now rewrite app_nil_r].
  destruct (get (Graph.nodeMap st) t); [|exists []; now rewrite app_nil_r].
  destruct (ItemSubgraph.linkExists _ _ _ _);
    [exists []; now rewrite app_nil_r|].
  eexists. reflexivity.
Qed.

Lemma addNode_links i t n p st :
  Graph.links (Graph.addNode i t n p st) = Graph.links st.
Proof. unfold Graph.addNode. now destruct (has (Graph.nodeMap st) i). Qed.

Lemma stable_graphInvariant : stable graphInvariant.
Proof. split; intros; auto with graph. Qed.

Lemma stable_hasNode i : stable (hasNode i).
Proof.
  unfold hasNode. split.
  - intros j t n p st H. destruct (addNode_nodes j t n p st) as (more & ->).
    rewrite map_app, in_app_iff. auto.
  - intros s t r a st H. now rewrite addLink_nodes.
Qed.

Lemma stable_hasLink s t r : stable (hasLink s t r).
Proof.
  unfold hasLink. split.
  - intros j ty n p st (l & Hl & Hr & Hs & Ht).
    destruct (addNode_nodes j ty n p st) as (more & ->).
    rewrite addNode_links. exists l. split; auto. split; auto.
    rewrite map_app.
    split; (rewrite nth_error_app1; [assumption|]); apply nth_error_Some;
      congruence.
  - intros s0 t0 r0 a st (l & Hl & Hr & Hs & Ht).
    rewrite addLink_nodes. destruct (addLink_links s0 t0 r0 a st) as (more & ->).
    exists l. split; auto. apply in_or_app. auto.
Qed.

Lemma stable_firstNode n : stable (firstNode n).
Proof.
  unfold firstNode. split.
  - intros j t m p st (rest & H).
    destruct (addNode_nodes j t m p st) as (more & ->). rewrite H.
    eexists. reflexivity.
  - intros s t r a st H. now rewrite addLink_nodes.
Qed.

Lemma stable_and P Q : stable P -> stable Q -> stable (fun st => P st /\ Q st).
Proof.
  intros [P1 P2] [Q1 Q2]. split; intros; split; intuition auto.
Qed.

Lemma addLink_hasLink s t r a st :
  graphInvariant st -> hasNode s st -> hasNode t st ->
  hasLink s t r (ItemSubgraph.addLink s t r a st).
Proof.
  intros Hinv Hs Ht. unfold hasNode in *.
  apply (has_indexOf st s Hinv) in Hs. apply (has_indexOf st t Hinv) in Ht.
  unfold has in Hs, Ht. unfold ItemSubgraph.addLink.
  destruct (get (Graph.nodeMap st) s) as [si|] eqn:Es; [|discriminate].
  destruct (get (Graph.nodeMap st) t) as [ti|] eqn:Et; [|discriminate].
  pose proof (get_nth_error _ _ _ Hinv Es) as Hsi.
  pose proof (get_nth_error _ _ _ Hinv Et) as Hti.
  destruct (ItemSubgraph.linkExists si ti r (Graph.links st)) eqn:Ex.
  - apply linkExists_In in Ex. apply in_map_iff in Ex.
    destruct Ex as (l & Hl & Hin). unfold indexTriple in Hl.
    injection Hl as H1 H2 H3. exists l. subst. auto.
  - eexists. cbn [Graph.pushLink Graph.links Graph.nodes].
    split; [apply in_or_app; right; left; reflexivity|].
    cbn [Graph.rel Graph.sourceIndex Graph.targetIndex]. auto.
Qed.

Section SubgraphSteps.
Variable data : factorioData.
Variable maxDepth : Z.
Variable recur : string -> Z -> list string -> Graph.state
                 -> completion Graph.state.
Hypothesis recur_stable :
  forall Q, stable Q ->
    forall n d v s s', Q s -> recur n d v s = Normal s' -> Q s'.

Lemma exploreIngredient_stable Q rid cd visited e s s' :
  stable Q -> Q s ->
  ItemSubgraph.exploreIngredient data maxDepth recur rid cd visited e s
    = Normal s' ->
  Q s'.
Proof.
  intros HQ Hs. unfold ItemSubgraph.exploreIngredient.
  match goal with
  | |- (if _ then recur _ _ _ ?st else _) = _ -> _ => assert (H2 : Q st)
  end.
  { apply HQ. now apply HQ. }
  destruct (Z.ltb cd maxDepth).
  - now apply recur_stable.
  - now intros [= <-].
Qed.

Lemma exploreProduct_stable Q rid cd visited e s s' :
  stable Q -> Q s ->
  ItemSubgraph.exploreProduct data maxDepth recur rid cd visited e s
    = Normal s' ->
  Q s'.
Proof.
  intros HQ Hs. unfold ItemSubgraph.exploreProduct.
  match goal with
  | |- (if _ then recur _ _ _ ?st else _) = _ -> _ => assert (H2 : Q st)
  end.
  { apply HQ. now apply HQ. }
  destruct (Z.ltb cd maxDepth).
  - now apply recur_stable.
  - now intros [= <-].
Qed.

Lemma exploreRecipe_stable Q itemName cd visited kr s s' :
  stable Q -> Q s ->
  ItemSubgraph.exploreRecipe data maxDepth recur itemName cd visited kr s
    = Normal s' ->
  Q s'.
Proof.
  intros HQ Hs. destruct kr as [k r]. unfold ItemSubgraph.exploreRecipe.
  match goal with
  | |- bind ?c _ = _ -> _ => destruct c as [s1|] eqn:E1; cbn [bind];
                             [|discriminate]
  end.
  assert (Hs1 : Q s1).
  { destruct (produces r itemName); [|now injection E1 as <-].
    match type of E1 with
    | match _ with Some _ => _ | None => Normal ?st end = _ =>
        assert (H2 : Q st) by (apply HQ; now apply HQ)
    end.
    destruct (ingredients r) as [ins|]; [|now injection E1 as <-].
    eapply (forEach_preserves Q); [|exact H2|exact E1].
    intros e s0 s0' _ Hs0. now apply exploreIngredient_stable. }
  destruct (consumes r itemName); [|now intros [= <-]].
  match goal with
  | |- match _ with Some _ => _ | None => Normal ?st end = _ -> _ =>
      assert (H2 : Q st) by (apply HQ; now apply HQ)
  end.
  destruct (results r) as [rs|]; [|now intros [= <-]].
  intros E2. eapply (forEach_preserves Q); [|exact H2|exact E2].
  intros e s0 s0' _ Hs0. now apply exploreProduct_stable.
Qed.

(** What one round of the loop over the recipes does for the item it
    explores: a recipe that produces the item, or consumes it, gets its
    node and its link with the item. *)
Lemma exploreRecipe_neighbour itemName cd visited k r s s' :
  graphInvariant s -> hasNode (Graph.itemId itemName) s ->
  ItemSubgraph.exploreRecipe data maxDepth recur itemName cd visited (k, r) s
    = Normal s' ->
  (produces r itemName = true ->
   hasNode (Graph.recipeId k) s' /\
   hasLink (Graph.recipeId k) (Graph.itemId itemName) Graph.Produces s') /\
  (consumes r itemName = true ->
   hasNode (Graph.recipeId k) s' /\
   hasLink (Graph.itemId itemName) (Graph.recipeId k) Graph.ConsumedBy s').
Proof.
  intros Hinv Hitem. unfold ItemSubgraph.exploreRecipe.
  set (rid := Graph.recipeId k). set (iid := Graph.itemId itemName).
  set (Base := fun st => graphInvariant st /\ hasNode iid st).
  assert (HBase : stable Base)
    by (apply stable_and; [apply stable_graphInvariant|apply stable_hasNode]).
  set (Made := fun st => hasNode rid st /\ hasLink rid iid Graph.Produces st).
  assert (HMade : stable Made)
    by (apply stable_and; [apply stable_hasNode|apply stable_hasLink]).
  set (Used := fun st => hasNode rid st /\ hasLink iid rid Graph.ConsumedBy st).
  assert (HUsed : stable Used)
    by (apply stable_and; [apply stable_hasNode|apply stable_hasLink]).
  set (Made' := fun st => produces r itemName = true -> Made st).
  assert (HMade' : stable Made').
  { destruct HMade as [M1 M2]. split; intros; intro; [apply M1|apply M2]; auto. }
  assert (Hadd : forall st p,
            graphInvariant st ->
            hasNode rid (Graph.addNode rid Graph.recipeType k p st)).
  { intros st p Hst. unfold hasNode.
    apply (Graph_addNode_spec rid Graph.recipeType k p st Hst). now right. }
  assert (Hs : Base s) by (split; auto).
  match goal with
  | |- bind ?c _ = _ -> _ => destruct c as [s1|] eqn:E1; cbn [bind];
                             [|discriminate]
  end.
  assert (H1 : Base s1 /\ Made' s1).
  { unfold Made'. destruct (produces r itemName) eqn:Hp;
      [|injection E1 as <-; split; [exact Hs|discriminate]].
    match type of E1 with
    | match _ with Some _ => _ | None => Normal ?st end = _ =>
        assert (H2 : Base st /\ Made st)
    end.
    { split; [apply HBase; now apply HBase|]. split.
      - apply stable_hasNode. now apply Hadd.
      - apply addLink_hasLink.
        + now apply addNode_invariant.
        + now apply Hadd.
        + now apply stable_hasNode. }
    destruct (ingredients r) as [ins|];
      [|injection E1 as <-; destruct H2; split; auto].
    assert (H3 : Base s1 /\ Made s1).
    { eapply (forEach_preserves (fun st => Base st /\ Made st));
        [|exact H2|exact E1].
      intros e s0 s0' _ Hs0 E.
      exact (exploreIngredient_stable (fun st => Base st /\ Made st)
               _ _ _ _ _ _ (stable_and _ _ HBase HMade) Hs0 E). }
    destruct H3; split; auto. }
  destruct H1 as [HB1 HM1].
  destruct (consumes r itemName) eqn:Hc;
    [|intros [= <-]; split; [exact HM1|discriminate]].
  match goal with
  | |- match _ with Some _ => _ | None => Normal ?st end = _ -> _ =>
      assert (H2 : Made' st /\ Used st)
  end.
  { split; [apply HMade'; now apply HMade'|]. split.
    - apply stable_hasNode. apply Hadd. apply HB1.
    - apply addLink_hasLink.
      + apply addNode_invariant. apply HB1.
      + apply stable_hasNode. apply HB1.
      + apply Hadd. apply HB1. }
  destruct (results r) as [rs|];
    [|intros [= <-]; destruct H2; split; auto].
  intros E2.
  assert (H3 : Made' s' /\ Used s').
  { eapply (forEach_preserves (fun st => Made' st /\ Used st));
      [|exact H2|exact E2].
    intros e s0 s0' _ Hs0 E.
    exact (exploreProduct_stable (fun st => Made' st /\ Used st)
             _ _ _ _ _ _ (stable_and _ _ HMade' HUsed) Hs0 E). }
  destruct H3; split; auto.
Qed.

End SubgraphSteps.

Lemma exploreItem_stable data maxDepth Q fuel :
  stable Q ->
  forall itemName cd visited st st',
    Q st ->
    ItemSubgraph.exploreItem data maxDepth fuel itemName cd visited st
      = Normal st' ->
    Q st'.
Proof.
  intros HQ. revert Q HQ.
  induction fuel as [|fuel IH]; intros Q HQ itemName cd visited st st' Hst;
    [discriminate|].
  cbn [ItemSubgraph.exploreItem].
  destruct (Z.ltb maxDepth cd); [now intros [= <-]|].
  destruct (Set_has visited itemName); [now intros [= <-]|].
  apply (forEach_preserves Q).
  - intros kr s s' _ Hs. apply exploreRecipe_stable; auto;
      intros Q' HQ' n d v s0 s0'; now apply IH.
  - now apply HQ.
Qed.

Lemma Forall2_In_l {A B} (R : A -> B -> Prop) l l' a :
  Forall2 R l l' -> In a l -> exists b, In b l' /\ R a b.
Proof.
  induction 1 as [|a0 b0 l l' H0 _ IH]; [intros []|].
  intros [<-|Ha].
  - exists b0. split; auto. now left.
  - destruct (IH Ha) as (b & Hb & HR). exists b. split; auto. now right.
Qed.

Lemma hasLink_resolved f st ls s t r :
  Graph.resolveLinks (Graph.nodes st) f (Graph.links st) = Normal ls ->
  hasLink s t r st -> In (s, t, r) (map triple ls).
Proof.
  intros Hls (l & Hl & Hr & Hs & Ht).
  destruct (Forall2_In_l _ _ _ _ (resolveLinks_resolved _ _ _ _ Hls) Hl)
    as (o & Ho & Hs' & Ht' & Hr' & _).
  apply in_map_iff. exists o. split; auto. unfold triple. congruence.
Qed.

(** X14. The item subgraph holds its seed and the seed's neighbours.
    With a depth limit that is not negative, the first node of the answer
    is the seed's item node; every recipe of the dataset that produces the
    seed has its node in the answer and a 'produces' link from that node
    to the seed; and every recipe that consumes the seed has its node in
    the answer and a 'consumedBy' link from the seed to that node. *)
Theorem item_subgraph_holds_the_seed
  (data : factorioData) (seed : string) (maxDepth : Z) (g : Graph.graph) :
  (0 <= maxDepth)%Z ->
  generateItemSubgraph data seed maxDepth = Normal g ->
  (exists rest, Graph.graph_nodes g = itemNode data seed :: rest) /\
  (forall k r,
     In (k, r) (recipes data) -> produces r seed = true ->
     In (Graph.recipeId k) (map Graph.node_id (Graph.graph_nodes g)) /\
     In (Graph.recipeId k, Graph.itemId seed, Graph.Produces)
        (map triple (Graph.graph_links g))) /\
  (forall k r,
     In (k, r) (recipes data) -> consumes r seed = true ->
     In (Graph.recipeId k) (map Graph.node_id (Graph.graph_nodes g)) /\
     In (Graph.itemId seed, Graph.recipeId k, Graph.ConsumedBy)
        (map triple (Graph.graph_links g))).
Proof.
  intros Hdepth. unfold generateItemSubgraph.
  destruct (ItemSubgraph.exploreItem data maxDepth (S (Z.to_nat maxDepth))
              seed 0%Z [] Graph.empty) as [st|] eqn:Est; cbn [bind];
    [|discriminate].
  destruct (Graph.resolveLinks (Graph.nodes st)
              (fun a => Some (or_default a 1)) (Graph.links st))
    as [ls|] eqn:Els; cbn [bind]; [|discriminate].
  intros [= <-]. cbn [Graph.graph_nodes Graph.graph_links].
  cbn [ItemSubgraph.exploreItem] in Est.
  assert (Hlt : Z.ltb maxDepth 0 = false) by (apply Z.ltb_ge; lia).
  rewrite Hlt in Est. cbn [Set_has existsb] in Est.
  set (st0 := Graph.addNode (Graph.itemId seed) Graph.itemType seed
                (Graph.itemPropertiesOf data seed) Graph.empty) in Est.
  set (recur := ItemSubgraph.exploreItem data maxDepth (Z.to_nat maxDepth))
    in Est.
  assert (Hrecur : forall Q, stable Q ->
            forall n d v s s', Q s -> recur n d v s = Normal s' -> Q s').
  { intros Q HQ n d v s s'. now apply exploreItem_stable. }
  assert (Hinv0 : graphInvariant st0) by (apply addNode_invariant; auto with graph).
  assert (Hseed0 : hasNode (Graph.itemId seed) st0) by (left; reflexivity).
  assert (Hfirst0 : firstNode (itemNode data seed) st0)
    by (exists []; reflexivity).
  set (Base := fun s => graphInvariant s /\ hasNode (Graph.itemId seed) s).
  assert (HBase : stable Base)
    by (apply stable_and; [apply stable_graphInvariant|apply stable_hasNode]).
  split; [|split].
  - apply (forEach_preserves (firstNode (itemNode data seed)) _ _) in Est; auto.
    intros kr s s' _ Hs. apply exploreRecipe_stable; auto.
    apply stable_firstNode.
  - intros k r Hkr Hp.
    set (Made := fun s => hasNode (Graph.recipeId k) s /\
                          hasLink (Graph.recipeId k) (Graph.itemId seed)
                            Graph.Produces s).
    assert (HMade : stable Made)
      by (apply stable_and; [apply stable_hasNode|apply stable_hasLink]).
    assert (H : Made st).
    { apply (forEach_establishes Base Made _ _ (k, r) Hkr) with (s := st0)
        (s' := st) in Est; auto.
      - intros y s s' Hs. apply exploreRecipe_stable; auto.
      - intros s s' [Hs1 Hs2] E.
        apply (exploreRecipe_neighbour data maxDepth recur Hrecur _ _ _ _ _ _ _
                 Hs1 Hs2 E). exact Hp.
      - intros y s s' Hs. apply exploreRecipe_stable; auto.
      - split; auto. }
    destruct H as [Hn Hl]. split; [exact Hn|].
    eapply hasLink_resolved; eauto.
  - intros k r Hkr Hc.
    set (Used := fun s => hasNode (Graph.recipeId k) s /\
                          hasLink (Graph.itemId seed) (Graph.recipeId k)
                            Graph.ConsumedBy s).
    assert (HUsed : stable Used)
      by (apply stable_and; [apply stable_hasNode|apply stable_hasLink]).
    assert (H : Used st).
    { apply (forEach_establishes Base Used _ _ (k, r) Hkr) with (s := st0)
        (s' := st) in Est; auto.
      - intros y s s' Hs. apply exploreRecipe_stable; auto.
      - intros s s' [Hs1 Hs2] E.
        apply (exploreRecipe_neighbour data maxDepth recur Hrecur _ _ _ _ _ _ _
                 Hs1 Hs2 E). exact Hc.
      - intros y s s' Hs. apply exploreRecipe_stable; auto.
      - split; auto. }
    destruct H as [Hn Hl]. split; [exact Hn|].
    eapply hasLink_resolved; eauto.
Qed.

Lemma item_subgraph_holds_the_seed_witness :
  exists g,
    generateItemSubgraph Examples.sharedRaw "B" 1 = Normal g /\
    (exists rest,
       Graph.graph_nodes g = itemNode Examples.sharedRaw "B" :: rest) /\
    (forall k r,
       In (k, r) (recipes Examples.sharedRaw) -> produces r "B" = true ->
       In (Graph.recipeId k) (map Graph.node_id (Graph.graph_nodes g)) /\
       In (Graph.recipeId k, Graph.itemId "B", Graph.Produces)
          (map triple (Graph.graph_links g))) /\
    (forall k r,
       In (k, r) (recipes Examples.sharedRaw) -> consumes r "B" = true ->
       In (Graph.recipeId k) (map Graph.node_id (Graph.graph_nodes g)) /\
       In (Graph.itemId "B", Graph.recipeId k, Graph.ConsumedBy)
          (map triple (Graph.graph_links g))).
Proof.
  eexists. split; [vm_compute; reflexivity|].
  apply (item_subgraph_holds_the_seed Examples.sharedRaw "B" 1%Z);
    [lia|reflexivity].
Defined.
